(** * B-spline / NURBS evaluation engine of ezdxf ([ezdxf/algebra/spline.py])

    A shallow embedding of the knot-vector builders, the Cox-de Boor basis
    iteration (value and derivative form), point evaluation and the rational
    re-weighting, together with the properties stated for them.

    Python lists are modelled as [list] with stdpp's lookup and insert; an
    index outside the list raises [IndexError], a division by a zero
    denominator raises [ZeroDivisionError].  The six classes are one record
    [curve] tagged with its class; a method is resolved on the tag the way
    the inheritance chain resolves it.

    The arithmetic of Python's [float] is an interface ([Arith]) with two
    instances: IEEE binary64 ([PrimFloat], what the interpreter runs) and
    the real numbers (the exact arithmetic the algorithm approximates).
    Properties of the control flow - lengths, indices, which exception, the
    snap, the fix-up, the re-weighting - are proved for every instance.
    The partition of unity, a property of rounded values, is proved with
    its tolerance in every arithmetic that follows the standard model of
    rounding ([rounding_model]).  Properties of the structure of the values
    - the knots at integer steps, supports and signs, the absence of a
    division by zero, the single 1 of the basis at the two ends - are
    proved in exact arithmetic; concrete runs are evaluated in binary64. *)

From Stdlib Require Import ZArith Reals Lra Lia Floats Bool Ascii.
From stdpp Require Import base list.

Set Default Proof Using "Type*".

(** ** Exceptions and the error monad *)

Inductive exn : Set := IndexError | ZeroDivisionError | ValueError.

Inductive result (A : Type) : Type :=
| Ok (a : A)
| Raise (e : exn).

Arguments Ok {A} a.
Arguments Raise {A} e.

Definition bind {A B} (m : result A) (k : A -> result B) : result B :=
  match m with
  | Ok a => k a
  | Raise e => Raise e
  end.

Notation "'let*' x ':=' m 'in' k" := (bind m (fun x => k))
  (at level 10, x pattern, m at level 100, k at level 200).

(** A [for] loop over [l] threading the mutated object [s]. *)
Fixpoint foldM {S A} (f : A -> S -> result S) (l : list A) (s : S) : result S :=
  match l with
  | [] => Ok s
  | a :: l' => let* s' := f a s in foldM f l' s'
  end.

(** A list comprehension or generator whose element expression may raise. *)
Fixpoint mapM {A B} (f : A -> result B) (l : list A) : result (list B) :=
  match l with
  | [] => Ok []
  | a :: l' => let* b := f a in let* bs := mapM f l' in Ok (b :: bs)
  end.

(** [range(a, b)] on non-negative integers. *)
Definition range (a b : nat) : list nat := seq a (b - a).

(** [l[i]] for [i >= 0]. *)
Definition py_get {A} (l : list A) (i : nat) : result A :=
  match l !! i with
  | Some x => Ok x
  | None => Raise IndexError
  end.

(** [l[i] = v] for [i >= 0]. *)
Definition py_set {A} (l : list A) (i : nat) (v : A) : result (list A) :=
  if decide (i < length l) then Ok (<[i:=v]> l) else Raise IndexError.

(** ** Arithmetic of [float] *)

Class Arith (F : Type) := {
  f0 : F;                      (* 0.0 *)
  f1 : F;                      (* 1.0 *)
  fadd : F -> F -> F;
  fsub : F -> F -> F;
  fmul : F -> F -> F;
  fquot : F -> F -> F;         (* x / y for y != 0 *)
  fopp : F -> F;
  fsqrt : F -> F;
  feqb : F -> F -> bool;       (* == *)
  fltb : F -> F -> bool;       (* < *)
  fleb : F -> F -> bool;       (* <= *)
  of_Z : Z -> F;               (* float(i), and an int operand of a float operation *)
  snap_tol : F                 (* the literal 5e-6 *)
}.

Definition float_of_Z (z : Z) : float :=
  match z with
  | Z0 => 0%float
  | Zpos _ => PrimFloat.of_uint63 (Uint63.of_Z z)
  | Zneg p => PrimFloat.opp (PrimFloat.of_uint63 (Uint63.of_Z (Zpos p)))
  end.

(** IEEE binary64; [0x1.4f8b588e368f1p-18] is the double nearest to 5e-6. *)
#[export] Instance float_arith : Arith float := {|
  f0 := 0%float;
  f1 := 1%float;
  fadd := PrimFloat.add;
  fsub := PrimFloat.sub;
  fmul := PrimFloat.mul;
  fquot := PrimFloat.div;
  fopp := PrimFloat.opp;
  fsqrt := PrimFloat.sqrt;
  feqb := PrimFloat.eqb;
  fltb := PrimFloat.ltb;
  fleb := PrimFloat.leb;
  of_Z := float_of_Z;
  snap_tol := 0x1.4f8b588e368f1p-18%float
|}.

Definition Reqb (x y : R) : bool := if Req_dec_T x y then true else false.
Definition Rltb (x y : R) : bool := if Rlt_dec x y then true else false.
Definition Rleb (x y : R) : bool := if Rle_dec x y then true else false.

(** Exact arithmetic: the real numbers, on which no operation rounds,
    overflows or underflows.  This is the arithmetic the algorithm
    approximates, not the one the interpreter runs; it is the instance
    [u = 0] of the rounding model below. *)
#[export] Instance real_arith : Arith R := {|
  f0 := 0%R;
  f1 := 1%R;
  fadd := Rplus;
  fsub := Rminus;
  fmul := Rmult;
  fquot := Rdiv;
  fopp := Ropp;
  fsqrt := R_sqrt.sqrt;
  feqb := Reqb;
  fltb := Rltb;
  fleb := Rleb;
  of_Z := IZR;
  snap_tol := (5 / 1000000)%R
|}.

Section Spline.

Context {F : Type} `{Arith F}.

(** [x / y]: Python raises on a zero denominator (of either sign). *)
Definition py_div (x y : F) : result F :=
  if feqb y f0 then Raise ZeroDivisionError else Ok (fquot x y).

(** [sum(xs)]: starts from the int [0] and adds from the left. *)
Definition py_sum (xs : list F) : F := fold_left fadd xs (of_Z 0).

(** ** Vectors *)

(** Modelled from the spec: the [Vector] type of [ezdxf/algebra/vector.py]
    (imported, not part of the module): a 3D coordinate value with component
    access by axis 0, 1, 2. *)
Record Vector : Type := mkVector { vx : F; vy : F; vz : F }.

Definition axis_get (axis : nat) (v : Vector) : result F :=
  match axis with
  | 0 => Ok (vx v)
  | 1 => Ok (vy v)
  | 2 => Ok (vz v)
  | _ => Raise IndexError
  end.

(** Modelled from the spec: [distance] of [ezdxf/algebra/vector.py], the
    Euclidean distance of two points. *)
Definition distance (p q : Vector) : F :=
  let dx := fsub (vx p) (vx q) in
  let dy := fsub (vy p) (vy q) in
  let dz := fsub (vz p) (vz q) in
  fsqrt (fadd (fadd (fmul dx dx) (fmul dy dy)) (fmul dz dz)).

(** ** [one_based_array]

    The placeholder at index 0 is the float [0.0] in the source, whatever
    the element type; no code path reads it.  For an array of vectors it is
    modelled as the null vector. *)
Definition one_based_array {A} (dummy : A) (values : list A) : list A :=
  dummy :: values.

Definition null_vector : Vector := mkVector f0 f0 f0.

(** ** Knot vectors *)

Definition knot_open_uniform (n order : nat) : result (list F) :=
  let nplusc := n + order in
  let nplus2 := n + 2 in
  foldM (fun i x =>
           let* prev := py_get x (i - 1) in
           if (order <? i) && (i <? nplus2)
           then Ok (x ++ [fadd prev f1])
           else Ok (x ++ [prev]))
        (range 2 (nplusc + 1)) [f0; f0].

Definition knot_uniform (n order : nat) : result (list F) :=
  let nplusc := n + order in
  Ok ([f0; f0] ++ map (fun i => of_Z (Z.of_nat i)) (range 1 nplusc)).

(** The body of the loop of [knot_closed]; [m] is [n - order + 2]. *)
Definition knot_closed_step (spacing : list F) (maxc : F) (m : Z) (i : nat)
    (x : list F) : result (list F) :=
  let csum := py_sum (take i spacing) in
  let* q := py_div (of_Z (Z.of_nat i)) (of_Z m) in
  let* sp := py_get spacing i in
  let numerator := fadd (fmul q sp) csum in
  let* r := py_div numerator maxc in
  Ok (x ++ [fmul r (of_Z m)]).

(** [control_points] is a 1-based array.  [n - order + 2] is an int that can
    be negative, so it is computed in [Z]. *)
Definition knot_closed (control_points : list Vector) (order : nat) : result (list F) :=
  let n : Z := (Z.of_nat (length control_points) - 1)%Z in
  let m : Z := (n - Z.of_nat order + 2)%Z in
  let* spacing :=
    mapM (fun i =>
            let* a := py_get control_points (i - 1) in
            let* b := py_get control_points i in
            Ok (distance a b))
         (range 2 (Z.to_nat (n + 1)%Z)) in
  let maxc := py_sum spacing in
  let x := repeat f0 (order + 1) in
  let* x := foldM (knot_closed_step spacing maxc m) (range 1 (Z.to_nat m)) x in
  Ok (x ++ repeat (of_Z m) (order - 1)).

(** ** Curves *)

Inductive variant : Set :=
| BSpline | BSplineU | DBSpline | DBSplineU | RBSpline | RBSplineU.

(** The classes deriving from [BSplineU]. *)
Definition periodic (v : variant) : bool :=
  match v with
  | BSplineU | DBSplineU | RBSplineU => true
  | _ => false
  end.

(** The classes with [DBSplineMixin]. *)
Definition derivative (v : variant) : bool :=
  match v with
  | DBSpline | DBSplineU => true
  | _ => false
  end.

Definition rational (v : variant) : bool :=
  match v with
  | RBSpline | RBSplineU => true
  | _ => false
  end.

(** The attributes set by [__init__].  [weights] exists only on the rational
    classes; it is [[]] on the others, which never read it. *)
Record curve : Type := mkCurve {
  cls : variant;
  _control_points : list Vector;
  _cp_count : nat;
  order : nat;
  nplusc : nat;
  knots : list F;
  weights : list F
}.

(** [self._knots()] as resolved for class [v]. *)
Definition _knots (v : variant) (cp_count order : nat) : result (list F) :=
  if periodic v then knot_uniform cp_count order
  else knot_open_uniform cp_count order.

(** [BSpline.__init__], inherited unchanged by [BSplineU], [DBSpline] and
    [DBSplineU]. *)
Definition BSpline_init (v : variant) (control_points : list Vector) (order : nat)
    (knots : option (list F)) : result curve :=
  let cps := one_based_array null_vector control_points in
  let cp_count := length control_points in
  let nplusc := cp_count + order in
  let* ks := match knots with
             | None => _knots v cp_count order
             | Some ks => Ok ks
             end in
  Ok (mkCurve v cps cp_count order nplusc ks []).

Definition default_order : nat := 4.
Definition default_rational_order : nat := 3.

Definition set_weights (c : curve) (ws : list F) : curve :=
  mkCurve (cls c) (_control_points c) (_cp_count c) (order c) (nplusc c) (knots c) ws.

(** [RBSpline.__init__] *)
Definition RBSpline_init (control_points : list Vector) (ws : list F) (order : nat)
    : result curve :=
  if negb (length control_points =? length ws)
  then Raise ValueError
  else
    let* c := BSpline_init RBSpline control_points order None in
    Ok (set_weights c (one_based_array f0 ws)).

(** [RBSplineU.__init__] *)
Definition RBSplineU_init (control_points : list Vector) (ws : list F) (order : nat)
    : result curve :=
  let* c := BSpline_init RBSplineU control_points order None in
  Ok (set_weights c (one_based_array f0 ws)).

(** ** Evaluation *)

(** The [max_t] property: [BSplineU] overrides it. *)
Definition max_t (c : curve) : result F :=
  if periodic (cls c) then Ok (of_Z (Z.of_nat (_cp_count c)))
  else py_get (knots c) (nplusc c).

(** The first order basis functions.  The chained comparison
    [knots[i] <= t < knots[i+1]] reads [knots[i+1]] only when its first half
    holds. *)
Definition first_order (ks : list F) (t : F) (i : nat) : result F :=
  let* ki := py_get ks i in
  if fleb ki t
  then (let* ki1 := py_get ks (i + 1) in Ok (if fltb t ki1 then f1 else f0))
  else Ok f0.

Definition create_nbasis (c : curve) (t : F) : result (list F) :=
  let* firsts := mapM (first_order (knots c) t) (range 1 (nplusc c)) in
  Ok ([f0] ++ firsts).

(** [((t - knots[a]) * v) / (knots[b] - knots[a]) if v != 0.0 else 0.0] *)
Definition left_term (ks : list F) (t : F) (a b : nat) (v : F) : result F :=
  if negb (feqb v f0)
  then (let* ka := py_get ks a in
        let* kb := py_get ks b in
        py_div (fmul (fsub t ka) v) (fsub kb ka))
  else Ok f0.

(** [((knots[b] - t) * v) / (knots[b] - knots[a]) if v != 0.0 else 0.0] *)
Definition right_term (ks : list F) (t : F) (a b : nat) (v : F) : result F :=
  if negb (feqb v f0)
  then (let* kb := py_get ks b in
        let* ka := py_get ks a in
        py_div (fmul (fsub kb t) v) (fsub kb ka))
  else Ok f0.

(** The body of the inner loop of [BSpline.basis]: updates [nbasis[i]] in
    place from [nbasis[i]] and the not yet updated [nbasis[i+1]]. *)
Definition basis_step (ks : list F) (t : F) (k i : nat) (nbasis : list F)
    : result (list F) :=
  let* bi := py_get nbasis i in
  let* d := left_term ks t i (i + k - 1) bi in
  let* bi1 := py_get nbasis (i + 1) in
  let* e := right_term ks t (i + 1) (i + k) bi1 in
  py_set nbasis i (fadd d e).

(** One order level: the inner [for i] loop. *)
Definition basis_level (ks : list F) (t : F) (npc k : nat) (nbasis : list F)
    : result (list F) :=
  foldM (basis_step ks t k) (range 1 (npc - k + 1)) nbasis.

(** [BSpline.basis] up to its last statement: the first order basis and the
    loop over the higher orders. *)
Definition basis_recursion (c : curve) (t : F) : result (list F) :=
  let ks := knots c in
  let* nbasis := create_nbasis c t in
  foldM (basis_level ks t (nplusc c)) (range 2 (order c + 1)) nbasis.

(** [BSpline.basis] *)
Definition BSpline_basis (c : curve) (t : F) : result (list F) :=
  let* nbasis := basis_recursion c t in
  let* last := py_get (knots c) (nplusc c) in
  if feqb t last then py_set nbasis (_cp_count c) f1 else Ok nbasis.

(** [weighting] *)
Definition weighting (nbasis ws : list F) (npts : nat) : result (list F) :=
  let* products :=
    mapM (fun i => let* b := py_get nbasis i in
                   let* w := py_get ws i in
                   Ok (fmul b w))
         (range 1 (npts + 1)) in
  let s := py_sum products in
  if feqb s f0 then Ok (repeat f0 (npts + 1))
  else
    let* r := mapM (fun i => let* b := py_get nbasis i in
                             let* w := py_get ws i in
                             py_div (fmul b w) s)
                   (range 1 (npts + 1)) in
    Ok (one_based_array f0 r).

(** [self.basis(t)] as resolved for the class of [c]: the rational classes
    override it. *)
Definition basis (c : curve) (t : F) : result (list F) :=
  if rational (cls c)
  then (let* nbasis := BSpline_basis c t in
        weighting nbasis (weights c) (_cp_count c))
  else BSpline_basis c t.

(** The snap of [t] onto [max_t] at the head of both [point] methods. *)
Definition snap (mt t : F) : F :=
  if fltb (fsub mt t) snap_tol then mt else t.

(** [sum(nbasis[i] * control_points[i][axis] for i in range(1, npts1))] *)
Definition axis_value (nbasis : list F) (cps : list Vector) (npts1 axis : nat)
    : result F :=
  let* terms :=
    mapM (fun i => let* b := py_get nbasis i in
                   let* p := py_get cps i in
                   let* x := axis_get axis p in
                   Ok (fmul b x))
         (range 1 npts1) in
  Ok (py_sum terms).

(** [BSpline.point] *)
Definition BSpline_point (c : curve) (t : F) : result (F * F * F) :=
  let* mt := max_t c in
  let t := snap mt t in
  let* nbasis := basis c t in
  let npts1 := _cp_count c + 1 in
  let* x := axis_value nbasis (_control_points c) npts1 0 in
  let* y := axis_value nbasis (_control_points c) npts1 1 in
  let* z := axis_value nbasis (_control_points c) npts1 2 in
  Ok (x, y, z).

(** ** Derivatives *)

(** [create_nbasis2] of [DBSpline] and of [DBSplineU]. *)
Definition create_nbasis2 (c : curve) (t : F) : result (list F) :=
  if periodic (cls c)
  then
    let npts := _cp_count c in
    let* nbasis := create_nbasis c t in
    let* kn := py_get (knots c) (npts + 1) in
    if feqb t kn
    then (let* nbasis := py_set nbasis npts f1 in py_set nbasis (npts + 1) f0)
    else Ok nbasis
  else
    let* nbasis := create_nbasis c t in
    let* kn := py_get (knots c) (nplusc c) in
    if feqb t kn then py_set nbasis (_cp_count c) f1 else Ok nbasis.

(** [num / (knots[b] - knots[a]) if v != 0.0 else 0.0] *)
Definition ratio_term (ks : list F) (a b : nat) (v num : F) : result F :=
  if negb (feqb v f0)
  then (let* kb := py_get ks b in
        let* ka := py_get ks a in
        py_div num (fsub kb ka))
  else Ok f0.

(** The body of the inner loop of [dbasis]. *)
Definition dbasis_step (ks : list F) (t : F) (k i : nat)
    (st : list F * list F * list F) : result (list F * list F * list F) :=
  let '(nbasis, d1nbasis, d2nbasis) := st in
  let* bi := py_get nbasis i in
  let* b1 := left_term ks t i (i + k - 1) bi in
  let* bi1 := py_get nbasis (i + 1) in
  let* b2 := right_term ks t (i + 1) (i + k) bi1 in
  let* f1' := ratio_term ks i (i + k - 1) bi bi in
  let* f2 := ratio_term ks (i + 1) (i + k) bi1 (fopp bi1) in
  let* di := py_get d1nbasis i in
  let* f3 := left_term ks t i (i + k - 1) di in
  let* di1 := py_get d1nbasis (i + 1) in
  let* f4 := right_term ks t (i + 1) (i + k) di1 in
  let* s1 := ratio_term ks i (i + k - 1) di (fmul (of_Z 2) di) in
  let* s2 := ratio_term ks (i + 1) (i + k) di1 (fmul (of_Z (-2)) di1) in
  let* ei := py_get d2nbasis i in
  let* s3 := left_term ks t i (i + k - 1) ei in
  let* ei1 := py_get d2nbasis (i + 1) in
  let* s4 := right_term ks t (i + 1) (i + k) ei1 in
  let* nbasis := py_set nbasis i (fadd b1 b2) in
  let* d1nbasis := py_set d1nbasis i (fadd (fadd (fadd f1' f2) f3) f4) in
  let* d2nbasis := py_set d2nbasis i (fadd (fadd (fadd s1 s2) s3) s4) in
  Ok (nbasis, d1nbasis, d2nbasis).

Definition dbasis_level (ks : list F) (t : F) (npc k : nat)
    (st : list F * list F * list F) : result (list F * list F * list F) :=
  foldM (dbasis_step ks t k) (range 1 (npc - k + 1)) st.

(** [DBSplineMixin.dbasis] *)
Definition dbasis (c : curve) (t : F) : result (list F * list F * list F) :=
  let ks := knots c in
  let* nbasis := create_nbasis2 c t in
  let d1nbasis := repeat f0 (nplusc c + 1) in
  let d2nbasis := d1nbasis in
  foldM (dbasis_level ks t (nplusc c)) (range 2 (order c + 1))
        (nbasis, d1nbasis, d2nbasis).

(** The three accumulators of one axis in [DBSplineMixin.point]. *)
Definition daxis_value (bs : list F * list F * list F) (cps : list Vector)
    (cp_count axis : nat) : result (F * F * F) :=
  let '(nbasis, d1nbasis, d2nbasis) := bs in
  foldM (fun i acc =>
           let '(p, d1, d2) := acc in
           let* v := py_get cps i in
           let* control_point := axis_get axis v in
           let* b := py_get nbasis i in
           let* b1 := py_get d1nbasis i in
           let* b2 := py_get d2nbasis i in
           Ok (fadd p (fmul b control_point),
               fadd d1 (fmul b1 control_point),
               fadd d2 (fmul b2 control_point)))
        (range 1 (cp_count + 1)) (f0, f0, f0).

(** [DBSplineMixin.point]: position, first and second derivative. *)
Definition DBSpline_point (c : curve) (t : F)
    : result ((F * F * F) * (F * F * F) * (F * F * F)) :=
  let* mt := max_t c in
  let t := snap mt t in
  let* bs := dbasis c t in
  let* (px, d1x, d2x) := daxis_value bs (_control_points c) (_cp_count c) 0 in
  let* (py, d1y, d2y) := daxis_value bs (_control_points c) (_cp_count c) 1 in
  let* (pz, d1z, d2z) := daxis_value bs (_control_points c) (_cp_count c) 2 in
  Ok ((px, py, pz), (d1x, d1y, d1z), (d2x, d2y, d2z)).

(** What [c.point(t)] returns: a point, or a point with two derivatives. *)
Inductive sample : Type :=
| Position (p : F * F * F)
| WithDerivatives (p d1 d2 : F * F * F).

(** [self.point(t)] as resolved for the class of [c]. *)
Definition point (c : curve) (t : F) : result sample :=
  if derivative (cls c)
  then (let* (p, d1, d2) := DBSpline_point c t in Ok (WithDerivatives p d1 d2))
  else (let* p := BSpline_point c t in Ok (Position p)).

(** ** Notions used to state the properties *)

(** What every constructor establishes. *)
Definition well_formed (c : curve) : Prop :=
  nplusc c = _cp_count c + order c
  /\ length (_control_points c) = _cp_count c + 1.

(** [l[i]] where the index is known to be in range. *)
Definition at_ (l : list F) (i : nat) : F := nth i l f0.

(** [sum(basis[i] * control_points[i][axis] for i in 1..n)] with the
    projection [proj] for the axis. *)
Definition weighted_point_sum (nbasis : list F) (cps : list Vector)
    (proj : Vector -> F) (n : nat) : F :=
  py_sum (map (fun i => fmul (at_ nbasis i) (proj (nth i cps null_vector)))
              (range 1 (n + 1))).

(** [sum(basis[j] * weights[j] for j in 1..n)] *)
Definition weight_sum (nbasis ws : list F) (n : nat) : F :=
  py_sum (map (fun i => fmul (at_ nbasis i) (at_ ws i)) (range 1 (n + 1))).

(** The knots [ks[1] .. ks[len-1]] are non-decreasing (index 0 is the
    placeholder). *)
Fixpoint non_decreasing_from (prev : F) (ks : list F) : bool :=
  match ks with
  | [] => true
  | k :: ks' => fleb prev k && non_decreasing_from k ks'
  end.

Definition non_decreasing (ks : list F) : bool :=
  match ks with
  | _ :: k1 :: ks' => non_decreasing_from k1 ks'
  | _ => true
  end.

(** The list [spacing] of [knot_closed]. *)
Definition spacing_of (control_points : list Vector) : list F :=
  map (fun i => distance (nth (i - 1) control_points null_vector)
                         (nth i control_points null_vector))
      (range 2 (length control_points)).

(** [num / den if v != 0.0 else 0.0], when the division is defined. *)
Definition guarded (v num den : F) : F :=
  if negb (feqb v f0) then fquot num den else f0.

(** The term [d] (or [b1]) of the loop body at level [k = j + 2] and index
    [i], from the value [a] of order [j + 1] at [i]. *)
Definition left_part (ks : list F) (t : F) (j i : nat) (a : F) : F :=
  guarded a (fmul (fsub t (at_ ks i)) a) (fsub (at_ ks (i + j + 1)) (at_ ks i)).

(** The term [e] (or [b2]), from the value [b] of order [j + 1] at [i + 1]. *)
Definition right_part (ks : list F) (t : F) (j i : nat) (b : F) : F :=
  guarded b (fmul (fsub (at_ ks (i + j + 2)) t) b)
          (fsub (at_ ks (i + j + 2)) (at_ ks (i + 1))).

(** The value the recursion stores at index [i] once order [j + 1] is
    reached: the first order test for [j = 0], and for [j = j' + 1] the two
    guarded terms of the loop body at level [k = j' + 2], read off the
    values of order [j' + 1] at [i] and [i + 1]. *)
Fixpoint cox (ks : list F) (t : F) (j i : nat) : F :=
  match j with
  | 0 => if fleb (at_ ks i) t
         then (if fltb t (at_ ks (i + 1)) then f1 else f0)
         else f0
  | S j' =>
      fadd (left_part ks t j' i (cox ks t j' i))
           (right_part ks t j' i (cox ks t j' (i + 1)))
  end.

(** The buffer [nbasis] after the levels up to order [k]: index [i] was last
    written at order [min k (npc - i)]. *)
Definition stage (ks : list F) (t : F) (npc k : nat) : list F :=
  f0 :: map (fun i => cox ks t (Nat.min k (npc - i) - 1) i) (seq 1 (npc - 1)).

(** No guard of the levels up to order [k] lets a zero denominator
    through. *)
Definition spans_nonzero (ks : list F) (t : F) (npc k : nat) : Prop :=
  forall j i, j + 2 <= k -> 1 <= i -> i + j + 2 <= npc ->
    (feqb (cox ks t j i) f0 = false ->
     feqb (fsub (at_ ks (i + j + 1)) (at_ ks i)) f0 = false)
    /\ (feqb (cox ks t j (i + 1)) f0 = false ->
        feqb (fsub (at_ ks (i + j + 2)) (at_ ks (i + 1))) f0 = false).

End Spline.

(** [sum of f i for i in a .. a+m-1] in exact arithmetic. *)
Fixpoint Rsum (f : nat -> R) (a m : nat) : R :=
  match m with
  | 0 => 0%R
  | S m' => (f a + Rsum f (S a) m')%R
  end.

(** The value of the open-uniform knot of index [i]: [k] equal knots, unit
    steps up to index [n + 1], and equal knots from there on. *)
Definition open_uniform_knot (n k i : nat) : R := INR (Nat.min i (n + 1) - k).

(** The coordinates of a vector as the tuple [point] returns. *)
Definition coordinates {F : Type} (v : @Vector F) : F * F * F := (vx v, vy v, vz v).

(** Some span between [knots[i]] and [knots[i+j]] has positive width. *)
Definition has_span (ks : list R) (i j : nat) : Prop :=
  exists l, i <= l < i + j /\ (at_ ks l < at_ ks (l + 1))%R.

(** The entries of [l] at the indices [lo..hi] are zero wherever the knots
    [knots[i] .. knots[i+j]] all coincide. *)
Definition supported (ks l : list R) (j lo hi : nat) : Prop :=
  forall i, lo <= i <= hi -> at_ l i <> 0%R -> has_span ks i j.

(** The same for the three buffers of [dbasis]. *)
Definition supported3 (ks : list R) (st : list R * list R * list R)
    (j lo hi : nat) : Prop :=
  supported ks st.1.1 j lo hi /\ supported ks st.1.2 j lo hi
  /\ supported ks st.2 j lo hi.

Definition lengths3 (st : list R * list R * list R) : nat * nat * nat :=
  (length st.1.1, length st.1.2, length st.2).

(** The three buffers agree at index [i]. *)
Definition agree3 (st st' : list R * list R * list R) (i : nat) : Prop :=
  at_ st'.1.1 i = at_ st.1.1 i /\ at_ st'.1.2 i = at_ st.1.2 i
  /\ at_ st'.2 i = at_ st.2 i.

(** Where [create_nbasis2] forces [nbasis[n] = 1.0], the span
    [knots[n], knots[n+1]] it stands for is not empty. *)
Definition forced_span_nonempty (c : @curve R) (t : R) : Prop :=
  t = at_ (knots c) (if periodic (cls c) then _cp_count c + 1 else nplusc c) ->
  (at_ (knots c) (_cp_count c) < at_ (knots c) (_cp_count c + 1))%R.

(** Any of the six constructors, by class. *)
Definition construct {F : Type} `{Arith F} (v : variant)
    (control_points : list Vector) (ws : list F) (k : nat) : result curve :=
  match v with
  | RBSpline => RBSpline_init control_points ws k
  | RBSplineU => RBSplineU_init control_points ws k
  | _ => BSpline_init v control_points k None
  end.

(** The knots at the indices 1..npc are non-decreasing. *)
Definition sorted_knots (ks : list R) (npc : nat) : Prop :=
  forall i, 1 <= i -> i < npc -> (at_ ks i <= at_ ks (i + 1))%R.

(** ** Rounded arithmetic *)

(** [x] is [y] rounded: [x = y (1 + d)] with a relative error [|d| <= u]. *)
Definition rounded (u x y : R) : Prop :=
  exists d : R, (Rabs d <= u)%R /\ x = (y * (1 + d))%R.

(** The standard model of floating-point arithmetic, for an instance of
    [Arith].  [val] reads a float as a real number; [fin] holds of the floats
    that are numbers; [safe] holds of the exact results that the format
    rounds without overflow and underflow; [u] is the unit roundoff.  An
    operation on numbers whose exact result is safe returns that result
    rounded, and comparisons of numbers are exact.  (For binary64: the
    finite floats, the reals that are 0 or of a magnitude in the normal
    range, and [u = 2^-53]; the real numbers follow the model with
    [u = 0].) *)
Record rounding_model {F : Type} `{Arith F} (val : F -> R) (fin : F -> Prop)
    (safe : R -> Prop) (u : R) : Prop := {
  unit_roundoff : (0 <= u < 1)%R;
  fin_f0 : fin f0;
  val_f0 : val f0 = 0%R;
  fin_f1 : fin f1;
  val_f1 : val f1 = 1%R;
  fin_int0 : fin (of_Z 0);
  val_int0 : val (of_Z 0) = 0%R;
  add_rounded : forall x y, fin x -> fin y -> safe (val x + val y)%R ->
    fin (fadd x y) /\ rounded u (val (fadd x y)) (val x + val y);
  sub_rounded : forall x y, fin x -> fin y -> safe (val x - val y)%R ->
    fin (fsub x y) /\ rounded u (val (fsub x y)) (val x - val y);
  mul_rounded : forall x y, fin x -> fin y -> safe (val x * val y)%R ->
    fin (fmul x y) /\ rounded u (val (fmul x y)) (val x * val y);
  div_rounded : forall x y, fin x -> fin y -> val y <> 0%R ->
    safe (val x / val y)%R ->
    fin (fquot x y) /\ rounded u (val (fquot x y)) (val x / val y);
  eqb_exact : forall x y, fin x -> fin y -> (feqb x y = true <-> val x = val y);
  ltb_exact : forall x y, fin x -> fin y -> (fltb x y = true <-> (val x < val y)%R);
  leb_exact : forall x y, fin x -> fin y -> (fleb x y = true <-> (val x <= val y)%R)
}.

Section Rounding.

Context {F : Type} `{Arith F}.
Variable val : F -> R.
Variable safe : R -> Prop.

(** The exact results of the four operations of [((p - q) * v) / (hi - lo)]
    are safe. *)
Definition term_safe (p q lo hi v : F) : Prop :=
  safe (val p - val q)%R
  /\ safe (val (fsub p q) * val v)%R
  /\ safe (val hi - val lo)%R
  /\ safe (val (fmul (fsub p q) v) / val (fsub hi lo))%R.

(** The exact results of all operations of the loops of [BSpline.basis] up
    to order [k] are safe: at the level that takes the values [cox ks t j]
    of order [j + 1] to order [j + 2], the operations of [d] and of [e],
    where their guards pass, and the addition [d + e]. *)
Definition ops_safe (ks : list F) (t : F) (npc k : nat) : Prop :=
  forall j i, j + 2 <= k -> 1 <= i -> i + j + 2 <= npc ->
    (feqb (cox ks t j i) f0 = false ->
     term_safe t (at_ ks i) (at_ ks i) (at_ ks (i + j + 1)) (cox ks t j i))
    /\ (feqb (cox ks t j (i + 1)) f0 = false ->
        term_safe (at_ ks (i + j + 2)) t (at_ ks (i + 1)) (at_ ks (i + j + 2))
                  (cox ks t j (i + 1)))
    /\ safe (val (left_part ks t j i (cox ks t j i))
             + val (right_part ks t j i (cox ks t j (i + 1))))%R.

(** The exact results of the additions of [sum(xs)], started from [acc],
    are safe. *)
Fixpoint sum_safe (xs : list F) (acc : F) : Prop :=
  match xs with
  | [] => True
  | x :: xs' => safe (val acc + val x)%R /\ sum_safe xs' (fadd acc x)
  end.

End Rounding.

(** The largest factor that [m] roundings of relative error at most [u] put
    on a result: [((1 + u) / (1 - u)) ^ m], which is [1 + 2 m u] up to terms
    in [u^2]. *)
Definition drift (u : R) (m : nat) : R := (((1 + u) / (1 - u)) ^ m)%R.

(** [x] is [y] up to [m] roundings. *)
Definition near (u : R) (m : nat) (x y : R) : Prop :=
  exists f : R, (/ drift u m <= f <= drift u m)%R /\ x = (y * f)%R.

(** ** Sampling, and the read-only properties of a curve *)

Section Sampling.

Context {F : Type} `{Arith F}.

(** The [control_points] property: the array without its placeholder. *)
Definition control_points (c : @curve F) : list (@Vector F) := drop 1 (_control_points c).

(** The [count] property. *)
Definition count (c : @curve F) : nat := _cp_count c.

(** [self._step_size(segments)] as resolved for the class of [c]:
    [max_t / float(segments)], and for the classes deriving from [BSplineU]
    [float(cp_count - order + 1) / segments], an int that can be negative. *)
Definition _step_size (c : @curve F) (segments : nat) : result F :=
  if periodic (cls c)
  then py_div (of_Z (Z.of_nat (_cp_count c) - Z.of_nat (order c) + 1)%Z)
              (of_Z (Z.of_nat segments))
  else (let* mt := max_t c in py_div mt (of_Z (Z.of_nat segments))).

(** The parameter of the sample of index [point_index]:
    [point_index * step], behind [base = float(order - 1)] for the classes
    deriving from [BSplineU]. *)
Definition sample_parameter (c : @curve F) (step : F) (point_index : nat) : F :=
  if periodic (cls c)
  then fadd (of_Z (Z.of_nat (order c) - 1)%Z)
            (fmul (of_Z (Z.of_nat point_index)) step)
  else fmul (of_Z (Z.of_nat point_index)) step.

(** [list(c.approximate(segments))]: the generator run to its end.  The step
    is computed when the first sample is asked for; an exception of a sample
    ends the generator. *)
Definition approximate (c : @curve F) (segments : nat) : result (list (@sample F)) :=
  let* step := _step_size c segments in
  mapM (fun point_index => point c (sample_parameter c step point_index))
       (range 0 (segments + 1)).

(** [0.0 + 1.0 + ... + 1.0], with [c] additions. *)
Definition unit_steps (c : nat) : F := Nat.iter c (fun x => fadd x f1) f0.

(** The knot appended by the iteration [i] of [knot_closed]. *)
Definition closed_knot (spacing : list F) (maxc : F) (m : Z) (i : nat) : F :=
  fmul (fquot (fadd (fmul (fquot (of_Z (Z.of_nat i)) (of_Z m)) (at_ spacing i))
                    (py_sum (take i spacing)))
              maxc)
       (of_Z m).

(** The class a derivative class adds [DBSplineMixin] to. *)
Definition plain_class (v : variant) : variant :=
  match v with
  | DBSpline => BSpline
  | DBSplineU => BSplineU
  | _ => v
  end.

(** The same attributes on an object of class [v]. *)
Definition as_class (v : variant) (c : @curve F) : @curve F :=
  mkCurve v (_control_points c) (_cp_count c) (order c) (nplusc c) (knots c)
          (weights c).

(** The index of the knot [create_nbasis2] compares [t] with. *)
Definition fixup_index (c : @curve F) : nat :=
  if periodic (cls c) then _cp_count c + 1 else nplusc c.

End Sampling.

(** ** Text content ([ezdxf/entities/text.py]) *)

Section Text.

(** The dict [SPECIAL_CHARS_ENCODING] of [ezdxf/lldxf/const.py] (imported, not
    part of the module), as its [get]: the replacement of a formatting code,
    if it has one. *)
Variable SPECIAL_CHARS_ENCODING : ascii -> option (list ascii).

Definition LF : ascii := "010"%char.
Definition CR : ascii := "013"%char.
Definition percent : ascii := "%"%char.

(** [t.replace(old, '')] for a one-character [old]. *)
Definition remove_char (old : ascii) (t : list ascii) : list ascii :=
  List.filter (fun c => negb (Ascii.eqb c old)) t.

(** [safe_text] *)
Definition safe_text (t : list ascii) : list ascii :=
  remove_char CR (remove_char LF t).

(** The [while] loop of [plain_text].  [raw_chars] is the reversed text used
    as a stack: it is modelled with its top, the next character of the text,
    at the head.  [chars] collects the pieces to join. *)
Fixpoint plain_text_loop (raw_chars : list ascii) (chars : list (list ascii))
    : list (list ascii) :=
  match raw_chars with
  | [] => chars
  | char :: rest =>
      if Ascii.eqb char percent
      then match rest with
           | next :: rest' =>
               if Ascii.eqb next percent
               then match rest' with
                    | special_char :: rest'' =>
                        plain_text_loop rest''
                          (chars ++ [default [] (SPECIAL_CHARS_ENCODING special_char)])
                    | [] => chars
                    end
               else plain_text_loop rest (chars ++ [[char]])
           | [] => plain_text_loop rest (chars ++ [[char]])
           end
      else plain_text_loop rest (chars ++ [[char]])
  end.

(** [plain_text] *)
Definition plain_text (text : list ascii) : list ascii :=
  concat (plain_text_loop (safe_text text) []).

End Text.

(** ** The fall-back [Backend.draw_path] ([ezdxf/addons/drawing/backend.py]) *)

Section Backend.

(** The type of a vertex. *)
Context {V : Type}.

(** What a call of [draw_path] does: the calls of [draw_line] it makes, in
    order, or the [StopIteration] of [next(vertices)]. *)
Inductive drawing : Type :=
| Lines (calls : list (V * V))
| StopIteration.

(** The [for vertex in vertices] loop. *)
Fixpoint draw_segments (prev : V) (vertices : list V) (calls : list (V * V))
    : list (V * V) :=
  match vertices with
  | [] => calls
  | vertex :: vertices' => draw_segments vertex vertices' (calls ++ [(prev, vertex)])
  end.

(** [Backend.draw_path].  [path_len] is [len(path)] and [vertices] what
    [path.approximate(segments=self.bezier_approximation_count)] yields: both
    belong to [ezdxf/render/path.py], which is not part of the module. *)
Definition draw_path (path_len : nat) (vertices : list V) : drawing :=
  if path_len =? 0 then Lines []
  else match vertices with
       | [] => StopIteration
       | prev :: vertices' => Lines (draw_segments prev vertices' [])
       end.

End Backend.

(** * Properties *)

(** ** The error monad and the list primitives *)

Lemma bind_Ok {A B} (m : result A) (k : A -> result B) (b : B) :
  bind m k = Ok b -> exists a, m = Ok a /\ k a = Ok b.
Proof. destruct m as [a|e]; simpl; [eauto | discriminate]. Qed.

Lemma py_get_Ok {A} (l : list A) (i : nat) (x : A) :
  py_get l i = Ok x <-> l !! i = Some x.
Proof.
  unfold py_get. destruct (l !! i) eqn:E; split; intros Hx;
    try discriminate; congruence.
Qed.

Lemma py_get_lt {A} (l : list A) (i : nat) :
  i < length l -> exists x, py_get l i = Ok x /\ l !! i = Some x.
Proof.
  intros Hi. destruct (lookup_lt_is_Some_2 l i Hi) as [x Hx].
  exists x. split; [by apply py_get_Ok | done].
Qed.

Lemma py_get_ge {A} (l : list A) (i : nat) :
  length l <= i -> py_get l i = Raise IndexError.
Proof. intros Hi. unfold py_get. by rewrite lookup_ge_None_2. Qed.

Lemma py_set_lt {A} (l : list A) (i : nat) (v : A) :
  i < length l -> py_set l i v = Ok (<[i:=v]> l).
Proof. intros Hi. unfold py_set. by rewrite decide_True. Qed.

Lemma py_set_Ok {A} (l l' : list A) (i : nat) (v : A) :
  py_set l i v = Ok l' -> i < length l /\ l' = <[i:=v]> l.
Proof.
  unfold py_set. destruct (decide (i < length l)); [|discriminate].
  intros [= <-]. done.
Qed.

Lemma length_range (a b : nat) : length (range a b) = b - a.
Proof. unfold range. apply length_seq. Qed.

Lemma mapM_total {A B} (f : A -> result B) (g : A -> B) (l : list A) :
  (forall a, a ∈ l -> f a = Ok (g a)) -> mapM f l = Ok (map g l).
Proof.
  induction l as [|a l IH]; intros Hf; simpl; [done|].
  rewrite Hf by left. simpl. rewrite IH; [done|].
  intros a' Ha'. apply Hf. by right.
Qed.

Lemma mapM_Ok_length {A B} (f : A -> result B) (l : list A) (bs : list B) :
  mapM f l = Ok bs -> length bs = length l.
Proof.
  revert bs. induction l as [|a l IH]; simpl; intros bs Hm.
  - by inversion Hm.
  - apply bind_Ok in Hm as (b & _ & Hm). apply bind_Ok in Hm as (bs' & Hbs' & Hm).
    inversion Hm; subst. simpl. f_equal. by apply IH.
Qed.

Lemma mapM_Ok_lookup {A B} (f : A -> result B) (l : list A) (bs : list B) i a :
  mapM f l = Ok bs -> l !! i = Some a ->
  exists b, bs !! i = Some b /\ f a = Ok b.
Proof.
  revert bs i. induction l as [|a0 l IH]; simpl; intros bs i Hm Hi; [done|].
  apply bind_Ok in Hm as (b & Hb & Hm). apply bind_Ok in Hm as (bs' & Hbs' & Hm).
  inversion Hm; subst. destruct i as [|i]; simpl in *.
  - inversion Hi; subst. eauto.
  - eauto.
Qed.

(** ** Knot vector builders *)

Section KnotFacts.

Context {F : Type} `{Arith F}.

Lemma open_uniform_loop (n order m a : nat) (x : list F) :
  length x = a -> 1 <= a ->
  exists x',
    foldM (fun i x =>
             let* prev := py_get x (i - 1) in
             if (order <? i) && (i <? n + 2)
             then Ok (x ++ [fadd prev f1])
             else Ok (x ++ [prev]))
          (seq a m) x = Ok x'
    /\ length x' = a + m.
Proof.
  revert a x. induction m as [|m IH]; intros a x Hlen Ha; simpl.
  - exists x. split; [done | lia].
  - destruct (py_get_lt x (a - 1)) as (prev & -> & _); [lia|]. simpl.
    destruct ((order <? a) && (a <? n + 2)); simpl.
    + destruct (IH (S a) (x ++ [fadd prev f1])) as (x' & Hx' & Hl);
        [rewrite length_app; simpl; lia | lia |].
      exists x'. split; [done | lia].
    + destruct (IH (S a) (x ++ [prev])) as (x' & Hx' & Hl);
        [rewrite length_app; simpl; lia | lia |].
      exists x'. split; [done | lia].
Qed.

(** [knot_open_uniform] never raises; it returns the two initial entries
    and one knot per index 2..n+order. *)
Lemma knot_open_uniform_total (n order : nat) :
  exists x : list F,
    knot_open_uniform n order = Ok x /\ length x = 2 + (n + order + 1 - 2).
Proof.
  unfold knot_open_uniform, range.
  destruct (open_uniform_loop n order (n + order + 1 - 2) 2 [f0; f0])
    as (x & Hx & Hl); [done | lia |].
  exists x. split; [done | lia].
Qed.

Lemma knot_uniform_total (n order : nat) :
  exists x : list F,
    knot_uniform n order = Ok x /\ length x = 2 + (n + order - 1).
Proof.
  unfold knot_uniform. eexists. split; [done|].
  rewrite length_app, length_map, length_range. simpl. lia.
Qed.

Lemma _knots_total (v : variant) (n order : nat) :
  exists x : list F, _knots v n order = Ok x /\ n + order + 1 <= length x.
Proof.
  unfold _knots. destruct (periodic v).
  - destruct (knot_uniform_total n order) as (x & Hx & Hl). exists x.
    split; [done | lia].
  - destruct (knot_open_uniform_total n order) as (x & Hx & Hl). exists x.
    split; [done | lia].
Qed.

End KnotFacts.

(** ** Construction *)

Section Construction.

Context {F : Type} `{Arith F}.

(** [BSpline.__init__] has no failing path, whatever the point count and
    the order. *)
Lemma BSpline_init_total (v : variant) (cps : list Vector) (k : nat)
    (ko : option (list F)) :
  exists ks,
    BSpline_init v cps k ko
      = Ok (mkCurve v (one_based_array null_vector cps) (length cps) k
                    (length cps + k) ks [])
    /\ match ko with
       | Some ks' => ks = ks'
       | None => _knots v (length cps) k = Ok ks /\ length cps + k + 1 <= length ks
       end.
Proof.
  unfold BSpline_init. destruct ko as [ks'|]; simpl.
  - exists ks'. done.
  - destruct (_knots_total v (length cps) k) as (ks & Hks & Hl).
    exists ks. rewrite Hks. simpl. done.
Qed.

(** [RBSpline.__init__] compares the two counts before anything else. *)
Lemma RBSpline_init_checks (cps : list Vector) (ws : list F) (k : nat) :
  (length cps <> length ws -> RBSpline_init cps ws k = Raise ValueError)
  /\ (length cps = length ws ->
      exists c, RBSpline_init cps ws k = Ok c
                /\ weights c = one_based_array f0 ws
                /\ length (weights c) = _cp_count c + 1).
Proof.
  unfold RBSpline_init. split; intros Hl.
  - apply Nat.eqb_neq in Hl. by rewrite Hl.
  - rewrite Hl, Nat.eqb_refl. simpl.
    destruct (BSpline_init_total RBSpline cps k None) as (ks & -> & _). simpl.
    eexists. split; [done|]. simpl. split; [done | lia].
Qed.

(** [RBSplineU.__init__] has no failing path: the counts are not compared. *)
Lemma RBSplineU_init_total (cps : list Vector) (ws : list F) (k : nat) :
  exists c, RBSplineU_init cps ws k = Ok c
            /\ _cp_count c = length cps
            /\ weights c = one_based_array f0 ws.
Proof.
  unfold RBSplineU_init.
  destruct (BSpline_init_total RBSplineU cps k None) as (ks & -> & _). simpl.
  eexists. done.
Qed.

End Construction.

(** C1 (defect in [RBSplineU.__init__]).  [RBSpline] rejects three control
    points with two weights, but [RBSplineU] accepts them: construction
    succeeds and stores a weight array with an entry for two of the three
    control points only. *)
Theorem RBSplineU_init_accepts_count_mismatch :
  let cps := [mkVector 0 0 0; mkVector 1 1 0; mkVector 2 0 0]%float in
  let ws := [1; 1]%float in
  length cps <> length ws
  /\ RBSpline_init cps ws 3 = Raise ValueError
  /\ RBSplineU_init cps ws 3
     = Ok (mkCurve RBSplineU (null_vector :: cps) 3 3 6
                   [0; 0; 1; 2; 3; 4; 5]%float [0; 1; 1]%float).
Proof. vm_compute. split; [lia | split; reflexivity]. Qed.

(** C2 (counterexample).  One control point and order 4: the constructor
    returns a curve, it does not raise. *)
Lemma BSpline_init_below_order :
  1 < 4
  /\ BSpline_init BSpline [mkVector 1 2 3]%float 4 None
     = Ok (mkCurve BSpline [null_vector; mkVector 1 2 3]%float 1 4 5
                   [0; 0; 0; 0; 0; 0]%float []).
Proof. split; [lia | vm_compute; reflexivity]. Qed.

(** C2 (amended).  Constructing a curve of any of the classes sharing
    [BSpline.__init__] never raises, whatever the number of control points
    and the order (also when the count is below the order): the curve holds
    the control points behind the placeholder, their count, the order,
    [nplusc = count + order] and, by default, a knot vector covering the
    indices 0..nplusc. *)
Theorem BSpline_init_never_raises {F : Type} `{Arith F} (v : variant)
    (cps : list Vector) (k : nat) (ko : option (list F)) :
  exists c,
    BSpline_init v cps k ko = Ok c
    /\ cls c = v
    /\ _control_points c = one_based_array null_vector cps
    /\ _cp_count c = length cps
    /\ order c = k
    /\ nplusc c = length cps + k
    /\ (ko = None -> nplusc c + 1 <= length (knots c)).
Proof.
  destruct (BSpline_init_total v cps k ko) as (ks & Hc & Hks).
  eexists. split; [exact Hc|]. simpl. repeat split.
  intros ->. destruct Hks as [_ Hl]. lia.
Qed.

(** ** Evaluation: shapes and exceptions *)

Section EvaluationFacts.

Context {F : Type} `{Arith F}.

Lemma at_lookup (l : list F) (i : nat) (x : F) : l !! i = Some x -> at_ l i = x.
Proof. intros Hx. unfold at_. by rewrite nth_lookup, Hx. Qed.

Lemma py_get_at (l : list F) (i : nat) :
  i < length l -> py_get l i = Ok (at_ l i).
Proof.
  intros Hi. destruct (py_get_lt l i Hi) as (x & -> & Hx).
  by rewrite (at_lookup _ _ _ Hx).
Qed.

Lemma py_get_nth_vector (l : list (@Vector F)) (i : nat) :
  i < length l -> py_get l i = Ok (nth i l null_vector).
Proof.
  intros Hi. destruct (py_get_lt l i Hi) as (x & -> & Hx).
  by rewrite nth_lookup, Hx.
Qed.

Lemma elem_of_range (a b i : nat) : i ∈ range a b <-> a <= i < b.
Proof. unfold range. rewrite elem_of_seq. lia. Qed.

Lemma foldM_invariant {S A} (P : S -> Prop) (f : A -> S -> result S) (l : list A) :
  (forall a s s', a ∈ l -> P s -> f a s = Ok s' -> P s') ->
  forall s s', P s -> foldM f l s = Ok s' -> P s'.
Proof.
  induction l as [|a l IH]; intros Hf s s' Hs Hfold; simpl in Hfold.
  - by inversion Hfold; subst.
  - apply bind_Ok in Hfold as (s1 & Hs1 & Hfold).
    eapply (IH (fun a' s0 s0' Ha' => Hf a' s0 s0' (list_elem_of_further _ _ _ Ha')));
      [|exact Hfold].
    eapply Hf; [left | exact Hs | exact Hs1].
Qed.

Lemma create_nbasis_length (c : curve) (t : F) (nb : list F) :
  create_nbasis c t = Ok nb -> length nb = 1 + (nplusc c - 1).
Proof.
  unfold create_nbasis. intros Hc. apply bind_Ok in Hc as (firsts & Hf & Hc).
  inversion Hc; subst. apply mapM_Ok_length in Hf. rewrite length_range in Hf.
  simpl. lia.
Qed.

Lemma basis_step_length (ks : list F) (t : F) (k i : nat) (nb nb' : list F) :
  basis_step ks t k i nb = Ok nb' -> length nb' = length nb.
Proof.
  unfold basis_step. intros Hs.
  apply bind_Ok in Hs as (bi & _ & Hs). apply bind_Ok in Hs as (d & _ & Hs).
  apply bind_Ok in Hs as (bi1 & _ & Hs). apply bind_Ok in Hs as (e & _ & Hs).
  apply py_set_Ok in Hs as [_ ->]. apply length_insert.
Qed.

Lemma basis_level_length (ks : list F) (t : F) (npc k : nat) (nb nb' : list F) :
  basis_level ks t npc k nb = Ok nb' -> length nb' = length nb.
Proof.
  unfold basis_level.
  apply (foldM_invariant (fun s => length s = length nb)); [|done].
  intros i s s' _ Hs Hstep. rewrite <- Hs. by eapply basis_step_length.
Qed.

Lemma basis_recursion_length (c : curve) (t : F) (nb : list F) :
  basis_recursion c t = Ok nb -> length nb = 1 + (nplusc c - 1).
Proof.
  unfold basis_recursion. intros Hr. apply bind_Ok in Hr as (nb0 & Hnb0 & Hr).
  apply create_nbasis_length in Hnb0. rewrite <- Hnb0.
  revert Hr. apply (foldM_invariant (fun s => length s = length nb0)); [|done].
  intros k s s' _ Hs Hl. rewrite <- Hs. by eapply basis_level_length.
Qed.

Lemma BSpline_basis_length (c : curve) (t : F) (nb : list F) :
  BSpline_basis c t = Ok nb -> length nb = 1 + (nplusc c - 1).
Proof.
  unfold BSpline_basis. intros Hb. apply bind_Ok in Hb as (nb0 & Hnb0 & Hb).
  apply bind_Ok in Hb as (last & _ & Hb).
  apply basis_recursion_length in Hnb0.
  destruct (feqb t last).
  - apply py_set_Ok in Hb as [_ ->]. by rewrite length_insert.
  - by inversion Hb; subst.
Qed.

Lemma weighting_length (nb ws : list F) (npts : nat) (r : list F) :
  weighting nb ws npts = Ok r -> length r = npts + 1.
Proof.
  unfold weighting. intros Hw. apply bind_Ok in Hw as (products & _ & Hw).
  destruct (feqb (py_sum products) f0).
  - inversion Hw; subst. by rewrite repeat_length.
  - apply bind_Ok in Hw as (r0 & Hr0 & Hw). inversion Hw; subst.
    apply mapM_Ok_length in Hr0. rewrite length_range in Hr0.
    unfold one_based_array. simpl. lia.
Qed.

(** The length of what [basis] returns, per class. *)
Lemma basis_length (c : curve) (t : F) (nb : list F) :
  basis c t = Ok nb ->
  length nb = if rational (cls c) then _cp_count c + 1 else 1 + (nplusc c - 1).
Proof.
  unfold basis. destruct (rational (cls c)); intros Hb.
  - apply bind_Ok in Hb as (nb0 & _ & Hb). by eapply weighting_length.
  - by apply (BSpline_basis_length c t).
Qed.

Lemma axis_value_total (nb : list F) (cps : list Vector) (n axis : nat)
    (proj : Vector -> F) :
  n < length nb -> n < length cps ->
  (forall v, axis_get axis v = Ok (proj v)) ->
  axis_value nb cps (n + 1) axis = Ok (weighted_point_sum nb cps proj n).
Proof.
  intros Hnb Hcps Hax. unfold axis_value, weighted_point_sum.
  rewrite (mapM_total _
    (fun i => fmul (at_ nb i) (proj (nth i cps null_vector)))); [done|].
  intros i Hi. apply elem_of_range in Hi.
  rewrite py_get_at by lia. simpl. rewrite py_get_nth_vector by lia. simpl.
  by rewrite Hax.
Qed.

(** What [BSpline.point] computes from the basis vector at the snapped
    parameter. *)
Lemma BSpline_point_sum (c : curve) (t mt : F) (nb : list F) :
  max_t c = Ok mt ->
  basis c (snap mt t) = Ok nb ->
  _cp_count c < length nb ->
  _cp_count c < length (_control_points c) ->
  BSpline_point c t
  = Ok (weighted_point_sum nb (_control_points c) vx (_cp_count c),
        weighted_point_sum nb (_control_points c) vy (_cp_count c),
        weighted_point_sum nb (_control_points c) vz (_cp_count c)).
Proof.
  intros Hmt Hb Hnb Hcps. unfold BSpline_point. rewrite Hmt. simpl.
  rewrite Hb. simpl.
  rewrite (axis_value_total nb _ _ 0 vx) by done. simpl.
  rewrite (axis_value_total nb _ _ 1 vy) by done. simpl.
  rewrite (axis_value_total nb _ _ 2 vz) by done. done.
Qed.

End EvaluationFacts.

(** C3 (counterexample).  Three control points, order 2: the basis vector
    has 5 = n + k entries, not 4 = n + 1. *)
Lemma basis_length_not_n_plus_1 :
  exists c nb,
    BSpline_init BSpline [mkVector 0 0 0; mkVector 1 1 0; mkVector 2 0 0]%float 2 None
      = Ok c
    /\ basis c 0.5%float = Ok nb
    /\ nb = [0; 0.5; 0.5; 0; 0]%float
    /\ length nb <> _cp_count c + 1.
Proof.
  eexists. eexists. split; [vm_compute; reflexivity|].
  split; [vm_compute; reflexivity|]. split; [reflexivity|]. simpl. lia.
Qed.

(** C3 (amended).  For a curve with n control points and order k >= 1, the
    basis vector returned at any parameter has n + k entries for the
    non-rational classes (index 0 a placeholder, the entries above n left
    over from the lower orders) and n + 1 entries for the rational classes;
    [point(t)] of the classes using [BSpline.point] is the sum of
    [basis[i] * control_points[i]] over i = 1..n, per axis, for the basis
    vector at the snapped parameter. *)
Theorem basis_length_and_point_sum {F : Type} `{Arith F} (c : curve) (t mt : F) :
  well_formed c ->
  1 <= order c ->
  max_t c = Ok mt ->
  (forall t0 nb0,
      basis c t0 = Ok nb0 ->
      length nb0 = (if rational (cls c) then _cp_count c + 1
                    else _cp_count c + order c))
  /\ (forall nb,
        derivative (cls c) = false ->
        basis c (snap mt t) = Ok nb ->
        point c t
        = Ok (Position
                (weighted_point_sum nb (_control_points c) vx (_cp_count c),
                 weighted_point_sum nb (_control_points c) vy (_cp_count c),
                 weighted_point_sum nb (_control_points c) vz (_cp_count c)))).
Proof.
  intros [Hnpc Hcps] Hk Hmt.
  assert (forall t0 nb0,
             basis c t0 = Ok nb0 ->
             length nb0 = if rational (cls c) then _cp_count c + 1
                          else _cp_count c + order c) as Hlen.
  { intros t0 nb0 Hb. rewrite (basis_length c t0 nb0 Hb).
    destruct (rational (cls c)); lia. }
  split; [exact Hlen|].
  intros nb Hd Hb. unfold point. rewrite Hd.
  rewrite (BSpline_point_sum c t mt nb Hmt Hb); [done| |lia].
  rewrite (Hlen _ _ Hb). destruct (rational (cls c)); lia.
Qed.

(** A quadratic open curve on three points, sampled at its middle. *)
Lemma basis_length_and_point_sum_witness :
  let c := mkCurve BSpline
             [null_vector; mkVector 0 0 0; mkVector 1 1 0; mkVector 2 0 0]%float
             3 3 6 [0; 0; 0; 0; 1; 1; 1]%float [] in
  let nb := [0; 0.25; 0.5; 0.25; 0; 0]%float in
  length nb = 6
  /\ point c 0.5%float
     = Ok (Position
             (weighted_point_sum nb (_control_points c) vx 3,
              weighted_point_sum nb (_control_points c) vy 3,
              weighted_point_sum nb (_control_points c) vz 3)).
Proof.
  intros c nb.
  destruct (basis_length_and_point_sum c 0.5%float 1%float) as [Hl Hp].
  - split; reflexivity.
  - simpl. lia.
  - reflexivity.
  - split.
    + apply (Hl 0.5%float). vm_compute. reflexivity.
    + apply Hp; [reflexivity | vm_compute; reflexivity].
Defined.

(** ** The fix-up at the right end *)

Section EndFixup.

Context {F : Type} `{Arith F}.

Lemma first_order_total (ks : list F) (t : F) (i : nat) :
  i + 1 < length ks ->
  first_order ks t i
  = Ok (if fleb (at_ ks i) t then (if fltb t (at_ ks (i + 1)) then f1 else f0)
        else f0).
Proof.
  intros Hi. unfold first_order. rewrite py_get_at by lia. simpl.
  destruct (fleb (at_ ks i) t); [|done].
  rewrite py_get_at by lia. done.
Qed.

Lemma create_nbasis_total (c : curve) (t : F) :
  nplusc c + 1 <= length (knots c) ->
  exists nb, create_nbasis c t = Ok nb /\ length nb = 1 + (nplusc c - 1).
Proof.
  intros Hl. unfold create_nbasis.
  rewrite (mapM_total _
    (fun i => if fleb (at_ (knots c) i) t
              then (if fltb t (at_ (knots c) (i + 1)) then f1 else f0)
              else f0)).
  - simpl. eexists. split; [done|]. simpl.
    rewrite length_map, length_range. lia.
  - intros i Hi. apply elem_of_range in Hi. apply first_order_total. lia.
Qed.

Lemma create_nbasis2_open (c : curve) (t : F) :
  periodic (cls c) = false ->
  nplusc c = _cp_count c + order c -> 1 <= order c ->
  nplusc c + 1 <= length (knots c) ->
  feqb t (at_ (knots c) (nplusc c)) = true ->
  exists nb, create_nbasis2 c t = Ok nb /\ nb !! _cp_count c = Some f1.
Proof.
  intros Hp Hnpc Hk Hl Heq. unfold create_nbasis2. rewrite Hp.
  destruct (create_nbasis_total c t Hl) as (nb & -> & Hnb). simpl.
  rewrite py_get_at by lia. simpl. rewrite Heq.
  rewrite py_set_lt by lia. eexists. split; [done|].
  apply list_lookup_insert_eq. lia.
Qed.

Lemma create_nbasis2_periodic (c : curve) (t : F) :
  periodic (cls c) = true ->
  nplusc c = _cp_count c + order c -> 2 <= order c ->
  nplusc c + 1 <= length (knots c) ->
  feqb t (at_ (knots c) (_cp_count c + 1)) = true ->
  exists nb, create_nbasis2 c t = Ok nb
             /\ nb !! _cp_count c = Some f1
             /\ nb !! (_cp_count c + 1) = Some f0.
Proof.
  intros Hp Hnpc Hk Hl Heq. unfold create_nbasis2. rewrite Hp.
  destruct (create_nbasis_total c t Hl) as (nb & -> & Hnb). simpl.
  rewrite py_get_at by lia. simpl. rewrite Heq.
  rewrite py_set_lt by lia. simpl.
  rewrite py_set_lt by (rewrite length_insert; lia).
  eexists. split; [done|]. split.
  - rewrite list_lookup_insert_ne by lia. apply list_lookup_insert_eq. lia.
  - apply list_lookup_insert_eq. rewrite length_insert. lia.
Qed.

(** At order 1 the buffer has the indices 0..n only: the second assignment
    of [DBSplineU.create_nbasis2] is out of range. *)
Lemma create_nbasis2_periodic_order_1 (c : curve) (t : F) :
  periodic (cls c) = true ->
  nplusc c = _cp_count c + order c -> order c = 1 ->
  nplusc c + 1 <= length (knots c) ->
  feqb t (at_ (knots c) (_cp_count c + 1)) = true ->
  create_nbasis2 c t = Raise IndexError.
Proof.
  intros Hp Hnpc Hk Hl Heq. unfold create_nbasis2. rewrite Hp.
  destruct (create_nbasis_total c t Hl) as (nb & -> & Hnb). simpl.
  rewrite py_get_at by lia. simpl. rewrite Heq.
  rewrite py_set_lt by lia. simpl.
  unfold py_set. rewrite decide_False; [done|]. rewrite length_insert. lia.
Qed.

Lemma BSpline_basis_fixup (c : curve) (t : F) (nb0 : list F) :
  nplusc c = _cp_count c + order c -> 1 <= order c ->
  nplusc c + 1 <= length (knots c) ->
  basis_recursion c t = Ok nb0 ->
  feqb t (at_ (knots c) (nplusc c)) = true ->
  BSpline_basis c t = Ok (<[_cp_count c := f1]> nb0)
  /\ <[_cp_count c := f1]> nb0 !! _cp_count c = Some f1.
Proof.
  intros Hnpc Hk Hl Hr Heq. unfold BSpline_basis. rewrite Hr. simpl.
  apply basis_recursion_length in Hr.
  rewrite py_get_at by lia. simpl. rewrite Heq.
  rewrite py_set_lt by lia. split; [done|].
  apply list_lookup_insert_eq. lia.
Qed.

End EndFixup.

(** C4 (counterexample).  The periodic class inherits [BSpline.basis], whose
    test is against [knots[nplusc]], not against its [max_t = n].  With three
    control points, at [t = max_t = 3.0]: for order 3, [basis[n]] is 0.5;
    for order 2, [basis[n+1]] is 1.0.  In the derivative form of the
    periodic class the forced 1.0 is the first order value only: for order
    3, [dbasis] returns [nbasis[n] = 0.5]. *)
Lemma periodic_basis_not_forced :
  (exists c nb,
     BSpline_init BSplineU [mkVector 0 0 0; mkVector 1 1 0; mkVector 2 0 0]%float 3 None
       = Ok c
     /\ max_t c = Ok 3%float
     /\ basis c 3%float = Ok nb
     /\ nb !! _cp_count c = Some 0.5%float)
  /\ (exists c nb,
     BSpline_init BSplineU [mkVector 0 0 0; mkVector 1 1 0; mkVector 2 0 0]%float 2 None
       = Ok c
     /\ max_t c = Ok 3%float
     /\ basis c 3%float = Ok nb
     /\ nb !! (_cp_count c + 1) = Some 1%float)
  /\ (exists c nb d1 d2,
     BSpline_init DBSplineU [mkVector 0 0 0; mkVector 1 1 0; mkVector 2 0 0]%float 3 None
       = Ok c
     /\ max_t c = Ok 3%float
     /\ dbasis c 3%float = Ok (nb, d1, d2)
     /\ nb !! _cp_count c = Some 0.5%float).
Proof.
  split; [|split].
  - eexists. eexists. split; [vm_compute; reflexivity|].
    split; [vm_compute; reflexivity|]. split; [vm_compute; reflexivity|].
    reflexivity.
  - eexists. eexists. split; [vm_compute; reflexivity|].
    split; [vm_compute; reflexivity|]. split; [vm_compute; reflexivity|].
    reflexivity.
  - eexists. eexists. eexists. eexists. split; [vm_compute; reflexivity|].
    split; [vm_compute; reflexivity|]. split; [vm_compute; reflexivity|].
    reflexivity.
Qed.

(** C4 (amended).  With knots covering the indices 0..nplusc and order
    k >= 1: (1) [BSpline.basis], the value form of every class, ends by
    setting [basis[n] = 1.0] when [t == knots[nplusc]], which is [max_t] of
    the open classes; nothing is set for [basis[n+1]].  (2) In the
    derivative form the fix-up is made on the first order basis, before the
    recursion: [DBSpline.create_nbasis2] sets [nbasis[n] = 1.0] when
    [t == knots[nplusc]].  (3) When [t == knots[n+1]],
    [DBSplineU.create_nbasis2] sets [nbasis[n] = 1.0] and
    [nbasis[n+1] = 0.0] for every order k >= 2; for order 1 the buffer ends
    at index n and the assignment to [nbasis[n+1]] raises [IndexError]. *)
Theorem right_end_fixup {F : Type} `{Arith F} (c : curve) (t : F) :
  well_formed c ->
  1 <= order c ->
  nplusc c + 1 <= length (knots c) ->
  (forall nb0,
      basis_recursion c t = Ok nb0 ->
      feqb t (at_ (knots c) (nplusc c)) = true ->
      exists nb, BSpline_basis c t = Ok nb
                 /\ nb !! _cp_count c = Some f1
                 /\ forall i, i <> _cp_count c -> nb !! i = nb0 !! i)
  /\ (periodic (cls c) = false ->
      feqb t (at_ (knots c) (nplusc c)) = true ->
      exists nb, create_nbasis2 c t = Ok nb /\ nb !! _cp_count c = Some f1)
  /\ (periodic (cls c) = true ->
      feqb t (at_ (knots c) (_cp_count c + 1)) = true ->
      if decide (2 <= order c)
      then exists nb, create_nbasis2 c t = Ok nb
                      /\ nb !! _cp_count c = Some f1
                      /\ nb !! (_cp_count c + 1) = Some f0
      else create_nbasis2 c t = Raise IndexError).
Proof.
  intros [Hnpc _] Hk Hl. split; [|split].
  - intros nb0 Hr Heq.
    destruct (BSpline_basis_fixup c t nb0 Hnpc Hk Hl Hr Heq) as [Hb Hn].
    eexists. split; [exact Hb|]. split; [exact Hn|].
    intros i Hi. by rewrite list_lookup_insert_ne.
  - intros Hp Heq. by apply create_nbasis2_open.
  - intros Hp Heq. destruct (decide (2 <= order c)) as [Hk2|Hk1].
    + by apply create_nbasis2_periodic.
    + apply create_nbasis2_periodic_order_1; [done | done | lia | done | done].
Qed.

(** A cubic open curve on four points at its right end [t = 1.0]; a
    periodic curve on three points at [t = knots[4] = 3.0], with order 3
    and with order 1. *)
Lemma right_end_fixup_witness :
  let c := mkCurve DBSpline
             [null_vector; mkVector 0 0 0; mkVector 1 1 0; mkVector 2 0 0;
              mkVector 3 1 0]%float
             4 4 8 [0; 0; 0; 0; 0; 1; 1; 1; 1]%float [] in
  let cu := mkCurve DBSplineU
              [null_vector; mkVector 0 0 0; mkVector 1 1 0; mkVector 2 0 0]%float
              3 3 6 [0; 0; 1; 2; 3; 4; 5]%float [] in
  let cu1 := mkCurve DBSplineU
               [null_vector; mkVector 0 0 0; mkVector 1 1 0; mkVector 2 0 0]%float
               3 1 4 [0; 0; 1; 2; 3]%float [] in
  (exists nb, BSpline_basis c 1%float = Ok nb /\ nb !! 4 = Some 1%float)
  /\ (exists nb, create_nbasis2 c 1%float = Ok nb /\ nb !! 4 = Some 1%float)
  /\ (exists nb, create_nbasis2 cu 3%float = Ok nb
                 /\ nb !! 3 = Some 1%float /\ nb !! 4 = Some 0%float)
  /\ create_nbasis2 cu1 3%float = Raise IndexError.
Proof.
  intros c cu cu1.
  destruct (right_end_fixup c 1%float) as (Ha & Hb & _);
    [split; reflexivity | simpl; lia | simpl; lia |].
  destruct (right_end_fixup cu 3%float) as (_ & _ & Hu);
    [split; reflexivity | simpl; lia | simpl; lia |].
  destruct (right_end_fixup cu1 3%float) as (_ & _ & Hu1);
    [split; reflexivity | simpl; lia | simpl; lia |].
  split; [|split; [|split]].
  - destruct (Ha [0; 0; 0; 0; 0; 0; 0; 0]%float) as (nb & Hnb & Hn & _);
      [vm_compute; reflexivity | vm_compute; reflexivity |].
    exists nb. split; [exact Hnb | exact Hn].
  - apply Hb; vm_compute; reflexivity.
  - apply (Hu eq_refl). vm_compute. reflexivity.
  - apply (Hu1 eq_refl). vm_compute. reflexivity.
Defined.

(** ** Rational re-weighting *)

Section Weighting.

Context {F : Type} `{Arith F}.

Lemma weighting_spec (nb ws : list F) (n : nat) :
  n < length nb -> n < length ws ->
  weighting nb ws n
  = if feqb (weight_sum nb ws n) f0
    then Ok (repeat f0 (n + 1))
    else Ok (f0 :: map (fun i => fquot (fmul (at_ nb i) (at_ ws i))
                                        (weight_sum nb ws n))
                       (range 1 (n + 1))).
Proof.
  intros Hnb Hws. unfold weighting.
  rewrite (mapM_total _ (fun i => fmul (at_ nb i) (at_ ws i))).
  2:{ intros i Hi. apply elem_of_range in Hi.
      rewrite py_get_at by lia. simpl. by rewrite py_get_at by lia. }
  simpl. fold (weight_sum nb ws n).
  destruct (feqb (weight_sum nb ws n) f0) eqn:Hs; [done|].
  rewrite (mapM_total _ (fun i => fquot (fmul (at_ nb i) (at_ ws i))
                                        (weight_sum nb ws n))); [done|].
  intros i Hi. apply elem_of_range in Hi.
  rewrite py_get_at by lia. simpl. rewrite py_get_at by lia. simpl.
  unfold py_div. by rewrite Hs.
Qed.

Lemma lookup_repeat_zero (n i : nat) :
  i < n -> repeat (f0 : F) n !! i = Some f0.
Proof.
  revert i. induction n as [|n IH]; intros i Hi; [lia|].
  destruct i as [|i]; simpl; [done|]. apply IH. lia.
Qed.

End Weighting.

(** C8.  For a rational curve (either class) holding one weight per control
    point, at a parameter where the ordinary basis evaluates to [nb]: when
    the sum of [nb[j] * weights[j]] over j = 1..n is zero, [basis(t)] returns
    the vector of n + 1 zeros, without raising; otherwise it returns the
    n + 1 entries [r[0] = 0.0] and [r[i] = nb[i] * weights[i] / sum]. *)
Theorem rational_basis_weighting {F : Type} `{Arith F} (c : curve) (t : F)
    (nb : list F) :
  rational (cls c) = true ->
  well_formed c ->
  1 <= order c ->
  length (weights c) = _cp_count c + 1 ->
  BSpline_basis c t = Ok nb ->
  let n := _cp_count c in
  let s := weight_sum nb (weights c) n in
  (feqb s f0 = true ->
   basis c t = Ok (repeat f0 (n + 1))
   /\ forall i, i <= n -> repeat f0 (n + 1) !! i = Some f0)
  /\ (feqb s f0 = false ->
      exists r, basis c t = Ok r
                /\ length r = n + 1
                /\ r !! 0 = Some f0
                /\ forall i, 1 <= i <= n ->
                     r !! i = Some (fquot (fmul (at_ nb i) (at_ (weights c) i)) s)).
Proof.
  intros Hrat [Hnpc _] Hk Hws Hb n s.
  pose proof (BSpline_basis_length c t nb Hb) as Hl.
  assert (basis c t = weighting nb (weights c) n) as Hbasis.
  { unfold basis. rewrite Hrat, Hb. done. }
  rewrite Hbasis, weighting_spec by (subst n; lia). fold s.
  split; intros Hs; rewrite Hs.
  - split; [done|]. intros i Hi. apply lookup_repeat_zero. lia.
  - eexists. split; [done|]. split; [|split; [done|]].
    + simpl. rewrite length_map, length_range. lia.
    + intros i Hi. destruct i as [|i]; [lia|]. simpl.
      rewrite list_lookup_fmap. unfold range.
      rewrite lookup_seq_lt by lia. done.
Qed.

(** Three points with weights 1, -1, 1 at the middle of a linear curve: the
    weighted sum 0.5 * 1 + 0.5 * -1 vanishes at [t = 0.5]. *)
Lemma rational_basis_weighting_witness :
  let c := mkCurve RBSpline
             [null_vector; mkVector 0 0 0; mkVector 1 1 0; mkVector 2 0 0]%float
             3 2 5 [0; 0; 0; 1; 2; 2]%float [0; 1; -1; 1]%float in
  basis c 0.5%float = Ok [0; 0; 0; 0]%float.
Proof.
  intros c.
  destruct (rational_basis_weighting c 0.5%float [0; 0.5; 0.5; 0; 0]%float)
    as [Hz _].
  - reflexivity.
  - split; reflexivity.
  - simpl. lia.
  - reflexivity.
  - vm_compute. reflexivity.
  - destruct Hz as [Hz _]; [vm_compute; reflexivity | exact Hz].
Defined.

(** ** The snap onto [max_t] *)

(** When [max_t - t < 5e-6], [point(t)] is [point(max_t)], whatever the class
    and the arithmetic. *)
Lemma snap_above_max_t {F : Type} `{Arith F} (c : curve) (t mt : F) :
  max_t c = Ok mt ->
  fltb (fsub mt t) snap_tol = true ->
  snap mt t = mt /\ point c t = point c mt.
Proof.
  intros Hmt Hlt.
  assert (snap mt t = mt) as Hs by (unfold snap; by rewrite Hlt).
  assert (snap mt mt = mt) as Hs'.
  { unfold snap. destruct (fltb (fsub mt mt) snap_tol); reflexivity. }
  split; [exact Hs|].
  unfold point, BSpline_point, DBSpline_point. rewrite Hmt. simpl.
  by rewrite Hs, Hs'.
Qed.

(** ** [knot_closed] *)

Section KnotClosed.

Context {F : Type} `{Arith F}.

Lemma foldM_app {S A} (f : A -> S -> result S) (l1 l2 : list A) (s : S) :
  foldM f (l1 ++ l2) s = let* s' := foldM f l1 s in foldM f l2 s'.
Proof.
  revert s. induction l1 as [|a l1 IH]; intros s; simpl; [done|].
  destruct (f a s) as [s1|e]; simpl; [apply IH | done].
Qed.

Lemma foldM_total {S A} (f : A -> S -> result S) (l : list A) :
  (forall a s, a ∈ l -> exists s', f a s = Ok s') ->
  forall s, exists s', foldM f l s = Ok s'.
Proof.
  induction l as [|a l IH]; intros Hf s; simpl; [eauto|].
  destruct (Hf a s) as [s1 ->]; [left|]. simpl.
  apply IH. intros a' s0 Ha'. apply Hf. by right.
Qed.

Lemma foldM_not_raising {S A} (e : exn) (f : A -> S -> result S) (l : list A) :
  (forall a s, a ∈ l -> f a s <> Raise e) ->
  forall s, foldM f l s <> Raise e.
Proof.
  induction l as [|a l IH]; intros Hf s; simpl; [done|].
  destruct (f a s) as [s1|e'] eqn:Hfa; simpl.
  - apply IH. intros a' s0 Ha'. apply Hf. by right.
  - rewrite <- Hfa. apply Hf. left.
Qed.

Lemma spacing_total (cps : list Vector) :
  mapM (fun i => let* a := py_get cps (i - 1) in
                 let* b := py_get cps i in
                 Ok (distance a b))
       (range 2 (length cps))
  = Ok (spacing_of cps).
Proof.
  unfold spacing_of. apply mapM_total. intros i Hi. apply elem_of_range in Hi.
  rewrite py_get_nth_vector by lia. simpl.
  by rewrite py_get_nth_vector by lia.
Qed.

Lemma length_spacing_of (cps : list Vector) :
  length (spacing_of cps) = length cps - 2.
Proof. unfold spacing_of. by rewrite length_map, length_range. Qed.

Lemma knot_closed_unfold (cps : list Vector) (k : nat) :
  knot_closed cps k
  = let m := (Z.of_nat (length cps) - 1 - Z.of_nat k + 2)%Z in
    let* x := foldM (knot_closed_step (spacing_of cps) (py_sum (spacing_of cps)) m)
                    (range 1 (Z.to_nat m)) (repeat f0 (k + 1)) in
    Ok (x ++ repeat (of_Z m) (k - 1)).
Proof.
  unfold knot_closed.
  replace (Z.to_nat (Z.of_nat (length cps) - 1 + 1)) with (length cps) by lia.
  by rewrite spacing_total.
Qed.

(** An iteration whose index is inside [spacing] and whose divisions are
    defined appends one knot. *)
Lemma knot_closed_step_ok (sp : list F) (maxc : F) (m : Z) (i : nat) (x : list F) :
  feqb (of_Z m) f0 = false -> feqb maxc f0 = false -> i < length sp ->
  exists x', knot_closed_step sp maxc m i x = Ok x'.
Proof.
  intros Hm Hmaxc Hi. unfold knot_closed_step, py_div. rewrite Hm. simpl.
  rewrite py_get_at by done. simpl. rewrite Hmaxc. simpl. eauto.
Qed.

Lemma knot_closed_step_index (sp : list F) (maxc : F) (m : Z) (i : nat) (x : list F) :
  feqb (of_Z m) f0 = false -> length sp <= i ->
  knot_closed_step sp maxc m i x = Raise IndexError.
Proof.
  intros Hm Hi. unfold knot_closed_step, py_div. rewrite Hm. simpl.
  by rewrite py_get_ge.
Qed.

Lemma knot_closed_step_zero_path (sp : list F) (maxc : F) (m : Z) (i : nat)
    (x : list F) :
  feqb (of_Z m) f0 = false -> feqb maxc f0 = true -> i < length sp ->
  knot_closed_step sp maxc m i x = Raise ZeroDivisionError.
Proof.
  intros Hm Hmaxc Hi. unfold knot_closed_step, py_div. rewrite Hm. simpl.
  rewrite py_get_at by done. simpl. by rewrite Hmaxc.
Qed.

Lemma knot_closed_step_in_bounds (sp : list F) (maxc : F) (m : Z) (i : nat)
    (x : list F) :
  i < length sp -> knot_closed_step sp maxc m i x <> Raise IndexError.
Proof.
  intros Hi. unfold knot_closed_step, py_div.
  destruct (feqb (of_Z m) f0); simpl; [done|].
  rewrite py_get_at by done. simpl.
  destruct (feqb maxc f0); simpl; done.
Qed.

(** With a non-zero path length all iterations but the last succeed, and
    the last one reads [spacing[n-1]]. *)
Lemma last_iteration (cps : list Vector) (n : nat) :
  length cps = n + 1 -> 2 <= n ->
  feqb (of_Z (Z.of_nat n)) f0 = false ->
  feqb (py_sum (spacing_of cps)) f0 = false ->
  (let* x := foldM (knot_closed_step (spacing_of cps) (py_sum (spacing_of cps))
                                     (Z.of_nat n))
                   (seq 1 (n - 1)) (repeat f0 (2 + 1)) in
   Ok (x ++ repeat (of_Z (Z.of_nat n)) (2 - 1)))
  = Raise IndexError.
Proof.
  intros Hlen Hn Hnz Hmaxc.
  pose proof (length_spacing_of cps) as Hsp.
  replace (n - 1) with ((n - 2) + 1) by lia.
  rewrite seq_app, foldM_app.
  destruct (foldM_total
              (knot_closed_step (spacing_of cps) (py_sum (spacing_of cps))
                                (Z.of_nat n))
              (seq 1 (n - 2))) with (s := repeat (f0 : F) (2 + 1)) as [x' ->].
  { intros i x Hi. apply elem_of_seq in Hi.
    apply knot_closed_step_ok; [done | done | lia]. }
  cbn [bind seq foldM].
  rewrite knot_closed_step_index by (try done; lia). done.
Qed.

Lemma knot_closed_order_2 (cps : list Vector) (n : nat) :
  length cps = n + 1 -> 2 <= n ->
  feqb (of_Z (Z.of_nat n)) f0 = false ->
  knot_closed cps 2
  = Raise (if feqb (py_sum (spacing_of cps)) f0 && (3 <=? n)
           then ZeroDivisionError else IndexError).
Proof.
  intros Hlen Hn Hnz. rewrite knot_closed_unfold. cbv zeta.
  replace (Z.of_nat (length cps) - 1 - Z.of_nat 2 + 2)%Z with (Z.of_nat n) by lia.
  rewrite Nat2Z.id. unfold range.
  pose proof (length_spacing_of cps) as Hsp.
  destruct (feqb (py_sum (spacing_of cps)) f0) eqn:Hmaxc;
    destruct (3 <=? n) eqn:H3; cbn [andb].
  - (* the path length is zero: the first iteration divides by it *)
    apply Nat.leb_le in H3.
    destruct (n - 1) as [|n'] eqn:Hn'; [lia|]. cbn [seq foldM].
    rewrite knot_closed_step_zero_path by (try done; lia). done.
  - (* two points: the only iteration reads spacing[1] *)
    apply Nat.leb_gt in H3.
    destruct (n - 1) as [|n'] eqn:Hn'; [lia|]. cbn [seq foldM].
    rewrite knot_closed_step_index by (try done; lia). done.
  - apply last_iteration; done.
  - apply last_iteration; done.
Qed.

Lemma knot_closed_order_ge_3 (cps : list Vector) (k : nat) :
  3 <= k -> knot_closed cps k <> Raise IndexError.
Proof.
  intros Hk. rewrite knot_closed_unfold. cbv zeta.
  set (m := (Z.of_nat (length cps) - 1 - Z.of_nat k + 2)%Z).
  pose proof (length_spacing_of cps) as Hsp.
  destruct (foldM _ _ _) as [x|e] eqn:Hf; simpl; [done|].
  intros [= ->]. revert Hf. apply foldM_not_raising.
  intros i x Hi. apply elem_of_range in Hi.
  apply knot_closed_step_in_bounds. lia.
Qed.

End KnotClosed.

(** C10 (counterexample).  Order 2 and three coincident control points
    behind the placeholder: the path length [maxc] is 0.0, and the first
    iteration raises [ZeroDivisionError] at [numerator / maxc]; the read of
    [spacing[n-1]] is not reached. *)
Lemma knot_closed_order_2_zero_division :
  let cps := [null_vector; mkVector 1 1 1; mkVector 1 1 1; mkVector 1 1 1]%float in
  2 <= length cps - 1
  /\ knot_closed cps 2 = Raise ZeroDivisionError
  /\ knot_closed cps 2 <> Raise IndexError.
Proof.
  split; [simpl; lia|]. split; [vm_compute; reflexivity|].
  vm_compute. discriminate.
Qed.

(** C10 (amended).  For order 2 and a 1-based array of n >= 2 points,
    [knot_closed] always raises: [ZeroDivisionError] in its first iteration
    when the path length [maxc] is zero and n >= 3, and otherwise
    [IndexError], from the read of [spacing[n-1]] in its last iteration.
    For every order k >= 3 no index is out of bounds. *)
Theorem knot_closed_spacing_index {F : Type} `{Arith F} (cps : list Vector)
    (n : nat) :
  length cps = n + 1 ->
  2 <= n ->
  feqb (of_Z (Z.of_nat n)) f0 = false ->
  length (spacing_of cps) = n - 1
  /\ knot_closed cps 2
     = Raise (if feqb (py_sum (spacing_of cps)) f0 && (3 <=? n)
              then ZeroDivisionError else IndexError)
  /\ (forall k (cps' : list Vector),
        3 <= k -> knot_closed cps' k <> Raise IndexError).
Proof.
  intros Hlen Hn Hnz. split; [|split].
  - rewrite length_spacing_of. lia.
  - by apply knot_closed_order_2.
  - intros k cps' Hk. by apply knot_closed_order_ge_3.
Qed.

(** Four points on a line, order 2. *)
Lemma knot_closed_spacing_index_witness :
  knot_closed [null_vector; mkVector 0 0 0; mkVector 1 0 0; mkVector 2 0 0;
               mkVector 3 0 0]%float 2
  = Raise IndexError.
Proof.
  destruct (knot_closed_spacing_index
              [null_vector; mkVector 0 0 0; mkVector 1 0 0; mkVector 2 0 0;
               mkVector 3 0 0]%float 4) as (_ & Hk & _).
  - reflexivity.
  - lia.
  - vm_compute. reflexivity.
  - rewrite Hk. vm_compute. reflexivity.
Defined.

(** ** Zero-width knot spans in the derivative form *)

(** C6 (defect in [DBSpline.create_nbasis2] / [dbasis]).  Three control
    points, order 2 and the non-decreasing knots 0, 1, 2, 2, 2 (behind the
    placeholder).  At [t = 2.0 = max_t] the first order basis is forced to
    [nbasis[3] = 1.0] before the recursion, although the span
    [knots[3], knots[4]] has zero width; the guard [nbasis[i+1] != 0.0] then
    lets [(knots[4] - t) * nbasis[3] / (knots[4] - knots[3])] through, and
    [dbasis], hence [point], raises [ZeroDivisionError].  The value form
    [basis], which makes the fix-up after the recursion, returns. *)
Theorem dbasis_zero_width_span_raises :
  let ks := [0; 0; 1; 2; 2; 2]%float in
  let cps := [mkVector 0 0 0; mkVector 1 1 0; mkVector 2 0 0]%float in
  exists c,
    BSpline_init DBSpline cps 2 (Some ks) = Ok c
    /\ non_decreasing ks = true
    /\ max_t c = Ok 2%float
    /\ create_nbasis2 c 2%float = Ok [0; 0; 0; 1; 0]%float
    /\ dbasis c 2%float = Raise ZeroDivisionError
    /\ point c 2%float = Raise ZeroDivisionError
    /\ basis c 2%float = Ok [0; 0; 0; 1; 0]%float.
Proof.
  eexists. split; [vm_compute; reflexivity|].
  repeat split; vm_compute; reflexivity.
Qed.

(** The same defect with default knots, when the order exceeds the number
    of control points: one point, order 2, any [t >= max_t = 0.0]. *)
Lemma dbasis_single_point_raises :
  exists c,
    BSpline_init DBSpline [mkVector 5 5 5]%float 2 None = Ok c
    /\ knots c = [0; 0; 0; 0]%float
    /\ dbasis c 0%float = Raise ZeroDivisionError
    /\ point c 7%float = Raise ZeroDivisionError.
Proof.
  eexists. split; [vm_compute; reflexivity|].
  repeat split; vm_compute; reflexivity.
Qed.

(** ** The recursion in closed form *)

Section Recursion.

Context {F : Type} `{Arith F}.

Lemma left_term_guarded (ks : list F) (t : F) (a b : nat) (v : F) :
  a < length ks -> b < length ks ->
  (feqb v f0 = false -> feqb (fsub (at_ ks b) (at_ ks a)) f0 = false) ->
  left_term ks t a b v
  = Ok (guarded v (fmul (fsub t (at_ ks a)) v) (fsub (at_ ks b) (at_ ks a))).
Proof.
  intros Ha Hb Hnz. unfold left_term, guarded.
  destruct (feqb v f0) eqn:Hv; simpl; [done|].
  rewrite py_get_at by done. simpl. rewrite py_get_at by done. simpl.
  unfold py_div. by rewrite Hnz.
Qed.

Lemma right_term_guarded (ks : list F) (t : F) (a b : nat) (v : F) :
  a < length ks -> b < length ks ->
  (feqb v f0 = false -> feqb (fsub (at_ ks b) (at_ ks a)) f0 = false) ->
  right_term ks t a b v
  = Ok (guarded v (fmul (fsub (at_ ks b) t) v) (fsub (at_ ks b) (at_ ks a))).
Proof.
  intros Ha Hb Hnz. unfold right_term, guarded.
  destruct (feqb v f0) eqn:Hv; simpl; [done|].
  rewrite py_get_at by done. simpl. rewrite py_get_at by done. simpl.
  unfold py_div. by rewrite Hnz.
Qed.

(** The inner loop updates the indices [a .. a+m-1] in ascending order; each
    iteration reads the old values at [i] and [i + 1]. *)
Lemma basis_level_loop (ks : list F) (t : F) (k : nat) (val : nat -> F)
    (m a : nat) (l : list F) :
  (forall i, a <= i < a + m ->
     exists bi bi1 d e,
       l !! i = Some bi /\ l !! (i + 1) = Some bi1
       /\ left_term ks t i (i + k - 1) bi = Ok d
       /\ right_term ks t (i + 1) (i + k) bi1 = Ok e
       /\ val i = fadd d e) ->
  exists l',
    foldM (basis_step ks t k) (seq a m) l = Ok l'
    /\ length l' = length l
    /\ forall j, l' !! j = if decide (a <= j < a + m) then Some (val j) else l !! j.
Proof.
  revert a l. induction m as [|m IH]; intros a l Hstep; simpl.
  - exists l. split; [done|]. split; [done|]. intros j.
    rewrite decide_False by lia. done.
  - destruct (Hstep a) as (bi & bi1 & d & e & Hbi & Hbi1 & Hd & He & Hval); [lia|].
    assert (a < length l) as Hlt by (by eapply lookup_lt_Some).
    unfold basis_step at 1.
    rewrite (proj2 (py_get_Ok l a bi) Hbi). simpl. rewrite Hd. simpl.
    rewrite (proj2 (py_get_Ok l (a + 1) bi1) Hbi1). simpl. rewrite He. simpl.
    rewrite py_set_lt by done. simpl. rewrite <- Hval.
    destruct (IH (S a) (<[a:=val a]> l)) as (l' & Hl' & Hlen & Hlook).
    { intros i Hi.
      destruct (Hstep i) as (ci & ci1 & d' & e' & Hci & Hci1 & Hd' & He' & Hval');
        [lia|].
      exists ci, ci1, d', e'.
      rewrite !list_lookup_insert_ne by lia. done. }
    exists l'. split; [done|]. split; [by rewrite Hlen, length_insert|].
    intros j. rewrite Hlook.
    destruct (decide (j = a)) as [->|Hne].
    + rewrite decide_False by lia. rewrite decide_True by lia.
      apply list_lookup_insert_eq. done.
    + rewrite list_lookup_insert_ne by done.
      destruct (decide (S a <= j < S a + m)).
      * rewrite decide_True by lia. done.
      * rewrite decide_False by lia. done.
Qed.

Lemma length_stage (ks : list F) (t : F) (npc k : nat) :
  length (stage ks t npc k) = 1 + (npc - 1).
Proof. unfold stage. simpl. by rewrite length_map, length_seq. Qed.

Lemma lookup_stage (ks : list F) (t : F) (npc k i : nat) :
  1 <= i -> i < npc ->
  stage ks t npc k !! i = Some (cox ks t (Nat.min k (npc - i) - 1) i).
Proof.
  intros Hi Hlt. unfold stage. destruct i as [|i]; [lia|]. simpl.
  rewrite list_lookup_fmap, lookup_seq_lt by lia. done.
Qed.

Lemma lookup_stage_0 (ks : list F) (t : F) (npc k : nat) :
  stage ks t npc k !! 0 = Some f0.
Proof. done. Qed.

Lemma create_nbasis_stage (c : curve) (t : F) :
  nplusc c + 1 <= length (knots c) ->
  create_nbasis c t = Ok (stage (knots c) t (nplusc c) 1).
Proof.
  intros Hl. unfold create_nbasis, stage.
  rewrite (mapM_total _ (fun i => cox (knots c) t 0 i)).
  - cbn [bind app]. do 2 f_equal. unfold range. apply map_ext_in. intros i Hi.
    apply in_seq in Hi.
    replace (Nat.min 1 (nplusc c - i) - 1) with 0 by lia. done.
  - intros i Hi. apply elem_of_range in Hi. simpl.
    apply first_order_total. lia.
Qed.

(** One level of the recursion takes the buffer of order [k - 1] to that of
    order [k]. *)
Lemma basis_level_stage (ks : list F) (t : F) (npc k : nat) :
  2 <= k -> npc + 1 <= length ks ->
  spans_nonzero ks t npc k ->
  basis_level ks t npc k (stage ks t npc (k - 1)) = Ok (stage ks t npc k).
Proof.
  intros Hk Hl Hnz. unfold basis_level, range.
  destruct (basis_level_loop ks t k (fun i => cox ks t (k - 1) i)
              (npc - k + 1 - 1) 1 (stage ks t npc (k - 1)))
    as (l' & Hl' & Hlen & Hlook).
  { intros i Hi.
    exists (cox ks t (k - 2) i), (cox ks t (k - 2) (i + 1)).
    destruct (Hnz (k - 2) i) as [Hleft Hright]; [lia..|].
    eexists. eexists.
    split. { rewrite lookup_stage by lia. do 2 f_equal. lia. }
    split. { rewrite lookup_stage by lia. do 2 f_equal. lia. }
    split. { apply left_term_guarded; [lia | lia |].
             intros Hv. replace (i + k - 1) with (i + (k - 2) + 1) by lia.
             by apply Hleft. }
    split. { apply right_term_guarded; [lia | lia |].
             intros Hv. replace (i + k) with (i + (k - 2) + 2) by lia.
             by apply Hright. }
    replace (k - 1) with (S (k - 2)) at 1 by lia. simpl.
    unfold left_part, right_part.
    replace (i + (k - 2) + 1) with (i + k - 1) by lia.
    replace (i + (k - 2) + 2) with (i + k) by lia. done. }
  rewrite Hl'. f_equal. apply list_eq. intros j. rewrite Hlook.
  destruct (decide (1 <= j < 1 + (npc - k + 1 - 1))) as [Hj|Hj].
  - rewrite lookup_stage by lia. do 2 f_equal. lia.
  - destruct (decide (j = 0)) as [->|Hj0]; [done|].
    destruct (decide (j < npc)) as [Hjn|Hjn].
    + rewrite !lookup_stage by lia. do 2 f_equal. lia.
    + rewrite !lookup_ge_None_2; [done | rewrite length_stage; lia
                                        | rewrite length_stage; lia].
Qed.

Lemma spans_nonzero_le (ks : list F) (t : F) (npc k k' : nat) :
  k' <= k -> spans_nonzero ks t npc k -> spans_nonzero ks t npc k'.
Proof. intros Hle Hnz j i Hj Hi Hn. apply Hnz; lia. Qed.

Lemma basis_levels_stage (ks : list F) (t : F) (npc m : nat) :
  npc + 1 <= length ks ->
  spans_nonzero ks t npc (1 + m) ->
  foldM (basis_level ks t npc) (seq 2 m) (stage ks t npc 1)
  = Ok (stage ks t npc (1 + m)).
Proof.
  intros Hl. induction m as [|m IH]; intros Hnz; [done|].
  rewrite seq_S, foldM_app.
  rewrite IH by (eapply spans_nonzero_le; [|exact Hnz]; lia).
  simpl. replace (stage ks t npc (S m)) with (stage ks t npc (S (S m) - 1))
    by (f_equal; lia).
  rewrite basis_level_stage; [done | lia | done | done].
Qed.

(** When no guard lets a zero denominator through, the recursion returns
    the buffer of closed-form values. *)
Lemma basis_recursion_stage (c : curve) (t : F) :
  1 <= order c ->
  nplusc c + 1 <= length (knots c) ->
  spans_nonzero (knots c) t (nplusc c) (order c) ->
  basis_recursion c t = Ok (stage (knots c) t (nplusc c) (order c)).
Proof.
  intros Hk Hl Hnz. unfold basis_recursion.
  rewrite create_nbasis_stage by done. simpl. unfold range.
  replace (order c + 1 - 2) with (order c - 1) by lia.
  rewrite basis_levels_stage; [do 2 f_equal; lia | done |].
  replace (1 + (order c - 1)) with (order c) by lia. done.
Qed.

End Recursion.

(** ** Exact arithmetic *)

Section Exact.

Open Scope R_scope.

Lemma Reqb_true (x y : R) : Reqb x y = true <-> x = y.
Proof. unfold Reqb. destruct (Req_dec_T x y); split; intros; done. Qed.

Lemma Reqb_false (x y : R) : Reqb x y = false <-> x <> y.
Proof. unfold Reqb. destruct (Req_dec_T x y); split; intros; done. Qed.

Lemma Rltb_true (x y : R) : Rltb x y = true <-> x < y.
Proof. unfold Rltb. destruct (Rlt_dec x y); split; intros; done. Qed.

Lemma Rltb_false (x y : R) : Rltb x y = false <-> ~ x < y.
Proof. unfold Rltb. destruct (Rlt_dec x y); split; intros; done. Qed.

Lemma Rleb_true (x y : R) : Rleb x y = true <-> x <= y.
Proof. unfold Rleb. destruct (Rle_dec x y); split; intros; done. Qed.

Lemma Rleb_false (x y : R) : Rleb x y = false <-> ~ x <= y.
Proof. unfold Rleb. destruct (Rle_dec x y); split; intros; done. Qed.

Lemma guarded_zero (num den : R) : guarded 0 num den = 0.
Proof.
  unfold guarded. cbn. rewrite (proj2 (Reqb_true 0 0) eq_refl). done.
Qed.

Lemma guarded_nonzero (v num den : R) : v <> 0 -> guarded v num den = num / den.
Proof.
  intros Hv. unfold guarded. cbn. rewrite (proj2 (Reqb_false v 0) Hv). done.
Qed.

Lemma cox_0 (ks : list R) (t : R) (i : nat) :
  cox ks t 0 i = if Rleb (at_ ks i) t && Rltb t (at_ ks (i + 1)) then 1 else 0.
Proof. cbn. destruct (Rleb _ _), (Rltb _ _); done. Qed.

Lemma cox_S (ks : list R) (t : R) (j i : nat) :
  cox ks t (S j) i
  = left_part ks t j i (cox ks t j i) + right_part ks t j i (cox ks t j (i + 1)).
Proof. done. Qed.

Lemma left_part_zero (ks : list R) (t : R) (j i : nat) : left_part ks t j i 0 = 0.
Proof. apply guarded_zero. Qed.

Lemma right_part_zero (ks : list R) (t : R) (j i : nat) : right_part ks t j i 0 = 0.
Proof. apply guarded_zero. Qed.

Lemma sorted_knots_le (ks : list R) (npc i j : nat) :
  sorted_knots ks npc -> (1 <= i)%nat -> (i <= j)%nat -> (j <= npc)%nat ->
  at_ ks i <= at_ ks j.
Proof.
  intros Hs Hi Hij Hj. induction j as [|j IH].
  - replace i with 0%nat by lia. lra.
  - destruct (decide (i = S j)) as [->|Hne]; [lra|].
    apply Rle_trans with (at_ ks j); [apply IH; lia|].
    replace (S j) with (j + 1)%nat by lia. apply Hs; lia.
Qed.

(** A value of order [j + 1] at index [i] is non-zero only inside
    [knots[i], knots[i+j+1]). *)
Lemma cox_support (ks : list R) (t : R) (npc : nat) :
  sorted_knots ks npc ->
  forall j i, (1 <= i)%nat -> (i + j + 1 <= npc)%nat ->
    cox ks t j i <> 0 -> at_ ks i <= t < at_ ks (i + j + 1).
Proof.
  intros Hs. induction j as [|j IH]; intros i Hi Hn Hc.
  - rewrite cox_0 in Hc. replace (i + 0 + 1)%nat with (i + 1)%nat by lia.
    destruct (Rleb _ _) eqn:Hle; [|done].
    destruct (Rltb _ _) eqn:Hlt; [|done].
    apply Rleb_true in Hle. apply Rltb_true in Hlt. done.
  - rewrite cox_S in Hc.
    destruct (Req_dec_T (cox ks t j i) 0) as [Ha|Ha].
    + destruct (Req_dec_T (cox ks t j (i + 1)) 0) as [Hb|Hb].
      * rewrite Ha, Hb, left_part_zero, right_part_zero in Hc. lra.
      * destruct (IH (i + 1)%nat) as [Hlo Hhi]; [lia | lia | done |].
        replace (i + 1 + j + 1)%nat with (i + S j + 1)%nat in Hhi by lia.
        split; [|done].
        apply Rle_trans with (at_ ks (i + 1)); [apply Hs; lia | done].
    + destruct (IH i) as [Hlo Hhi]; [lia | lia | done |].
      split; [done|].
      apply Rlt_le_trans with (at_ ks (i + j + 1)); [done|].
      apply (sorted_knots_le ks npc); [done | lia | lia | lia].
Qed.

(** The closed-form values are never negative. *)
Lemma cox_nonneg (ks : list R) (t : R) (npc : nat) :
  sorted_knots ks npc ->
  forall j i, (1 <= i)%nat -> (i + j + 1 <= npc)%nat -> 0 <= cox ks t j i.
Proof.
  intros Hs. induction j as [|j IH]; intros i Hi Hn.
  - rewrite cox_0. destruct (_ && _); lra.
  - rewrite cox_S.
    assert (0 <= left_part ks t j i (cox ks t j i)) as Hleft.
    { destruct (Req_dec_T (cox ks t j i) 0) as [->|Hnz];
        [rewrite left_part_zero; lra|].
      destruct (cox_support ks t npc Hs j i) as [Hlo Hhi]; [lia | lia | done |].
      unfold left_part. rewrite guarded_nonzero by done. cbn.
      apply Rmult_le_pos; [apply Rmult_le_pos; [lra | apply IH; lia]|].
      apply Rlt_le, Rinv_0_lt_compat. lra. }
    assert (0 <= right_part ks t j i (cox ks t j (i + 1))) as Hright.
    { destruct (Req_dec_T (cox ks t j (i + 1)) 0) as [->|Hnz];
        [rewrite right_part_zero; lra|].
      destruct (cox_support ks t npc Hs j (i + 1)) as [Hlo Hhi];
        [lia | lia | done |].
      replace (i + 1 + j + 1)%nat with (i + j + 2)%nat in Hhi by lia.
      unfold right_part. rewrite guarded_nonzero by done. cbn.
      apply Rmult_le_pos; [apply Rmult_le_pos; [lra | apply IH; lia]|].
      apply Rlt_le, Rinv_0_lt_compat. lra. }
    lra.
Qed.

Lemma left_part_nonneg (ks : list R) (t : R) (npc : nat) :
  sorted_knots ks npc ->
  forall j i, (1 <= i)%nat -> (i + j + 1 <= npc)%nat ->
    0 <= left_part ks t j i (cox ks t j i).
Proof.
  intros Hs j i Hi Hn.
  destruct (Req_dec_T (cox ks t j i) 0) as [->|Hnz];
    [rewrite left_part_zero; lra|].
  destruct (cox_support ks t npc Hs j i) as [Hlo Hhi]; [lia | lia | done |].
  unfold left_part. rewrite guarded_nonzero by done. cbn.
  apply Rmult_le_pos;
    [apply Rmult_le_pos; [lra | apply (cox_nonneg ks t npc); [done | lia | lia]]|].
  apply Rlt_le, Rinv_0_lt_compat. lra.
Qed.

Lemma right_part_nonneg (ks : list R) (t : R) (npc : nat) :
  sorted_knots ks npc ->
  forall j i, (1 <= i)%nat -> (i + j + 2 <= npc)%nat ->
    0 <= right_part ks t j i (cox ks t j (i + 1)).
Proof.
  intros Hs j i Hi Hn.
  destruct (Req_dec_T (cox ks t j (i + 1)) 0) as [->|Hnz];
    [rewrite right_part_zero; lra|].
  destruct (cox_support ks t npc Hs j (i + 1)) as [Hlo Hhi];
    [lia | lia | done |].
  replace (i + 1 + j + 1)%nat with (i + j + 2)%nat in Hhi by lia.
  unfold right_part. rewrite guarded_nonzero by done. cbn.
  apply Rmult_le_pos;
    [apply Rmult_le_pos; [lra | apply (cox_nonneg ks t npc); [done | lia | lia]]|].
  apply Rlt_le, Rinv_0_lt_compat. lra.
Qed.

(** With non-decreasing knots every guard that passes has a denominator
    that is the positive width of a non-empty span. *)
Lemma spans_nonzero_sorted (ks : list R) (t : R) (npc k : nat) :
  sorted_knots ks npc -> spans_nonzero ks t npc k.
Proof.
  intros Hs j i Hj Hi Hn. split; intros Hc; cbn in Hc |- *;
    apply Reqb_false in Hc; apply Reqb_false.
  - destruct (cox_support ks t npc Hs j i) as [Hlo Hhi]; [lia | lia | done |].
    lra.
  - destruct (cox_support ks t npc Hs j (i + 1)%nat) as [Hlo Hhi];
      [lia | lia | done |].
    replace (i + 1 + j + 1)%nat with (i + j + 2)%nat in Hhi by lia. lra.
Qed.

(** In exact arithmetic, on non-decreasing knots, the recursion of the
    value form returns for every parameter: no zero-width span is ever
    divided by. *)
Lemma basis_recursion_total_real (c : curve) (t : R) :
  (1 <= order c)%nat ->
  (nplusc c + 1 <= length (knots c))%nat ->
  sorted_knots (knots c) (nplusc c) ->
  basis_recursion c t = Ok (stage (knots c) t (nplusc c) (order c)).
Proof.
  intros Hk Hl Hs. apply basis_recursion_stage; [done | done |].
  by apply spans_nonzero_sorted.
Qed.

End Exact.

(** ** Partition of unity *)

Section Unity.

Open Scope R_scope.

Lemma fold_left_Rplus (xs : list R) (a : R) :
  fold_left Rplus xs a = a + fold_left Rplus xs 0.
Proof.
  revert a. induction xs as [|x xs IH]; intros a; simpl; [lra|].
  rewrite (IH (a + x)), (IH (0 + x)). lra.
Qed.

Lemma py_sum_cons (x : R) (xs : list R) : py_sum (x :: xs) = x + py_sum xs.
Proof.
  unfold py_sum. cbn. rewrite fold_left_Rplus. lra.
Qed.

Lemma py_sum_nil : py_sum (F:=R) [] = 0.
Proof. done. Qed.

Lemma py_sum_map_seq (f : nat -> R) (a m : nat) :
  py_sum (map f (seq a m)) = Rsum f a m.
Proof.
  revert a. induction m as [|m IH]; intros a; [done|].
  cbn [seq map Rsum]. by rewrite py_sum_cons, IH.
Qed.

Lemma Rsum_ext (f g : nat -> R) (a m : nat) :
  (forall i, (a <= i < a + m)%nat -> f i = g i) -> Rsum f a m = Rsum g a m.
Proof.
  revert a. induction m as [|m IH]; intros a Hfg; [done|]. simpl.
  rewrite Hfg by lia. rewrite (IH (S a)); [done|]. intros i Hi. apply Hfg. lia.
Qed.

Lemma Rsum_zero (f : nat -> R) (a m : nat) :
  (forall i, (a <= i < a + m)%nat -> f i = 0) -> Rsum f a m = 0.
Proof.
  revert a. induction m as [|m IH]; intros a Hf; [done|]. simpl.
  rewrite Hf by lia. rewrite (IH (S a)); [lra|]. intros i Hi. apply Hf. lia.
Qed.

Lemma Rsum_snoc (f : nat -> R) (a m : nat) :
  Rsum f a (S m) = Rsum f a m + f (a + m)%nat.
Proof.
  revert a. induction m as [|m IH]; intros a.
  - simpl. replace (a + 0)%nat with a by lia. lra.
  - change (Rsum f a (S (S m))) with (f a + Rsum f (S a) (S m)).
    rewrite IH. simpl. replace (S (a + m)) with (a + S m)%nat by lia. lra.
Qed.

Lemma Rsum_app (f : nat -> R) (a m1 m2 : nat) :
  Rsum f a (m1 + m2) = Rsum f a m1 + Rsum f (a + m1) m2.
Proof.
  revert a. induction m1 as [|m1 IH]; intros a; simpl.
  - replace (a + 0)%nat with a by lia. lra.
  - rewrite IH. replace (S a + m1)%nat with (a + S m1)%nat by lia. lra.
Qed.

Lemma Rsum_shift (f : nat -> R) (a m : nat) :
  Rsum (fun i => f (S i)) a m = Rsum f (S a) m.
Proof. revert a. induction m as [|m IH]; intros a; simpl; [done|]. by rewrite IH. Qed.

(** Regrouping [sum (D i + E i)] as [D a + sum (E i + D (i+1)) + E last]. *)
Lemma Rsum_regroup (D E : nat -> R) (a m : nat) :
  Rsum (fun i => D i + E i) a (S m)
  = D a + Rsum (fun i => E i + D (S i)) a m + E (a + m)%nat.
Proof.
  revert a. induction m as [|m IH]; intros a.
  - simpl. replace (a + 0)%nat with a by lia. lra.
  - change (Rsum (fun i => D i + E i) a (S (S m)))
      with ((D a + E a) + Rsum (fun i => D i + E i) (S a) (S m)).
    rewrite IH. simpl. replace (S (a + m)) with (a + S m)%nat by lia. lra.
Qed.

(** A single 1 at index [a] picks the term of index [a]. *)
Lemma Rsum_indicator (x : nat -> R) (b : nat -> R) (a lo m : nat) :
  (lo <= a < lo + m)%nat ->
  (forall i, (lo <= i < lo + m)%nat -> b i = if decide (i = a) then 1 else 0) ->
  Rsum (fun i => b i * x i) lo m = x a.
Proof.
  revert lo. induction m as [|m IH]; intros lo Ha Hb; [lia|]. simpl.
  rewrite Hb by lia. destruct (decide (lo = a)) as [->|Hne].
  - rewrite Rsum_zero; [lra|]. intros i Hi. rewrite Hb by lia.
    rewrite decide_False by lia. lra.
  - rewrite IH; [lra | lia |]. intros i Hi. apply Hb. lia.
Qed.

(** The first order values over [a .. a+m-1] add up to the test of
    [knots[a] <= t < knots[a+m]]: exactly one span holds [t]. *)
Lemma first_order_sum (ks : list R) (t : R) (npc a m : nat) :
  sorted_knots ks npc -> (1 <= a)%nat -> (a + m <= npc)%nat ->
  Rsum (cox ks t 0) a m
  = if Rleb (at_ ks a) t && Rltb t (at_ ks (a + m)) then 1 else 0.
Proof.
  intros Hs Ha. induction m as [|m IH]; intros Hm.
  - simpl. replace (a + 0)%nat with a by lia.
    destruct (Rleb _ _) eqn:Hle; [|done]. destruct (Rltb _ _) eqn:Hlt; [|done].
    apply Rleb_true in Hle. apply Rltb_true in Hlt. lra.
  - rewrite Rsum_snoc, IH by lia. rewrite cox_0.
    replace (a + m + 1)%nat with (a + S m)%nat by lia.
    pose proof (sorted_knots_le ks npc a (a + m) Hs) as H1.
    pose proof (sorted_knots_le ks npc (a + m) (a + S m) Hs) as H2.
    assert (at_ ks a <= at_ ks (a + m)) as Hle1 by (apply H1; lia).
    destruct (decide (m = 0)%nat) as [->|Hm0].
    { replace (a + 0)%nat with a by lia.
      destruct (Rleb (at_ ks a) t) eqn:E1; cbn [andb];
        destruct (Rltb t (at_ ks a)) eqn:E2;
        destruct (Rltb t (at_ ks (a + 1))) eqn:E3; try lra;
        apply Rleb_true in E1 || apply Rleb_false in E1;
        apply Rltb_true in E2 || apply Rltb_false in E2; lra. }
    assert (at_ ks (a + m) <= at_ ks (a + S m)) as Hle2 by (apply H2; lia).
    destruct (Rleb (at_ ks a) t) eqn:E1;
      destruct (Rltb t (at_ ks (a + m))) eqn:E2;
      destruct (Rleb (at_ ks (a + m)) t) eqn:E3;
      destruct (Rltb t (at_ ks (a + S m))) eqn:E4; cbn [andb]; try lra;
      (apply Rleb_true in E1 || apply Rleb_false in E1);
      (apply Rltb_true in E2 || apply Rltb_false in E2);
      (apply Rleb_true in E3 || apply Rleb_false in E3);
      (apply Rltb_true in E4 || apply Rltb_false in E4); lra.
Qed.

(** The right term at [i] and the left term at [i + 1] share the value of
    the lower order at [i + 1] and add up to it. *)
Lemma cox_pair (ks : list R) (t : R) (npc j i : nat) :
  sorted_knots ks npc -> (1 <= i)%nat -> (i + j + 2 <= npc)%nat ->
  right_part ks t j i (cox ks t j (i + 1))
  + left_part ks t j (S i) (cox ks t j (S i))
  = cox ks t j (S i).
Proof.
  intros Hs Hi Hn. replace (i + 1)%nat with (S i) by lia.
  destruct (Req_dec_T (cox ks t j (S i)) 0) as [Hz|Hnz].
  - rewrite Hz, left_part_zero, right_part_zero. lra.
  - destruct (cox_support ks t npc Hs j (S i)) as [Hlo Hhi]; [lia | lia | done |].
    unfold left_part, right_part. rewrite !guarded_nonzero by done.
    replace (S i + j + 1)%nat with (i + j + 2)%nat in * by lia.
    replace (i + 1)%nat with (S i) by lia.
    change (fsub (F:=R)) with Rminus. change (fmul (F:=R)) with Rmult.
    revert Hlo Hhi Hnz.
    generalize (at_ ks (i + j + 2)) (at_ ks (S i)) (cox ks t j (S i)).
    intros hi lo c Hlo Hhi Hnz. field. lra.
Qed.

(** The values of order [j + 1] over the indices [k-j .. n] add up to 1
    for [knots[k] <= t < knots[n+1]]. *)
Lemma cox_sum (ks : list R) (t : R) (n k : nat) :
  sorted_knots ks (n + k) ->
  at_ ks k <= t < at_ ks (n + 1) ->
  forall j, (j + 1 <= k)%nat ->
    Rsum (cox ks t j) (k - j) (n + 1 - (k - j)) = 1.
Proof.
  intros Hs [Hlo Hhi].
  assert (k <= n)%nat as Hkn.
  { destruct (decide (k <= n)%nat) as [|Hgt]; [done|].
    destruct (decide (k = 0)%nat) as [->|Hk0]; [lia|].
    exfalso.
    assert (at_ ks (n + 1) <= at_ ks k)
      by (apply (sorted_knots_le ks (n + k)); [done | lia | lia | lia]).
    lra. }
  induction j as [|j IH]; intros Hj.
  - rewrite (first_order_sum ks t (n + k)) by (done || lia).
    replace (k - 0 + (n + 1 - (k - 0)))%nat with (n + 1)%nat by lia.
    replace (k - 0)%nat with k by lia.
    rewrite (proj2 (Rleb_true _ _) Hlo), (proj2 (Rltb_true _ _) Hhi). done.
  - replace (n + 1 - (k - S j))%nat with (S (n - (k - S j))) by lia.
    rewrite (Rsum_ext _ (fun i => left_part ks t j i (cox ks t j i)
                                  + right_part ks t j i (cox ks t j (i + 1))))
      by done.
    rewrite (Rsum_regroup (fun i => left_part ks t j i (cox ks t j i))
                          (fun i => right_part ks t j i (cox ks t j (i + 1)))).
    (* the first left term and the last right term vanish *)
    assert (cox ks t j (k - S j) = 0) as Hfirst.
    { destruct (Req_dec_T (cox ks t j (k - S j)) 0) as [|Hnz]; [done|].
      destruct (cox_support ks t (n + k) Hs j (k - S j)) as [_ Hup];
        [lia | lia | done |].
      replace (k - S j + j + 1)%nat with k in Hup by lia. lra. }
    assert (cox ks t j (k - S j + (n - (k - S j)) + 1) = 0) as Hlast.
    { replace (k - S j + (n - (k - S j)) + 1)%nat with (n + 1)%nat by lia.
      destruct (Req_dec_T (cox ks t j (n + 1)) 0) as [|Hnz]; [done|].
      destruct (cox_support ks t (n + k) Hs j (n + 1)) as [Hdown _];
        [lia | lia | done |]. lra. }
    rewrite Hfirst, Hlast, left_part_zero, right_part_zero.
    rewrite (Rsum_ext _ (fun i => cox ks t j (S i))).
    2:{ intros i Hi. apply (cox_pair ks t (n + k)); [done | lia | lia]. }
    rewrite Rsum_shift.
    replace (S (k - S j)) with (k - j)%nat by lia.
    replace (n - (k - S j))%nat with (n + 1 - (k - j))%nat by lia.
    rewrite IH by lia. lra.
Qed.

End Unity.

Section UnityOfBasis.

Open Scope R_scope.

Lemma at_stage (ks : list R) (t : R) (npc k i : nat) :
  (1 <= i)%nat -> (i < npc)%nat ->
  at_ (stage ks t npc k) i = cox ks t (Nat.min k (npc - i) - 1) i.
Proof. intros Hi Hn. apply at_lookup. by apply lookup_stage. Qed.

Lemma py_sum_stage (ks : list R) (t : R) (npc k : nat) :
  py_sum (stage ks t npc k)
  = Rsum (fun i => cox ks t (Nat.min k (npc - i) - 1) i) 1 (npc - 1).
Proof.
  unfold stage. rewrite py_sum_cons, py_sum_map_seq. cbn. lra.
Qed.

(** On non-decreasing knots, left of [knots[n+1]], the value form returns
    the buffer of closed-form values untouched by the fix-up. *)
Lemma BSpline_basis_interior (c : curve) (t : R) :
  nplusc c = (_cp_count c + order c)%nat ->
  (1 <= order c)%nat ->
  (nplusc c + 1 <= length (knots c))%nat ->
  sorted_knots (knots c) (nplusc c) ->
  t < at_ (knots c) (_cp_count c + 1) ->
  BSpline_basis c t = Ok (stage (knots c) t (nplusc c) (order c)).
Proof.
  intros Hnpc Hk Hl Hs Hhi. unfold BSpline_basis.
  rewrite basis_recursion_total_real by done. cbn [bind].
  rewrite py_get_at by lia. cbn [bind].
  assert (at_ (knots c) (_cp_count c + 1) <= at_ (knots c) (nplusc c)) as Hle
    by (apply (sorted_knots_le _ (nplusc c)); [done | lia | lia | lia]).
  assert (feqb t (at_ (knots c) (nplusc c)) = false) as ->; [|done].
  apply Reqb_false. lra.
Qed.

(** All entries of the buffer together add up to 1 for
    [knots[k] <= t < knots[n+1]]: those above [n] vanish there. *)
Lemma stage_total_one (ks : list R) (t : R) (n k : nat) :
  (1 <= k)%nat ->
  sorted_knots ks (n + k) ->
  at_ ks k <= t < at_ ks (n + 1) ->
  Rsum (fun i => cox ks t (Nat.min k (n + k - i) - 1) i) 1 (n + k - 1) = 1.
Proof.
  intros Hk Hs [Hlo Hhi].
  assert (k <= n)%nat as Hkn.
  { destruct (decide (k <= n)%nat) as [|Hgt]; [done|]. exfalso.
    assert (at_ ks (n + 1) <= at_ ks k)
      by (apply (sorted_knots_le _ (n + k)); [done | lia | lia | lia]).
    lra. }
  replace (n + k - 1)%nat with (n + (k - 1))%nat by lia.
  rewrite Rsum_app.
  rewrite (Rsum_ext _ (cox ks t (k - 1)) 1 n).
  2:{ intros i Hi. f_equal. lia. }
  pose proof (cox_sum ks t n k Hs (conj Hlo Hhi) (k - 1)) as Hc.
  replace (k - (k - 1))%nat with 1%nat in Hc by lia.
  replace (n + 1 - 1)%nat with n in Hc by lia.
  rewrite Hc by lia.
  rewrite Rsum_zero; [lra|].
  intros i Hi.
  destruct (Req_dec_T (cox ks t (Nat.min k (n + k - i) - 1) i) 0) as [|Hnz];
    [done|].
  destruct (cox_support ks t (n + k) Hs (Nat.min k (n + k - i) - 1) i)
    as [Hdown _]; [lia | lia | exact Hnz |].
  assert (at_ ks (n + 1) <= at_ ks i)
    by (apply (sorted_knots_le _ (n + k)); [done | lia | lia | lia]).
  lra.
Qed.

End UnityOfBasis.

(** ** Rounded arithmetic: how far roundings move a result *)

Section DriftFacts.

Open Scope R_scope.

Variable u : R.
Hypothesis Hu : 0 <= u < 1.

Lemma rho_ge_1 : 1 <= (1 + u) / (1 - u).
Proof using Hu.
  apply (Rmult_le_reg_r (1 - u)); [lra|].
  unfold Rdiv. rewrite Rmult_assoc, Rinv_l by lra. lra.
Qed.

Lemma drift_ge_1 (m : nat) : 1 <= drift u m.
Proof using Hu. unfold drift. apply pow_R1_Rle, rho_ge_1. Qed.

Lemma drift_pos (m : nat) : 0 < drift u m.
Proof using Hu. pose proof (drift_ge_1 m). lra. Qed.

Lemma drift_S (m : nat) : drift u (S m) = drift u m * ((1 + u) / (1 - u)).
Proof. unfold drift. simpl. ring. Qed.

Lemma drift_le (m m' : nat) : (m <= m')%nat -> drift u m <= drift u m'.
Proof using Hu. intros Hm. unfold drift. apply Rle_pow; [apply rho_ge_1 | done]. Qed.

Lemma inv_drift_le_1 (m : nat) : / drift u m <= 1.
Proof using Hu.
  rewrite <- Rinv_1. apply Rinv_le_contravar; [lra | apply drift_ge_1].
Qed.

Lemma Rabs_bound (d : R) : Rabs d <= u -> - u <= d <= u.
Proof. unfold Rabs. destruct (Rcase_abs d); lra. Qed.

Lemma round_factor (d : R) :
  Rabs d <= u -> / ((1 + u) / (1 - u)) <= 1 + d <= (1 + u) / (1 - u).
Proof using Hu.
  intros Hd. apply Rabs_bound in Hd. rewrite Rinv_div. split.
  - apply Rle_trans with (1 - u); [|lra].
    apply (Rmult_le_reg_r (1 + u)); [lra|].
    unfold Rdiv. rewrite Rmult_assoc, Rinv_l by lra. nra.
  - apply Rle_trans with (1 + u); [lra|].
    apply (Rmult_le_reg_r (1 - u)); [lra|].
    unfold Rdiv. rewrite Rmult_assoc, Rinv_l by lra. nra.
Qed.

Lemma round_factor_inv (d : R) :
  Rabs d <= u -> / ((1 + u) / (1 - u)) <= / (1 + d) <= (1 + u) / (1 - u).
Proof using Hu.
  intros Hd. apply Rabs_bound in Hd. rewrite Rinv_div. split.
  - apply Rle_trans with (/ (1 + u)).
    + unfold Rdiv. rewrite <- (Rmult_1_l (/ (1 + u))) at 2.
      apply Rmult_le_compat_r; [|lra].
      apply Rlt_le, Rinv_0_lt_compat. lra.
    + apply Rinv_le_contravar; lra.
  - apply Rle_trans with (/ (1 - u)).
    + apply Rinv_le_contravar; lra.
    + unfold Rdiv. rewrite <- (Rmult_1_l (/ (1 - u))) at 1.
      apply Rmult_le_compat_r; [|lra].
      apply Rlt_le, Rinv_0_lt_compat. lra.
Qed.

Lemma near_refl (x : R) : near u 0 x x.
Proof. exists 1. unfold drift. simpl. rewrite Rinv_1. split; [lra | ring]. Qed.

Lemma near_zero (m : nat) : near u m 0 0.
Proof using Hu.
  exists 1. split; [|ring].
  pose proof (drift_ge_1 m). pose proof (inv_drift_le_1 m). lra.
Qed.

Lemma near_mono (m m' : nat) (x y : R) :
  (m <= m')%nat -> near u m x y -> near u m' x y.
Proof using Hu.
  intros Hm (f & [Hlo Hhi] & ->). exists f. split; [|done]. split.
  - apply Rle_trans with (/ drift u m); [|done].
    apply Rinv_le_contravar; [apply drift_pos | by apply drift_le].
  - apply Rle_trans with (drift u m); [done | by apply drift_le].
Qed.

Lemma near_step (m : nat) (x y g : R) :
  near u m x y ->
  / ((1 + u) / (1 - u)) <= g <= (1 + u) / (1 - u) ->
  near u (S m) (x * g) y.
Proof using Hu.
  intros (f & [Hlo Hhi] & ->) [Hg1 Hg2]. exists (f * g). split; [|ring].
  rewrite drift_S, Rinv_mult.
  pose proof (drift_pos m). pose proof rho_ge_1.
  assert (0 < / drift u m) by (by apply Rinv_0_lt_compat).
  assert (0 < / ((1 + u) / (1 - u))) by (apply Rinv_0_lt_compat; lra).
  split; apply Rmult_le_compat; lra.
Qed.

Lemma near_scale (m : nat) (x y c : R) :
  near u m x y -> near u m (c * x) (c * y).
Proof. intros (f & Hf & ->). exists f. split; [done | ring]. Qed.

Lemma near_zero_iff (m : nat) (x y : R) : near u m x y -> (x = 0 <-> y = 0).
Proof using Hu.
  intros (f & [Hlo _] & ->).
  assert (0 < / drift u m) by (apply Rinv_0_lt_compat, drift_pos).
  split.
  - intros Hz. apply Rmult_integral in Hz as [Hz|Hz]; [done | lra].
  - intros ->. ring.
Qed.

Lemma near_add (m : nat) (x1 y1 x2 y2 : R) :
  0 <= y1 -> 0 <= y2 ->
  near u m x1 y1 -> near u m x2 y2 -> near u m (x1 + x2) (y1 + y2).
Proof using Hu.
  intros H1 H2 (f1 & [L1 U1] & ->) (f2 & [L2 U2] & ->).
  destruct (Req_dec_T (y1 + y2) 0) as [Hz|Hnz].
  - assert (y1 = 0) as -> by lra. assert (y2 = 0) as -> by lra.
    exists 1. split; [|ring].
    pose proof (drift_ge_1 m). pose proof (inv_drift_le_1 m). lra.
  - assert (0 < y1 + y2) as Hpos by lra.
    exists ((y1 * f1 + y2 * f2) / (y1 + y2)). split; [|field; done].
    pose proof (Rmult_le_compat_l y1 _ _ H1 L1).
    pose proof (Rmult_le_compat_l y2 _ _ H2 L2).
    pose proof (Rmult_le_compat_l y1 _ _ H1 U1).
    pose proof (Rmult_le_compat_l y2 _ _ H2 U2).
    split; apply (Rmult_le_reg_r (y1 + y2)); try done;
      unfold Rdiv; rewrite Rmult_assoc, Rinv_l by done; lra.
Qed.

(** A sum that is 1 up to [m] roundings differs from 1 by at most
    [drift u m - 1]. *)
Lemma near_one (m : nat) (x : R) :
  near u m x 1 -> Rabs (x - 1) <= drift u m - 1.
Proof using Hu.
  intros (f & [Hlo Hhi] & ->). rewrite Rmult_1_l.
  pose proof (drift_ge_1 m) as Hd.
  assert (2 - drift u m <= / drift u m) as Hinv.
  { apply (Rmult_le_reg_r (drift u m)); [lra|].
    rewrite Rinv_l by lra. nra. }
  apply Rabs_le. lra.
Qed.

End DriftFacts.

(** ** Rounded arithmetic: the recursion of the value form *)

Section RoundedBasis.

Context {F : Type} `{Arith F}.

Variable val : F -> R.
Variable fin : F -> Prop.
Variable safe : R -> Prop.
Variable u : R.
Hypothesis model : rounding_model val fin safe u.

Lemma at_map_val (ks : list F) (i : nat) : at_ (map val ks) i = val (at_ ks i).
Proof using model.
  unfold at_. cbn [f0 real_arith]. rewrite <- (val_f0 _ _ _ _ model).
  apply map_nth.
Qed.

Lemma rounded_nonzero (x y : R) : rounded u x y -> y <> 0%R -> x <> 0%R.
Proof using model.
  intros (d & Hd & ->) Hy. pose proof (unit_roundoff _ _ _ _ model) as Hu.
  apply (Rabs_bound u Hu) in Hd. intros Hz.
  apply Rmult_integral in Hz as [Hz|Hz]; [done | lra].
Qed.

Lemma feqb_f0 (x : F) : fin x -> (feqb x f0 = true <-> val x = 0%R).
Proof using model.
  intros Hx. rewrite (eqb_exact _ _ _ _ model x f0 Hx (fin_f0 _ _ _ _ model)).
  by rewrite (val_f0 _ _ _ _ model).
Qed.

(** The four operations of one guarded term [((p - q) * v) / (hi - lo)]. *)
Lemma term_rounded (p q lo hi v : F) (V : R) (m : nat) :
  fin p -> fin q -> fin lo -> fin hi -> fin v ->
  near u m (val v) V ->
  (val hi - val lo <> 0)%R ->
  term_safe val safe p q lo hi v ->
  fin (fquot (fmul (fsub p q) v) (fsub hi lo))
  /\ near u (m + 4) (val (fquot (fmul (fsub p q) v) (fsub hi lo)))
          ((val p - val q) * V / (val hi - val lo))%R.
Proof using model.
  intros Hp Hq Hlo Hhi Hv Hnear Hw (S1 & S2 & S3 & S4).
  pose proof (unit_roundoff _ _ _ _ model) as Hu.
  destruct (sub_rounded _ _ _ _ model p q Hp Hq S1) as (Fs1 & d1 & Hd1 & Es1).
  destruct (mul_rounded _ _ _ _ model _ v Fs1 Hv S2) as (Fpr & d2 & Hd2 & Epr).
  destruct (sub_rounded _ _ _ _ model hi lo Hhi Hlo S3) as (Fs2 & Rs2).
  pose proof (rounded_nonzero _ _ Rs2 Hw) as Hs2.
  destruct Rs2 as (d3 & Hd3 & Es2).
  destruct (div_rounded _ _ _ _ model _ _ Fpr Fs2 Hs2 S4) as (Fq & d4 & Hd4 & Eq).
  split; [exact Fq|].
  pose proof (near_scale u Hu m _ _ ((val p - val q) / (val hi - val lo))%R Hnear)
    as N0.
  pose proof (near_step u Hu _ _ _ _ N0 (round_factor u Hu d1 Hd1)) as N1.
  pose proof (near_step u Hu _ _ _ _ N1 (round_factor u Hu d2 Hd2)) as N2.
  pose proof (near_step u Hu _ _ _ _ N2 (round_factor_inv u Hu d3 Hd3)) as N3.
  pose proof (near_step u Hu _ _ _ _ N3 (round_factor u Hu d4 Hd4)) as N4.
  replace (m + 4) with (S (S (S (S m)))) by lia.
  destruct N4 as (f & Hf & Ef). exists f. split; [exact Hf|].
  apply (Rabs_bound u Hu) in Hd3.
  transitivity ((val p - val q) / (val hi - val lo) * V * f)%R;
    [|field; done].
  rewrite <- Ef, Eq, Epr, Es1, Es2. field. split; lra.
Qed.

Variable ks : list F.
Variable t : F.
Variable npc k : nat.
Hypothesis fin_t : fin t.
Hypothesis fin_ks : forall i, 1 <= i <= npc -> fin (at_ ks i).
Hypothesis sorted : sorted_knots (map val ks) npc.
Hypothesis safe_ops : ops_safe val safe ks t npc k.

(** Every value the loops hold is a number, and is the exact value of the
    recursion on the exact knots up to five roundings per level. *)
Lemma cox_rounded (j : nat) :
  forall i, j + 1 <= k -> 1 <= i -> i + j + 1 <= npc ->
    fin (cox ks t j i)
    /\ near u (5 * j) (val (cox ks t j i)) (cox (map val ks) (val t) j i).
Proof using model fin_t fin_ks sorted safe_ops.
  pose proof (unit_roundoff _ _ _ _ model) as Hu.
  induction j as [|j IH]; intros i Hj Hi Hn.
  - assert (fin (at_ ks i)) as Fi by (apply fin_ks; lia).
    assert (fin (at_ ks (i + 1))) as Fi1 by (apply fin_ks; lia).
    rewrite cox_0, !at_map_val. cbn [cox].
    pose proof (leb_exact _ _ _ _ model _ _ Fi fin_t) as Hle.
    pose proof (ltb_exact _ _ _ _ model _ _ fin_t Fi1) as Hlt.
    destruct (fleb (at_ ks i) t) eqn:E1.
    + rewrite (proj2 (Rleb_true _ _) (proj1 Hle eq_refl)). cbn [andb].
      destruct (fltb t (at_ ks (i + 1))) eqn:E2.
      * rewrite (proj2 (Rltb_true _ _) (proj1 Hlt eq_refl)).
        split; [apply (fin_f1 _ _ _ _ model)|].
        rewrite (val_f1 _ _ _ _ model). by apply near_refl.
      * rewrite (proj2 (Rltb_false _ _)).
        2:{ intros Hc. apply Hlt in Hc. congruence. }
        split; [apply (fin_f0 _ _ _ _ model)|].
        rewrite (val_f0 _ _ _ _ model). by apply near_refl.
    + rewrite (proj2 (Rleb_false _ _)).
      2:{ intros Hc. apply Hle in Hc. congruence. }
      cbn [andb]. split; [apply (fin_f0 _ _ _ _ model)|].
      rewrite (val_f0 _ _ _ _ model). by apply near_refl.
  - destruct (IH i) as [Fa Na]; [lia | lia | lia |].
    destruct (IH (i + 1)) as [Fb Nb]; [lia | lia | lia |].
    destruct (safe_ops j i) as (Sl & Sr & Ss); [lia | lia | lia |].
    set (a := cox ks t j i) in *. set (b := cox ks t j (i + 1)) in *.
    set (A := cox (map val ks) (val t) j i) in *.
    set (B := cox (map val ks) (val t) j (i + 1)) in *.
    (* the left term *)
    assert (fin (left_part ks t j i a)
            /\ near u (5 * j + 4) (val (left_part ks t j i a))
                    (left_part (map val ks) (val t) j i A)) as [Fl Nl].
    { unfold left_part at 1 2, guarded at 1 2.
      destruct (feqb a f0) eqn:Ea; cbn [negb].
      - apply feqb_f0 in Ea; [|done].
        apply (near_zero_iff u Hu _ _ _ Na) in Ea. rewrite Ea, left_part_zero.
        split; [apply (fin_f0 _ _ _ _ model)|].
        rewrite (val_f0 _ _ _ _ model). by apply near_zero.
      - assert (A <> 0%R) as HA.
        { intros HA. apply (near_zero_iff u Hu _ _ _ Na) in HA.
          apply feqb_f0 in HA; [congruence | done]. }
        destruct (cox_support (map val ks) (val t) npc sorted j i)
          as [Hlo Hhi]; [lia | lia | exact HA |].
        rewrite !at_map_val in Hlo, Hhi.
        unfold left_part. rewrite guarded_nonzero by exact HA.
        rewrite !at_map_val. cbn [fsub fmul real_arith].
        apply term_rounded; try done;
          [apply fin_ks; lia | apply fin_ks; lia | apply fin_ks; lia | lra
          | by apply Sl]. }
    (* the right term *)
    assert (fin (right_part ks t j i b)
            /\ near u (5 * j + 4) (val (right_part ks t j i b))
                    (right_part (map val ks) (val t) j i B)) as [Fr Nr].
    { unfold right_part at 1 2, guarded at 1 2.
      destruct (feqb b f0) eqn:Eb; cbn [negb].
      - apply feqb_f0 in Eb; [|done].
        apply (near_zero_iff u Hu _ _ _ Nb) in Eb. rewrite Eb, right_part_zero.
        split; [apply (fin_f0 _ _ _ _ model)|].
        rewrite (val_f0 _ _ _ _ model). by apply near_zero.
      - assert (B <> 0%R) as HB.
        { intros HB. apply (near_zero_iff u Hu _ _ _ Nb) in HB.
          apply feqb_f0 in HB; [congruence | done]. }
        destruct (cox_support (map val ks) (val t) npc sorted j (i + 1))
          as [Hlo Hhi]; [lia | lia | exact HB |].
        replace (i + 1 + j + 1) with (i + j + 2) in Hhi by lia.
        rewrite !at_map_val in Hlo, Hhi.
        unfold right_part. rewrite guarded_nonzero by exact HB.
        rewrite !at_map_val. cbn [fsub fmul real_arith].
        apply term_rounded; try done;
          [apply fin_ks; lia | apply fin_ks; lia | apply fin_ks; lia | lra
          | by apply Sr]. }
    change (cox ks t (S j) i)
      with (fadd (left_part ks t j i a) (right_part ks t j i b)).
    rewrite cox_S. fold A B.
    destruct (add_rounded _ _ _ _ model _ _ Fl Fr Ss) as (Fs & d & Hd & Es).
    split; [exact Fs|]. rewrite Es.
    replace (5 * S j) with (S (5 * j + 4)) by lia.
    apply (near_step u Hu); [|by apply round_factor].
    apply (near_add u Hu); [| | exact Nl | exact Nr].
    + apply (left_part_nonneg _ _ npc); [done | lia | lia].
    + apply (right_part_nonneg _ _ npc); [done | lia | lia].
Qed.

(** No guard lets a zero denominator through: a value that is not zero has
    a support of positive width, and rounding the width keeps it from
    zero. *)
Lemma spans_nonzero_rounded : spans_nonzero ks t npc k.
Proof using model fin_t fin_ks sorted safe_ops.
  pose proof (unit_roundoff _ _ _ _ model) as Hu.
  intros j i Hj Hi Hn.
  destruct (safe_ops j i) as (Sl & Sr & _); [lia | lia | lia |].
  split; intros Hc.
  - destruct (cox_rounded j i) as [Fa Na]; [lia | lia | lia |].
    assert (cox (map val ks) (val t) j i <> 0%R) as HA.
    { intros HA. apply (near_zero_iff u Hu _ _ _ Na) in HA.
      apply feqb_f0 in HA; [congruence | done]. }
    destruct (cox_support (map val ks) (val t) npc sorted j i)
      as [Hlo Hhi]; [lia | lia | exact HA |].
    rewrite !at_map_val in Hlo, Hhi.
    destruct (Sl Hc) as (_ & _ & S3 & _).
    destruct (sub_rounded _ _ _ _ model (at_ ks (i + j + 1)) (at_ ks i))
      as (Fs & Rs); [apply fin_ks; lia | apply fin_ks; lia | exact S3 |].
    destruct (feqb (fsub (at_ ks (i + j + 1)) (at_ ks i)) f0) eqn:E; [|done].
    apply feqb_f0 in E; [|done].
    exfalso. apply (rounded_nonzero _ _ Rs); [lra | exact E].
  - destruct (cox_rounded j (i + 1)) as [Fb Nb]; [lia | lia | lia |].
    assert (cox (map val ks) (val t) j (i + 1) <> 0%R) as HB.
    { intros HB. apply (near_zero_iff u Hu _ _ _ Nb) in HB.
      apply feqb_f0 in HB; [congruence | done]. }
    destruct (cox_support (map val ks) (val t) npc sorted j (i + 1))
      as [Hlo Hhi]; [lia | lia | exact HB |].
    replace (i + 1 + j + 1) with (i + j + 2) in Hhi by lia.
    rewrite !at_map_val in Hlo, Hhi.
    destruct (Sr Hc) as (_ & _ & S3 & _).
    destruct (sub_rounded _ _ _ _ model (at_ ks (i + j + 2)) (at_ ks (i + 1)))
      as (Fs & Rs); [apply fin_ks; lia | apply fin_ks; lia | exact S3 |].
    destruct (feqb (fsub (at_ ks (i + j + 2)) (at_ ks (i + 1))) f0) eqn:E;
      [|done].
    apply feqb_f0 in E; [|done].
    exfalso. apply (rounded_nonzero _ _ Rs); [lra | exact E].
Qed.

(** [sum] over values that are never negative: one more rounding per
    addition. *)
Lemma sum_rounded (g : nat -> F) (gR : nat -> R) (m0 : nat) :
  forall (m a : nat) (acc : F) (accR : R) (c : nat),
    (forall i, a <= i < a + m ->
       fin (g i) /\ near u m0 (val (g i)) (gR i) /\ (0 <= gR i)%R) ->
    fin acc -> near u (m0 + c) (val acc) accR -> (0 <= accR)%R ->
    sum_safe val safe (map g (seq a m)) acc ->
    near u (m0 + c + m) (val (fold_left fadd (map g (seq a m)) acc))
         (accR + Rsum gR a m)%R.
Proof using model.
  pose proof (unit_roundoff _ _ _ _ model) as Hu.
  induction m as [|m IH]; intros a acc accR c Hg Facc Nacc Hpos Hsafe.
  - simpl. rewrite Rplus_0_r, Nat.add_0_r. exact Nacc.
  - cbn [seq map fold_left Rsum]. destruct Hsafe as [S1 Hsafe].
    destruct (Hg a) as (Fg & Ng & Pg); [lia|].
    destruct (add_rounded _ _ _ _ model _ _ Facc Fg S1) as (Fs & d & Hd & Es).
    replace (m0 + c + S m) with (m0 + S c + m) by lia.
    replace (accR + (gR a + Rsum gR (S a) m))%R
      with (accR + gR a + Rsum gR (S a) m)%R by ring.
    apply IH; [intros i Hi; apply Hg; lia | exact Fs | | lra | exact Hsafe].
    rewrite Es. replace (m0 + S c) with (S (m0 + c)) by lia.
    apply (near_step u Hu); [|by apply round_factor].
    apply (near_add u Hu); [done | done | exact Nacc |].
    apply (near_mono u Hu m0); [lia | exact Ng].
Qed.

(** The sum of the buffer of order [k], as Python's [sum] adds it up. *)
Lemma py_sum_stage_rounded :
  1 <= k -> 1 <= npc ->
  sum_safe val safe (stage ks t npc k) (of_Z 0) ->
  near u (5 * (k - 1) + npc) (val (py_sum (stage ks t npc k)))
       (Rsum (fun i => cox (map val ks) (val t) (Nat.min k (npc - i) - 1) i)
             1 (npc - 1)).
Proof using model fin_t fin_ks sorted safe_ops.
  intros Hk Hnpc [S0 Hsafe].
  pose proof (unit_roundoff _ _ _ _ model) as Hu.
  destruct (add_rounded _ _ _ _ model _ _ (fin_int0 _ _ _ _ model)
              (fin_f0 _ _ _ _ model) S0) as (F0 & d & Hd & E0).
  rewrite (val_int0 _ _ _ _ model), (val_f0 _ _ _ _ model) in E0.
  unfold py_sum, stage. cbn [fold_left].
  replace (5 * (k - 1) + npc) with (5 * (k - 1) + 1 + (npc - 1)) by lia.
  rewrite <- (Rplus_0_l (Rsum _ 1 (npc - 1))).
  apply (sum_rounded (fun i => cox ks t (Nat.min k (npc - i) - 1) i)); try done.
  - intros i Hi.
    destruct (cox_rounded (Nat.min k (npc - i) - 1) i) as [Fc Nc];
      [lia | lia | lia |].
    split; [exact Fc|]. split.
    + apply (near_mono u Hu (5 * (Nat.min k (npc - i) - 1))); [lia | exact Nc].
    + apply (cox_nonneg _ _ npc); [done | lia | lia].
  - rewrite E0. replace ((0 + 0) * (1 + d))%R with 0%R by ring.
    by apply near_zero.
Qed.

End RoundedBasis.

(** Exact arithmetic follows the model, for every unit roundoff, without any
    rounding. *)
Lemma exact_rounding_model (u : R) :
  (0 <= u < 1)%R ->
  rounding_model (F:=R) (fun x => x) (fun _ => True) (fun _ => True) u.
Proof.
  intros Hu.
  assert (forall x : R, rounded u x x) as Hexact.
  { intros x. exists 0%R. split; [rewrite Rabs_R0; lra | ring]. }
  constructor; try done; intros x y _ _; try (intros _); try (intros _);
    try (split; [exact I | apply Hexact]).
  - apply Reqb_true.
  - apply Rltb_true.
  - apply Rleb_true.
Qed.

Lemma sum_safe_exact {F : Type} `{Arith F} (val : F -> R) (xs : list F) :
  forall acc, sum_safe val (fun _ => True) xs acc.
Proof. induction xs as [|x xs IH]; intros acc; simpl; [done|]. split; [done|apply IH]. Qed.


(** C5 (counterexample).  Five control points, order 2, uniform knots
    0, 1, .., 6 behind the placeholder.  [t = 0.5] lies in
    [knots[k-1], knots[n+1]) = [0, 5), and the basis vector sums to 0.5.
    (Reading the bounds as indices into the knots without the placeholder,
    the interval is [knots[k], knots[n+2]) = [1, 6); there [t = 5.5] gives
    the sum 1.5.) *)
Lemma basis_sum_below_first_span :
  exists c nb nb',
    BSpline_init BSplineU
      [mkVector 0 0 0; mkVector 1 1 0; mkVector 2 0 0; mkVector 3 3 3;
       mkVector 4 4 4]%float 2 None = Ok c
    /\ non_decreasing (knots c) = true
    /\ at_ (knots c) (order c - 1) = 0%float
    /\ at_ (knots c) (_cp_count c + 1) = 5%float
    /\ basis c 0.5%float = Ok nb
    /\ py_sum nb = 0.5%float
    /\ at_ (knots c) (order c) = 1%float
    /\ at_ (knots c) (_cp_count c + 2) = 6%float
    /\ basis c 5.5%float = Ok nb'
    /\ py_sum nb' = 1.5%float.
Proof.
  eexists. eexists. eexists. split; [vm_compute; reflexivity|].
  do 3 (split; [vm_compute; reflexivity|]).
  split; [vm_compute; reflexivity|].
  do 3 (split; [vm_compute; reflexivity|]).
  split; vm_compute; reflexivity.
Qed.

(** C5 (the tolerance).  In binary64 the sum is not always 1.0: on five
    control points with order 4 and default knots, the basis vector at the
    double nearest to 0.1 sums to the double next above 1.0. *)
Lemma basis_sum_binary64_rounds :
  exists c nb,
    BSpline_init BSpline
      [mkVector 0 0 0; mkVector 1 1 0; mkVector 2 0 0; mkVector 3 3 3;
       mkVector 4 4 4]%float 4 None = Ok c
    /\ basis c 0x1.999999999999ap-4%float = Ok nb
    /\ py_sum nb = 0x1.0000000000001p+0%float.
Proof.
  eexists. eexists. split; [vm_compute; reflexivity|].
  split; vm_compute; reflexivity.
Qed.

(** C5 (amended).  For every non-rational curve with order k >= 1 whose
    knots are numbers and non-decreasing, [knots[1] <= .. <= knots[n+k]],
    and every number [t] with [knots[k] <= t < knots[n+1]] (indices as in
    the code): in every arithmetic that follows the standard model of
    rounding with unit roundoff [u], when no operation of the run
    overflows or underflows, [basis(t)] returns and the sum of the vector it
    returns is 1 within the tolerance [((1 + u) / (1 - u)) ^ (5 (k-1) + n + k) - 1],
    five roundings for each level of the recursion and one for each
    addition of the sum.  In exact arithmetic ([u = 0]) the sum is 1. *)
Theorem partition_of_unity {F : Type} `{Arith F} (val : F -> R) (fin : F -> Prop)
    (safe : R -> Prop) (u : R) (c : curve) (t : F) :
  rounding_model val fin safe u ->
  well_formed c ->
  rational (cls c) = false ->
  1 <= order c ->
  nplusc c + 1 <= length (knots c) ->
  fin t ->
  (forall i, 1 <= i <= nplusc c -> fin (at_ (knots c) i)) ->
  sorted_knots (map val (knots c)) (nplusc c) ->
  (val (at_ (knots c) (order c)) <= val t
   < val (at_ (knots c) (_cp_count c + 1)))%R ->
  ops_safe val safe (knots c) t (nplusc c) (order c) ->
  (forall nb, basis c t = Ok nb -> sum_safe val safe nb (of_Z 0)) ->
  exists nb,
    basis c t = Ok nb
    /\ (Rabs (val (py_sum nb) - 1)
        <= drift u (5 * (order c - 1) + nplusc c) - 1)%R.
Proof.
  intros model [Hnpc _] Hrat Hk Hl Ft Fks Hs [Hlo Hhi] Hops Hsum.
  pose proof (unit_roundoff _ _ _ _ model) as Hu.
  assert (basis c t = Ok (stage (knots c) t (nplusc c) (order c))) as Hb.
  { unfold basis. rewrite Hrat. unfold BSpline_basis.
    rewrite basis_recursion_stage;
      [| done | done | by apply (spans_nonzero_rounded val fin safe u)].
    cbn [bind]. rewrite py_get_at by lia. cbn [bind].
    assert (feqb t (at_ (knots c) (nplusc c)) = false) as ->; [|done].
    destruct (feqb t (at_ (knots c) (nplusc c))) eqn:E; [|done].
    apply (eqb_exact _ _ _ _ model) in E; [| done | apply Fks; lia].
    exfalso.
    assert (val (at_ (knots c) (_cp_count c + 1))
            <= val (at_ (knots c) (nplusc c)))%R.
    { rewrite <- !(at_map_val val fin safe u model).
      apply (sorted_knots_le _ (nplusc c)); [done | lia | lia | lia]. }
    lra. }
  exists (stage (knots c) t (nplusc c) (order c)). split; [exact Hb|].
  apply (near_one u Hu).
  assert (Rsum (fun i => cox (map val (knots c)) (val t)
                           (Nat.min (order c) (nplusc c - i) - 1) i)
               1 (nplusc c - 1) = 1%R) as Hone.
  { rewrite Hnpc. apply stage_total_one; [done | by rewrite <- Hnpc |].
    by rewrite !(at_map_val val fin safe u model). }
  rewrite <- Hone.
  apply (py_sum_stage_rounded val fin safe u model); try done; [lia|].
  by apply Hsum.
Qed.

(** A linear open curve on three points at [t = 1/2], in the exact
    instance of the model, with the unit roundoff [2^-53] of binary64. *)
Lemma partition_of_unity_witness :
  let c := mkCurve BSpline
             [null_vector; mkVector 0 0 0; mkVector 1 1 0; mkVector 2 0 0]%R
             3 2 5 [0; 0; 0; 1; 2; 2]%R [] in
  let u := (/ 9007199254740992)%R in
  exists nb,
    basis c (1 / 2)%R = Ok nb
    /\ (Rabs (py_sum nb - 1) <= drift u 10 - 1)%R.
Proof.
  intros c u.
  apply (partition_of_unity (fun x => x) (fun _ => True) (fun _ => True) u c
                            (1 / 2)%R).
  - apply exact_rounding_model. unfold u. lra.
  - split; reflexivity.
  - reflexivity.
  - simpl. lia.
  - simpl. lia.
  - exact I.
  - intros i _. exact I.
  - intros i Hi1 Hi2.
    destruct i as [|[|[|[|[|i]]]]]; simpl in Hi2; try lia; cbn; lra.
  - cbn. lra.
  - intros j i _ _ _. unfold term_safe. tauto.
  - intros nb _. apply sum_safe_exact.
Defined.

(** ** Open-uniform curves interpolate their end points *)

Section Endpoints.

Open Scope R_scope.

Lemma at_app_l (x : list R) (v : R) (i : nat) :
  (i < length x)%nat -> at_ (x ++ [v]) i = at_ x i.
Proof. intros Hi. unfold at_. by rewrite app_nth1. Qed.

Lemma at_app_last (x : list R) (v : R) : at_ (x ++ [v]) (length x) = v.
Proof. unfold at_. rewrite app_nth2 by lia. by rewrite Nat.sub_diag. Qed.

Lemma open_uniform_knot_next (n k a : nat) :
  (1 <= a)%nat ->
  open_uniform_knot n k a
  = if (k <? a)%nat && (a <? n + 2)%nat
    then open_uniform_knot n k (a - 1) + 1
    else open_uniform_knot n k (a - 1).
Proof.
  intros Ha. unfold open_uniform_knot.
  destruct (Nat.ltb_spec k a) as [E1|E1];
    destruct (Nat.ltb_spec a (n + 2)) as [E2|E2]; cbn [andb].
  - replace (Nat.min a (n + 1) - k)%nat
      with (S (Nat.min (a - 1) (n + 1) - k)) by lia.
    by rewrite S_INR.
  - f_equal. lia.
  - f_equal. lia.
  - f_equal. lia.
Qed.

Lemma open_uniform_loop_real (n k m a : nat) (x : list R) :
  length x = a -> (1 <= a)%nat ->
  (forall i, (i < a)%nat -> at_ x i = open_uniform_knot n k i) ->
  exists x',
    foldM (fun i x =>
             let* prev := py_get x (i - 1) in
             if (k <? i)%nat && (i <? n + 2)%nat
             then Ok (x ++ [fadd prev f1])
             else Ok (x ++ [prev]))
          (seq a m) x = Ok x'
    /\ length x' = (a + m)%nat
    /\ forall i, (i < a + m)%nat -> at_ x' i = open_uniform_knot n k i.
Proof.
  revert a x. induction m as [|m IH]; intros a x Hlen Ha Hx; cbn [seq foldM].
  - exists x. split; [done|]. split; [lia|]. intros i Hi. apply Hx. lia.
  - rewrite py_get_at by lia. cbn [bind].
    pose proof (open_uniform_knot_next n k a Ha) as Hnext.
    rewrite <- (Hx (a - 1)%nat) in Hnext by lia.
    set (v := if (k <? a)%nat && (a <? n + 2)%nat
              then fadd (at_ x (a - 1)) f1 else at_ x (a - 1)).
    assert (v = open_uniform_knot n k a) as Hv.
    { subst v. rewrite Hnext. by destruct (_ && _). }
    destruct (IH (S a) (x ++ [v])) as (x' & Hx' & Hl' & Hat).
    { rewrite length_app. simpl. lia. }
    { lia. }
    { intros i Hi. destruct (decide (i = a)) as [->|Hne].
      - rewrite <- Hlen at 1. by rewrite at_app_last.
      - rewrite at_app_l by lia. apply Hx. lia. }
    exists x'. split; [|split; [lia|]].
    + rewrite <- Hx'. subst v. by destruct (_ && _).
    + intros i Hi. apply Hat. lia.
Qed.

(** The default knots of the open classes, in exact arithmetic. *)
Lemma knot_open_uniform_real (n k : nat) :
  (1 <= k)%nat ->
  exists ks : list R,
    knot_open_uniform n k = Ok ks
    /\ length ks = (n + k + 1)%nat
    /\ forall i, (i <= n + k)%nat -> at_ ks i = open_uniform_knot n k i.
Proof.
  intros Hk. unfold knot_open_uniform, range.
  destruct (open_uniform_loop_real n k (n + k + 1 - 2) 2 [f0; f0])
    as (ks & Hks & Hl & Hat); [done | lia | |].
  { intros i Hi. unfold open_uniform_knot.
    destruct i as [|[|i]]; [| |lia].
    - cbn. done.
    - replace (Nat.min 1 (n + 1) - k)%nat with 0%nat by lia. done. }
  exists ks. split; [done|]. split; [lia|]. intros i Hi. apply Hat. lia.
Qed.

Lemma open_uniform_knot_mono (n k i : nat) :
  open_uniform_knot n k i <= open_uniform_knot n k (i + 1).
Proof. unfold open_uniform_knot. apply le_INR. lia. Qed.

Lemma open_uniform_knot_low (n k i : nat) :
  (i <= k)%nat -> open_uniform_knot n k i = 0.
Proof.
  intros Hi. unfold open_uniform_knot.
  replace (Nat.min i (n + 1) - k)%nat with 0%nat by lia. done.
Qed.

Lemma open_uniform_knot_high (n k i : nat) :
  (k < i)%nat -> (k <= n)%nat -> 1 <= open_uniform_knot n k i.
Proof.
  intros Hi Hn. unfold open_uniform_knot.
  change 1 with (INR 1). apply le_INR. lia.
Qed.

Lemma open_uniform_knot_first_step (n k : nat) :
  (k <= n)%nat -> open_uniform_knot n k (k + 1) = 1.
Proof.
  intros Hn. unfold open_uniform_knot.
  replace (Nat.min (k + 1) (n + 1) - k)%nat with 1%nat by lia. done.
Qed.

End Endpoints.

Section EndpointValues.

Open Scope R_scope.

(** At [t = 0] on open-uniform knots, the only non-zero value of order
    [j + 1] is a 1 at index [k - j]. *)
Lemma cox_at_start (ks : list R) (n k : nat) :
  (1 <= k)%nat -> (k <= n)%nat ->
  (forall i, (i <= n + k)%nat -> at_ ks i = open_uniform_knot n k i) ->
  forall j, (j + 1 <= k)%nat ->
  forall i, (1 <= i)%nat -> (i + j + 1 <= n + k)%nat ->
    cox ks 0 j i = if decide (i = k - j)%nat then 1 else 0.
Proof.
  intros Hk Hkn Hat. induction j as [|j IH]; intros Hj i Hi Hn.
  - rewrite cox_0, !Hat by lia. replace (k - 0)%nat with k by lia.
    destruct (decide (i = k)) as [->|Hne].
    + rewrite open_uniform_knot_low, open_uniform_knot_first_step by lia.
      rewrite (proj2 (Rleb_true 0 0)) by lra.
      rewrite (proj2 (Rltb_true 0 1)) by lra. done.
    + destruct (decide (i < k)%nat) as [Hlt|Hge].
      * rewrite !open_uniform_knot_low by lia.
        rewrite (proj2 (Rltb_false 0 0)) by lra. by rewrite andb_false_r.
      * pose proof (open_uniform_knot_high n k i) as Hhigh.
        rewrite (proj2 (Rleb_false (open_uniform_knot n k i) 0)); [done|].
        assert (1 <= open_uniform_knot n k i) by (apply Hhigh; lia). lra.
  - rewrite cox_S, (IH ltac:(lia) i), (IH ltac:(lia) (i + 1)%nat) by lia.
    destruct (decide (i = k - j)%nat) as [->|Hne].
    + (* the left term carries a zero numerator *)
      rewrite decide_False by lia. rewrite decide_False by lia.
      rewrite right_part_zero.
      unfold left_part. rewrite guarded_nonzero by lra.
      rewrite (Hat (k - j)%nat), open_uniform_knot_low by lia.
      cbn. unfold Rdiv. lra.
    + rewrite left_part_zero.
      destruct (decide (i + 1 = k - j)%nat) as [Heq|Hne'].
      * rewrite decide_True by lia.
        unfold right_part. rewrite guarded_nonzero by lra.
        rewrite !Hat by lia.
        replace (i + j + 2)%nat with (k + 1)%nat by lia.
        rewrite open_uniform_knot_first_step, open_uniform_knot_low by lia.
        cbn. field.
      * rewrite decide_False by lia. rewrite right_part_zero. lra.
Qed.

(** At the last knot every first order test fails, and the guards keep all
    higher orders at zero. *)
Lemma cox_at_end (ks : list R) (npc : nat) :
  sorted_knots ks npc ->
  forall j i, (1 <= i)%nat -> (i + j + 1 <= npc)%nat ->
    cox ks (at_ ks npc) j i = 0.
Proof.
  intros Hs. induction j as [|j IH]; intros i Hi Hn.
  - rewrite cox_0.
    assert (at_ ks (i + 1) <= at_ ks npc) as Hle
      by (apply (sorted_knots_le ks npc); [done | lia | lia | lia]).
    rewrite (proj2 (Rltb_false (at_ ks npc) (at_ ks (i + 1)))) by lra.
    by rewrite andb_false_r.
  - rewrite cox_S, (IH i), (IH (i + 1)%nat) by lia.
    rewrite left_part_zero, right_part_zero. lra.
Qed.

Lemma weighted_point_sum_indicator (nb : list R) (cps : list Vector)
    (proj : Vector -> R) (n a : nat) :
  (1 <= a <= n)%nat ->
  (forall i, (1 <= i <= n)%nat -> at_ nb i = if decide (i = a) then 1 else 0) ->
  weighted_point_sum nb cps proj n = proj (nth a cps null_vector).
Proof.
  intros Ha Hnb. unfold weighted_point_sum, range.
  rewrite py_sum_map_seq.
  apply (Rsum_indicator (fun i => proj (nth i cps null_vector)) (at_ nb) a);
    [lia|].
  intros i Hi. apply Hnb. lia.
Qed.

(** The value form at the last knot of non-decreasing knots: all zero but
    the forced [basis[n] = 1]. *)
Lemma BSpline_basis_right_end (c : curve) :
  nplusc c = (_cp_count c + order c)%nat ->
  (1 <= order c)%nat -> (1 <= _cp_count c)%nat ->
  (nplusc c + 1 <= length (knots c))%nat ->
  sorted_knots (knots c) (nplusc c) ->
  exists nb,
    BSpline_basis c (at_ (knots c) (nplusc c)) = Ok nb
    /\ forall i, (1 <= i <= _cp_count c)%nat ->
         at_ nb i = if decide (i = _cp_count c) then 1 else 0.
Proof.
  intros Hnpc Hk Hn1 Hl Hs.
  set (t := at_ (knots c) (nplusc c)).
  destruct (BSpline_basis_fixup c t (stage (knots c) t (nplusc c) (order c)))
    as [Hb _]; [done | done | done | | |].
  { by apply basis_recursion_total_real. }
  { by apply Reqb_true. }
  eexists. split; [exact Hb|]. intros i Hi. apply at_lookup.
  destruct (decide (i = _cp_count c)) as [->|Hne].
  - apply list_lookup_insert_eq. rewrite length_stage. lia.
  - rewrite list_lookup_insert_ne by done. rewrite lookup_stage by lia.
    f_equal. apply (cox_at_end (knots c) (nplusc c)); [done | lia | lia].
Qed.

End EndpointValues.

(** C7.  In exact arithmetic, for every open-uniform curve (a [BSpline] with
    default knots) on n control points with order k, n >= k >= 2: [max_t] is
    n - k + 1, [point(0)] is the first control point and [point(max_t)] is
    the last control point. *)
Theorem open_uniform_endpoints (cps : list (@Vector R)) (k : nat) :
  2 <= k ->
  k <= length cps ->
  exists c mt,
    BSpline_init BSpline cps k None = Ok c
    /\ max_t c = Ok mt
    /\ mt = INR (length cps - k + 1)
    /\ point c 0%R = Ok (Position (coordinates (nth 0 cps null_vector)))
    /\ point c mt
       = Ok (Position (coordinates (nth (length cps - 1) cps null_vector))).
Proof.
  intros Hk Hkn. set (n := length cps) in *.
  destruct (BSpline_init_total BSpline cps k None) as (ks & Hc & Hks & _).
  destruct (knot_open_uniform_real n k) as (ks' & Hks' & Hlen & Hat); [lia|].
  assert (ks = ks') as ->.
  { change (knot_open_uniform n k = Ok ks) in Hks. congruence. }
  set (c := mkCurve BSpline (one_based_array null_vector cps) n k (n + k) ks' [])
    in *.
  assert (sorted_knots ks' (n + k)) as Hs.
  { intros i Hi1 Hi2. rewrite !Hat by lia. apply open_uniform_knot_mono. }
  assert (at_ ks' (n + k) = INR (n - k + 1)) as Hmt.
  { rewrite Hat by lia. unfold open_uniform_knot. f_equal. lia. }
  assert (1 <= INR (n - k + 1))%R as Hmt1.
  { change 1%R with (INR 1). apply le_INR. lia. }
  assert (max_t c = Ok (INR (n - k + 1))) as Hmax.
  { unfold max_t. simpl. rewrite py_get_at by (simpl; lia). by rewrite Hmt. }
  exists c, (INR (n - k + 1)).
  split; [exact Hc|]. split; [exact Hmax|]. split; [done|].
  split.
  - (* the start: the basis is a single 1 at index 1 *)
    assert (snap (INR (n - k + 1)) 0%R = 0%R) as Hsnap.
    { unfold snap. cbn. rewrite (proj2 (Rltb_false _ _)); [done|]. lra. }
    assert (basis c 0%R = Ok (stage ks' 0%R (n + k) k)) as Hb.
    { unfold basis. simpl.
      apply (BSpline_basis_interior c 0%R); simpl; [done | lia | lia | done |].
      rewrite Hat by lia.
      assert (1 <= open_uniform_knot n k (n + 1))%R
        by (apply open_uniform_knot_high; lia).
      lra. }
    unfold point. simpl.
    rewrite (BSpline_point_sum c 0%R _ (stage ks' 0%R (n + k) k) Hmax);
      [| by rewrite Hsnap | rewrite length_stage; simpl; lia | simpl; lia].
    simpl.
    rewrite !(weighted_point_sum_indicator _ _ _ n 1); [done | lia | | lia | | lia |];
      intros i Hi; rewrite at_stage by lia;
      replace (Nat.min k (n + k - i) - 1) with (k - 1) by lia;
      rewrite (cox_at_start ks' n k) by (done || lia);
      replace (k - (k - 1)) with 1 by lia; done.
  - (* the end: all zero but the forced 1 at index n *)
    assert (snap (INR (n - k + 1)) (INR (n - k + 1)) = INR (n - k + 1)) as Hsnap.
    { unfold snap. by destruct (fltb _ _). }
    destruct (BSpline_basis_right_end c) as (nb & Hb & Hnb);
      [simpl; lia .. | done |].
    simpl in Hb, Hnb. rewrite Hmt in Hb.
    pose proof (BSpline_basis_length c _ nb Hb) as Hlnb. simpl in Hlnb.
    unfold point. simpl.
    rewrite (BSpline_point_sum c _ _ nb Hmax);
      [| by rewrite Hsnap | simpl; lia | simpl; lia].
    simpl.
    rewrite !(weighted_point_sum_indicator _ _ _ n n) by (lia || exact Hnb).
    replace (n - 1) with (Nat.pred n) by lia.
    destruct n as [|n']; [lia|]. done.
Qed.

(** A quadratic open curve on three points. *)
Lemma open_uniform_endpoints_witness :
  exists c,
    BSpline_init BSpline [mkVector 0 0 0; mkVector 1 1 0; mkVector 2 0 0]%R 3 None
      = Ok c
    /\ point c 0%R = Ok (Position (0, 0, 0)%R)
    /\ point c 1%R = Ok (Position (2, 0, 0)%R).
Proof.
  destruct (open_uniform_endpoints
              [mkVector 0 0 0; mkVector 1 1 0; mkVector 2 0 0]%R 3)
    as (c & mt & Hc & _ & Hmt & H0 & H1).
  - lia.
  - simpl. lia.
  - exists c. split; [exact Hc|]. split; [exact H0|].
    rewrite Hmt in H1. simpl in H1.
    replace (0 + 1)%R with 1%R in H1 by lra. exact H1.
Defined.

(** The same in binary64, on a cubic open curve with five control points:
    the end points are met exactly, and the basis at an interior parameter
    sums to 1.0. *)
Lemma open_uniform_endpoints_binary64_example :
  exists c nb,
    BSpline_init BSpline
      [mkVector 1 2 3; mkVector 4 0 1; mkVector 5 5 5; mkVector 7 1 0;
       mkVector 9 8 7]%float 4 None = Ok c
    /\ max_t c = Ok 2%float
    /\ point c 0%float = Ok (Position (1, 2, 3)%float)
    /\ point c 2%float = Ok (Position (9, 8, 7)%float)
    /\ basis c 0.75%float = Ok nb
    /\ py_sum nb = 1%float.
Proof.
  eexists. eexists. split; [vm_compute; reflexivity|].
  split; [vm_compute; reflexivity|]. split; [vm_compute; reflexivity|].
  split; [vm_compute; reflexivity|]. split; vm_compute; reflexivity.
Qed.

(** ** The derivative form on non-decreasing knots *)

Section DerivativeTotal.

Open Scope R_scope.

Lemma ratio_term_guarded {F : Type} `{Arith F} (ks : list F) (a b : nat)
    (v num : F) :
  (a < length ks)%nat -> (b < length ks)%nat ->
  (feqb v f0 = false -> feqb (fsub (at_ ks b) (at_ ks a)) f0 = false) ->
  ratio_term ks a b v num = Ok (guarded v num (fsub (at_ ks b) (at_ ks a))).
Proof.
  intros Ha Hb Hnz. unfold ratio_term, guarded.
  destruct (feqb v f0) eqn:Hv; simpl; [done|].
  rewrite py_get_at by done. simpl. rewrite py_get_at by done. simpl.
  unfold py_div. by rewrite Hnz.
Qed.

Lemma width_nonzero (ks : list R) (a b : nat) (v : R) :
  (v <> 0 -> at_ ks a < at_ ks b) ->
  feqb v f0 = false -> feqb (fsub (at_ ks b) (at_ ks a)) f0 = false.
Proof.
  intros Hw Hv. apply Reqb_false in Hv. apply Reqb_false. cbn.
  specialize (Hw Hv). lra.
Qed.

Lemma guarded_nonzero_inv (v num den : R) : guarded v num den <> 0 -> v <> 0.
Proof. intros Hg ->. by rewrite guarded_zero in Hg. Qed.

Lemma has_span_width (ks : list R) (npc i j : nat) :
  sorted_knots ks npc -> (1 <= i)%nat -> (i + j <= npc)%nat ->
  has_span ks i j -> at_ ks i < at_ ks (i + j).
Proof.
  intros Hs Hi Hn (l & Hl & Hlt).
  apply Rle_lt_trans with (at_ ks l);
    [apply (sorted_knots_le ks npc); [done | lia | lia | lia]|].
  apply Rlt_le_trans with (at_ ks (l + 1)); [done|].
  apply (sorted_knots_le ks npc); [done | lia | lia | lia].
Qed.

Lemma has_span_left (ks : list R) (i j : nat) :
  has_span ks i j -> has_span ks i (S j).
Proof. intros (l & Hl & Hlt). exists l. split; [lia | done]. Qed.

Lemma has_span_right (ks : list R) (i j : nat) :
  has_span ks (i + 1) j -> has_span ks i (S j).
Proof. intros (l & Hl & Hlt). exists l. split; [lia | done]. Qed.

Lemma at_insert_eq (l : list R) (i : nat) (v : R) :
  (i < length l)%nat -> at_ (<[i:=v]> l) i = v.
Proof. intros Hi. apply at_lookup. by apply list_lookup_insert_eq. Qed.

Lemma at_insert_ne (l : list R) (i j : nat) (v : R) :
  i <> j -> at_ (<[i:=v]> l) j = at_ l j.
Proof.
  intros Hne. unfold at_. rewrite !nth_lookup.
  by rewrite list_lookup_insert_ne.
Qed.

(** One iteration of the inner loop of [dbasis]: when the values read at
    [i] and [i + 1] vanish on empty spans, every guarded division is
    defined, and the values written at [i] vanish on empty spans of the
    next order. *)
Lemma dbasis_step_real (ks : list R) (t : R) (npc k i : nat)
    (nb d1 d2 : list R) :
  sorted_knots ks npc -> (npc + 1 <= length ks)%nat ->
  (2 <= k)%nat -> (1 <= i)%nat -> (i + k <= npc)%nat ->
  (i + 1 < length nb)%nat -> (i + 1 < length d1)%nat ->
  (i + 1 < length d2)%nat ->
  supported3 ks (nb, d1, d2) (k - 1) i (i + 1) ->
  exists x y z,
    dbasis_step ks t k i (nb, d1, d2)
    = Ok (<[i:=x]> nb, <[i:=y]> d1, <[i:=z]> d2)
    /\ (x <> 0 \/ y <> 0 \/ z <> 0 -> has_span ks i k).
Proof.
  intros Hs Hl Hk Hi Hn Hnb Hd1 Hd2 (Sb & S1 & S2). simpl in Sb, S1, S2.
  assert (forall l, supported ks l (k - 1) i (i + 1) ->
            (at_ l i <> 0 -> at_ ks i < at_ ks (i + k - 1))
            /\ (at_ l (i + 1) <> 0 -> at_ ks (i + 1) < at_ ks (i + k))) as Hw.
  { intros l Sl. split; intros Hv.
    - replace (i + k - 1)%nat with (i + (k - 1))%nat by lia.
      apply (has_span_width ks npc); [done | lia | lia |]. apply Sl; [lia | done].
    - replace (i + k)%nat with (i + 1 + (k - 1))%nat by lia.
      apply (has_span_width ks npc); [done | lia | lia |]. apply Sl; [lia | done]. }
  destruct (Hw nb Sb) as [Wb Wb1]. destruct (Hw d1 S1) as [W1 W11].
  destruct (Hw d2 S2) as [W2 W21].
  unfold dbasis_step.
  rewrite !py_get_at by lia. cbn [bind].
  rewrite !left_term_guarded, !right_term_guarded, !ratio_term_guarded
    by (lia || (by apply width_nonzero)).
  cbn [bind]. rewrite !py_set_lt by lia. cbn [bind].
  eexists. eexists. eexists. split; [reflexivity|].
  intros Hxyz.
  destruct (Req_dec_T (at_ nb i) 0) as [Eb|Eb];
    [|replace k with (S (k - 1)) by lia; apply has_span_left, Sb; [lia | done]].
  destruct (Req_dec_T (at_ d1 i) 0) as [E1|E1];
    [|replace k with (S (k - 1)) by lia; apply has_span_left, S1; [lia | done]].
  destruct (Req_dec_T (at_ d2 i) 0) as [E2|E2];
    [|replace k with (S (k - 1)) by lia; apply has_span_left, S2; [lia | done]].
  destruct (Req_dec_T (at_ nb (i + 1)) 0) as [Eb'|Eb'];
    [|replace k with (S (k - 1)) by lia; apply has_span_right, Sb; [lia | done]].
  destruct (Req_dec_T (at_ d1 (i + 1)) 0) as [E1'|E1'];
    [|replace k with (S (k - 1)) by lia; apply has_span_right, S1; [lia | done]].
  destruct (Req_dec_T (at_ d2 (i + 1)) 0) as [E2'|E2'];
    [|replace k with (S (k - 1)) by lia; apply has_span_right, S2; [lia | done]].
  exfalso. rewrite Eb, E1, E2, Eb', E1', E2' in Hxyz.
  rewrite !guarded_zero in Hxyz. cbn in Hxyz. lra.
Qed.

End DerivativeTotal.

Section DerivativeLoops.

Open Scope R_scope.

Lemma supported_insert_other (ks l : list R) (j lo hi a : nat) (v : R) :
  (a < lo)%nat -> supported ks l j lo hi -> supported ks (<[a:=v]> l) j lo hi.
Proof.
  intros Ha Sl i Hi Hv. rewrite at_insert_ne in Hv by lia. by apply Sl.
Qed.

Lemma supported_narrow (ks l : list R) (j lo hi lo' hi' : nat) :
  supported ks l j lo hi -> (lo <= lo')%nat -> (hi' <= hi)%nat ->
  supported ks l j lo' hi'.
Proof. intros Sl Hlo Hhi i Hi. apply Sl. lia. Qed.

(** The inner loop of [dbasis] over the indices [a .. a+m-1]. *)
Lemma dbasis_loop_real (ks : list R) (t : R) (npc k : nat) :
  sorted_knots ks npc -> (npc + 1 <= length ks)%nat -> (2 <= k)%nat ->
  forall m a st,
    (1 <= a)%nat -> (a + m + k <= npc + 1)%nat ->
    (a + m < length st.1.1)%nat -> (a + m < length st.1.2)%nat ->
    (a + m < length st.2)%nat ->
    supported3 ks st (k - 1) a (a + m) ->
    exists st',
      foldM (dbasis_step ks t k) (seq a m) st = Ok st'
      /\ lengths3 st' = lengths3 st
      /\ supported3 ks st' k a (a + m - 1)
      /\ forall i, (i < a \/ a + m <= i)%nat -> agree3 st st' i.
Proof.
  intros Hs Hl Hk. induction m as [|m IH]; intros a st Ha Hn Lb L1 L2 Sst.
  - exists st. cbn [seq foldM]. split; [done|]. split; [done|].
    split; [|done].
    destruct st as [[nb d1] d2]. repeat split; intros i Hi; lia.
  - destruct st as [[nb d1] d2]. simpl in Lb, L1, L2.
    destruct (dbasis_step_real ks t npc k a nb d1 d2)
      as (x & y & z & Hstep & Hspan); [done | done | done | lia | lia | lia ..| |].
    { destruct Sst as (Sb & S1 & S2).
      repeat split; simpl; (eapply supported_narrow; [eassumption | lia | lia]). }
    cbn [seq foldM]. rewrite Hstep. cbn [bind].
    destruct (IH (S a) (<[a:=x]> nb, <[a:=y]> d1, <[a:=z]> d2))
      as (st' & Hfold & Hlen & Sst' & Hagree).
    { lia. } { lia. }
    { simpl. rewrite length_insert. lia. }
    { simpl. rewrite length_insert. lia. }
    { simpl. rewrite length_insert. lia. }
    { destruct Sst as (Sb & S1 & S2).
      repeat split; simpl; (apply supported_insert_other; [lia|]);
        (eapply supported_narrow; [eassumption | lia | lia]). }
    exists st'. split; [exact Hfold|].
    split. { rewrite Hlen. unfold lengths3. simpl. by rewrite !length_insert. }
    destruct st' as [[nb' d1'] d2'].
    destruct Sst' as (Sb' & S1' & S2'). simpl in Sb', S1', S2'.
    assert (agree3 (<[a:=x]> nb, <[a:=y]> d1, <[a:=z]> d2) (nb', d1', d2') a)
      as (Ab & A1 & A2) by (apply Hagree; lia).
    simpl in Ab, A1, A2.
    rewrite at_insert_eq in Ab, A1, A2 by lia.
    split.
    + repeat split; simpl; intros i Hi Hv;
        (destruct (decide (i = a)) as [->|Hne];
         [apply Hspan; rewrite ?Ab, ?A1, ?A2 in Hv; tauto |]).
      * apply Sb'; [lia | done].
      * apply S1'; [lia | done].
      * apply S2'; [lia | done].
    + intros i Hi.
      destruct (Hagree i) as (Bb & B1 & B2); [lia|]. simpl in Bb, B1, B2.
      rewrite at_insert_ne in Bb, B1, B2 by lia.
      repeat split; simpl; done.
Qed.

(** One level of [dbasis]. *)
Lemma dbasis_level_real (ks : list R) (t : R) (npc k : nat)
    (st : list R * list R * list R) :
  sorted_knots ks npc -> (npc + 1 <= length ks)%nat -> (2 <= k)%nat ->
  (npc <= length st.1.1)%nat -> (npc <= length st.1.2)%nat ->
  (npc <= length st.2)%nat ->
  supported3 ks st (k - 1) 1 (npc - (k - 1)) ->
  exists st',
    dbasis_level ks t npc k st = Ok st'
    /\ lengths3 st' = lengths3 st
    /\ supported3 ks st' k 1 (npc - k).
Proof.
  intros Hs Hl Hk Lb L1 L2 Sst. unfold dbasis_level, range.
  destruct (decide (k <= npc)%nat) as [Hkn|Hkn].
  - destruct (dbasis_loop_real ks t npc k Hs Hl Hk (npc - k + 1 - 1) 1 st)
      as (st' & Hfold & Hlen & Sst' & _); [lia ..| |].
    { destruct st as [[nb d1] d2]. destruct Sst as (Sb & S1 & S2).
      repeat split; simpl; (eapply supported_narrow; [eassumption | lia | lia]). }
    exists st'. split; [exact Hfold|]. split; [exact Hlen|].
    destruct st' as [[nb' d1'] d2']. destruct Sst' as (Sb' & S1' & S2').
    repeat split; simpl; (eapply supported_narrow; [eassumption | lia | lia]).
  - replace (npc - k + 1 - 1)%nat with 0%nat by lia. cbn [seq foldM].
    exists st. split; [done|]. split; [done|].
    destruct st as [[nb d1] d2]. repeat split; intros i Hi; lia.
Qed.

(** The levels 2 .. 1+m of [dbasis]. *)
Lemma dbasis_levels_real (ks : list R) (t : R) (npc : nat) :
  sorted_knots ks npc -> (npc + 1 <= length ks)%nat ->
  forall m st,
    (npc <= length st.1.1)%nat -> (npc <= length st.1.2)%nat ->
    (npc <= length st.2)%nat ->
    supported3 ks st 1 1 (npc - 1) ->
    exists st',
      foldM (dbasis_level ks t npc) (seq 2 m) st = Ok st'
      /\ lengths3 st' = lengths3 st
      /\ supported3 ks st' (1 + m) 1 (npc - (1 + m)).
Proof.
  intros Hs Hl. induction m as [|m IH]; intros st Lb L1 L2 Sst.
  - exists st. done.
  - destruct (IH st Lb L1 L2 Sst) as (st1 & Hfold & Hlen & Sst1).
    assert (length st1.1.1 = length st.1.1 /\ length st1.1.2 = length st.1.2
            /\ length st1.2 = length st.2) as (E1 & E2 & E3).
    { unfold lengths3 in Hlen. by inversion Hlen. }
    destruct (dbasis_level_real ks t npc (2 + m) st1)
      as (st' & Hlevel & Hlen' & Sst'); [done | done | lia | lia | lia | lia | |].
    { replace (2 + m - 1)%nat with (1 + m)%nat by lia. done. }
    exists st'. rewrite seq_S, foldM_app, Hfold. cbn [bind foldM].
    rewrite Hlevel. cbn [bind]. split; [done|].
    split; [by rewrite Hlen', Hlen|]. done.
Qed.

Lemma at_repeat_zero (n i : nat) : at_ (repeat 0 n) i = 0.
Proof.
  unfold at_. revert i. induction n as [|n IH]; intros i; destruct i; simpl; auto.
Qed.

(** The first order basis of the derivative form: with the forced 1 standing
    for a non-empty span, it vanishes on empty spans. *)
Lemma create_nbasis2_real (c : curve) (t : R) :
  nplusc c = (_cp_count c + order c)%nat ->
  (1 <= order c)%nat ->
  (periodic (cls c) = true -> 2 <= order c)%nat ->
  (nplusc c + 1 <= length (knots c))%nat ->
  forced_span_nonempty c t ->
  exists nb,
    create_nbasis2 c t = Ok nb
    /\ length nb = nplusc c
    /\ supported (knots c) nb 1 1 (nplusc c - 1).
Proof.
  intros Hnpc Hk Hk2 Hl Hforced.
  assert (supported (knots c) (stage (knots c) t (nplusc c) 1) 1 1 (nplusc c - 1))
    as Sstage.
  { intros i Hi Hv. rewrite at_stage in Hv by lia.
    replace (Nat.min 1 (nplusc c - i) - 1)%nat with 0%nat in Hv by lia.
    rewrite cox_0 in Hv.
    destruct (Rleb _ _) eqn:Hle; [|done]. destruct (Rltb _ _) eqn:Hlt; [|done].
    apply Rleb_true in Hle. apply Rltb_true in Hlt.
    exists i. split; [lia | lra]. }
  assert (has_span (knots c) (_cp_count c) 1 ->
          supported (knots c)
            (<[_cp_count c := 1]> (stage (knots c) t (nplusc c) 1)) 1 1
            (nplusc c - 1)) as Sforced.
  { intros Hspan i Hi Hv. destruct (decide (i = _cp_count c)) as [->|Hne]; [done|].
    rewrite at_insert_ne in Hv by done. by apply Sstage. }
  unfold create_nbasis2, forced_span_nonempty in *.
  rewrite create_nbasis_stage by done. cbn [bind].
  destruct (periodic (cls c)) eqn:Hp.
  - specialize (Hk2 eq_refl). rewrite py_get_at by lia. cbn [bind].
    destruct (feqb t _) eqn:Heq.
    + apply Reqb_true in Heq. specialize (Hforced Heq).
      rewrite py_set_lt by (rewrite length_stage; lia). cbn [bind].
      rewrite py_set_lt by (rewrite length_insert, length_stage; lia).
      eexists. split; [done|].
      split; [rewrite !length_insert, length_stage; lia|].
      intros i Hi Hv.
      destruct (decide (i = _cp_count c + 1)%nat) as [->|Hne].
      * rewrite at_insert_eq in Hv by (rewrite length_insert, length_stage; lia).
        done.
      * rewrite at_insert_ne in Hv by lia.
        apply Sforced; [|done|done]. exists (_cp_count c). split; [lia | done].
    + eexists. split; [done|]. split; [rewrite length_stage; lia | done].
  - rewrite py_get_at by lia. cbn [bind].
    destruct (feqb t _) eqn:Heq.
    + apply Reqb_true in Heq. specialize (Hforced Heq).
      rewrite py_set_lt by (rewrite length_stage; lia).
      eexists. split; [done|].
      split; [rewrite length_insert, length_stage; lia|].
      apply Sforced. exists (_cp_count c). split; [lia | done].
    + eexists. split; [done|]. split; [rewrite length_stage; lia | done].
Qed.

(** In exact arithmetic, on non-decreasing knots, [dbasis] returns whenever
    the forced 1 of [create_nbasis2] stands for a non-empty span. *)
Lemma dbasis_total_real (c : curve) (t : R) :
  nplusc c = (_cp_count c + order c)%nat ->
  (1 <= order c)%nat ->
  (periodic (cls c) = true -> 2 <= order c)%nat ->
  (nplusc c + 1 <= length (knots c))%nat ->
  sorted_knots (knots c) (nplusc c) ->
  forced_span_nonempty c t ->
  exists st,
    dbasis c t = Ok st
    /\ lengths3 st = (nplusc c, nplusc c + 1, nplusc c + 1)%nat.
Proof.
  intros Hnpc Hk Hk2 Hl Hs Hforced. unfold dbasis.
  destruct (create_nbasis2_real c t) as (nb & -> & Hlen & Snb); [done ..|].
  cbn [bind]. unfold range.
  destruct (dbasis_levels_real (knots c) t (nplusc c) Hs Hl (order c + 1 - 2)
              (nb, repeat f0 (nplusc c + 1), repeat f0 (nplusc c + 1)))
    as (st & Hfold & Hlens & _).
  { simpl. lia. }
  { simpl. rewrite repeat_length. lia. }
  { simpl. rewrite repeat_length. lia. }
  { repeat split; simpl; [done | |]; intros i Hi Hv;
      by rewrite at_repeat_zero in Hv. }
  exists st. split; [exact Hfold|]. rewrite Hlens. unfold lengths3. simpl.
  by rewrite Hlen, !repeat_length.
Qed.

End DerivativeLoops.

(** ** [point] returns on well-formed curves *)

Section PointTotal.

Open Scope R_scope.

Lemma BSpline_basis_total_real (c : curve) (t : R) :
  nplusc c = (_cp_count c + order c)%nat ->
  (1 <= order c)%nat ->
  (nplusc c + 1 <= length (knots c))%nat ->
  sorted_knots (knots c) (nplusc c) ->
  exists nb, BSpline_basis c t = Ok nb /\ length nb = nplusc c.
Proof.
  intros Hnpc Hk Hl Hs. unfold BSpline_basis.
  rewrite basis_recursion_total_real by done. cbn [bind].
  rewrite py_get_at by lia. cbn [bind].
  destruct (feqb t _).
  - rewrite py_set_lt by (rewrite length_stage; lia).
    eexists. split; [done|]. rewrite length_insert, length_stage. lia.
  - eexists. split; [done|]. rewrite length_stage. lia.
Qed.

Lemma basis_total_real (c : curve) (t : R) :
  nplusc c = (_cp_count c + order c)%nat ->
  (1 <= order c)%nat ->
  (nplusc c + 1 <= length (knots c))%nat ->
  sorted_knots (knots c) (nplusc c) ->
  (rational (cls c) = true -> _cp_count c < length (weights c))%nat ->
  exists nb, basis c t = Ok nb /\ (_cp_count c < length nb)%nat.
Proof.
  intros Hnpc Hk Hl Hs Hw. unfold basis.
  destruct (BSpline_basis_total_real c t Hnpc Hk Hl Hs) as (nb & -> & Hlen).
  destruct (rational (cls c)).
  - cbn [bind]. rewrite weighting_spec by (try apply Hw; done || lia).
    destruct (feqb _ _); eexists; (split; [done|]).
    + rewrite repeat_length. lia.
    + simpl. rewrite length_map, length_range. lia.
  - exists nb. split; [done | lia].
Qed.

Lemma max_t_total (c : curve) :
  (nplusc c + 1 <= length (knots c))%nat -> exists mt, max_t c = Ok mt.
Proof.
  intros Hl. unfold max_t. destruct (periodic (cls c)); [eauto|].
  rewrite py_get_at by lia. eauto.
Qed.

Lemma daxis_value_total (st : list R * list R * list R) (cps : list Vector)
    (n axis : nat) :
  (axis < 3)%nat -> (n < length cps)%nat -> (n < length st.1.1)%nat ->
  (n < length st.1.2)%nat -> (n < length st.2)%nat ->
  exists r, daxis_value st cps n axis = Ok r.
Proof.
  intros Hax Hcps Lb L1 L2. destruct st as [[nb d1] d2]. simpl in Lb, L1, L2.
  unfold daxis_value. apply foldM_total.
  intros i [[p q1] q2] Hi. apply elem_of_range in Hi.
  rewrite py_get_nth_vector by lia. cbn [bind].
  assert (exists x, axis_get axis (nth i cps null_vector) = Ok x) as [x ->].
  { destruct axis as [|[|[|axis]]]; simpl; eauto. lia. }
  cbn [bind]. rewrite !py_get_at by lia. cbn [bind]. eauto.
Qed.

(** [point] of the classes using [BSpline.point] returns at every
    parameter. *)
Lemma BSpline_point_total_real (c : curve) (t : R) :
  well_formed c -> (1 <= order c)%nat ->
  (nplusc c + 1 <= length (knots c))%nat ->
  sorted_knots (knots c) (nplusc c) ->
  (rational (cls c) = true -> _cp_count c < length (weights c))%nat ->
  exists p, BSpline_point c t = Ok p.
Proof.
  intros [Hnpc Hcps] Hk Hl Hs Hw.
  destruct (max_t_total c Hl) as [mt Hmt].
  destruct (basis_total_real c (snap mt t) Hnpc Hk Hl Hs Hw) as (nb & Hb & Hlen).
  rewrite (BSpline_point_sum c t mt nb Hmt Hb Hlen) by lia. eauto.
Qed.

(** [point] of the classes with [DBSplineMixin] returns whenever the forced
    1 of [create_nbasis2] stands for a non-empty span. *)
Lemma DBSpline_point_total_real (c : curve) (t : R) :
  well_formed c -> (1 <= order c)%nat ->
  (periodic (cls c) = true -> 2 <= order c)%nat ->
  (nplusc c + 1 <= length (knots c))%nat ->
  sorted_knots (knots c) (nplusc c) ->
  (at_ (knots c) (_cp_count c) < at_ (knots c) (_cp_count c + 1)) ->
  exists r, DBSpline_point c t = Ok r.
Proof.
  intros [Hnpc Hcps] Hk Hk2 Hl Hs Hspan.
  destruct (max_t_total c Hl) as [mt Hmt].
  unfold DBSpline_point. rewrite Hmt. cbn [bind].
  destruct (dbasis_total_real c (snap mt t)) as (st & -> & Hlens);
    [done .. | by intros _ |].
  cbn [bind]. unfold lengths3 in Hlens. inversion Hlens as [[Eb E1 E2]].
  destruct (daxis_value_total st (_control_points c) (_cp_count c) 0)
    as [[[px d1x] d2x] ->]; [lia ..|]. cbn [bind].
  destruct (daxis_value_total st (_control_points c) (_cp_count c) 1)
    as [[[py d1y] d2y] ->]; [lia ..|]. cbn [bind].
  destruct (daxis_value_total st (_control_points c) (_cp_count c) 2)
    as [[[pz d1z] d2z] ->]; [lia ..|]. cbn [bind].
  eauto.
Qed.

(** The default knots of the periodic classes, in exact arithmetic. *)
Lemma knot_uniform_real (n k : nat) :
  exists ks : list R,
    knot_uniform n k = Ok ks
    /\ length ks = (2 + (n + k - 1))%nat
    /\ forall i, (i <= n + k)%nat -> at_ ks i = INR (i - 1).
Proof.
  unfold knot_uniform. eexists. split; [done|]. split.
  - rewrite length_app, length_map, length_range. simpl. lia.
  - intros i Hi. destruct i as [|[|i]]; [done | done |].
    unfold at_. cbn [app nth]. unfold range.
    rewrite (nth_indep _ f0 ((fun i => of_Z (Z.of_nat i)) 0%nat))
      by (rewrite length_map, length_seq; lia).
    rewrite (map_nth (fun i => of_Z (Z.of_nat i))), seq_nth by lia.
    cbn. rewrite <- INR_IZR_INZ. f_equal; lia.
Qed.

(** Every constructor, on k <= n control points with default knots, yields a
    well-formed curve on non-decreasing knots whose span
    [knots[n], knots[n+1]] is not empty. *)
Lemma construct_real (v : variant) (cps : list Vector) (ws : list R) (k : nat) :
  (1 <= k)%nat -> (k <= length cps)%nat ->
  (rational v = true -> length ws = length cps) ->
  exists c,
    construct v cps ws k = Ok c
    /\ cls c = v /\ order c = k /\ well_formed c
    /\ (nplusc c + 1 <= length (knots c))%nat
    /\ sorted_knots (knots c) (nplusc c)
    /\ at_ (knots c) (_cp_count c) < at_ (knots c) (_cp_count c + 1)
    /\ (rational v = true -> _cp_count c < length (weights c))%nat.
Proof.
  intros Hk Hkn Hws. set (n := length cps) in *.
  assert (exists ks : list R,
            _knots v n k = Ok ks
            /\ (n + k + 1 <= length ks)%nat
            /\ sorted_knots ks (n + k)
            /\ at_ ks n < at_ ks (n + 1)) as (ks & Hks & Hlen & Hs & Hspan).
  { unfold _knots. destruct (periodic v).
    - destruct (knot_uniform_real n k) as (ks & -> & Hlen & Hat).
      exists ks. split; [done|]. split; [lia|]. split.
      + intros i Hi1 Hi2. rewrite !Hat by lia. apply le_INR. lia.
      + rewrite !Hat by lia. apply lt_INR. lia.
    - destruct (knot_open_uniform_real n k Hk) as (ks & -> & Hlen & Hat).
      exists ks. split; [done|]. split; [lia|]. split.
      + intros i Hi1 Hi2. rewrite !Hat by lia. apply open_uniform_knot_mono.
      + rewrite !Hat by lia. unfold open_uniform_knot. apply lt_INR. lia. }
  assert (BSpline_init v cps k None
          = Ok (mkCurve v (one_based_array null_vector cps) n k (n + k) ks []))
    as Hinit.
  { unfold BSpline_init. fold n. by rewrite Hks. }
  assert (forall w, exists c,
            Ok (mkCurve v (one_based_array null_vector cps) n k (n + k) ks w)
              = Ok c
            /\ cls c = v /\ order c = k /\ well_formed c
            /\ (nplusc c + 1 <= length (knots c))%nat
            /\ sorted_knots (knots c) (nplusc c)
            /\ at_ (knots c) (_cp_count c) < at_ (knots c) (_cp_count c + 1)
            /\ weights c = w) as Hall.
  { intros w. eexists. split; [reflexivity|]. simpl.
    repeat split; try done; simpl; lia. }
  destruct v; unfold construct.
  1-4: (rewrite Hinit; destruct (Hall []) as (c & Hc & H1 & H2 & H3 & H4 & H5 & H6 & _);
        exists c; repeat split; try done; by destruct H3).
  - unfold RBSpline_init. rewrite Hws by done. fold n. rewrite Nat.eqb_refl.
    cbn [negb]. rewrite Hinit. cbn [bind]. unfold set_weights. simpl.
    destruct (Hall (one_based_array f0 ws))
      as (c & Hc & H1 & H2 & H3 & H4 & H5 & H6 & H7).
    exists c. repeat split; try done; try by destruct H3.
    intros _. rewrite H7. simpl. inversion Hc; subst; simpl.
    rewrite Hws by done. lia.
  - unfold RBSplineU_init. rewrite Hinit. cbn [bind]. unfold set_weights. simpl.
    destruct (Hall (one_based_array f0 ws))
      as (c & Hc & H1 & H2 & H3 & H4 & H5 & H6 & H7).
    exists c. repeat split; try done; try by destruct H3.
    intros _. rewrite H7. simpl. inversion Hc; subst; simpl.
    rewrite Hws by done. lia.
Qed.

(** In exact arithmetic, [point] of a curve of any class, built on k <= n
    control points with default knots, returns at every parameter. *)
Lemma point_total_real (v : variant) (cps : list Vector) (ws : list R) (k : nat) :
  (2 <= k)%nat -> (k <= length cps)%nat ->
  (rational v = true -> length ws = length cps) ->
  exists c, construct v cps ws k = Ok c
            /\ forall t, exists s, point c t = Ok s.
Proof.
  intros Hk Hkn Hws.
  destruct (construct_real v cps ws k)
    as (c & Hc & Hv & Ho & Hwf & Hl & Hs & Hspan & Hw); [lia | done | done |].
  exists c. split; [exact Hc|]. intros t. unfold point.
  destruct (derivative (cls c)) eqn:Hd.
  - destruct (DBSpline_point_total_real c t) as [[[p d1] d2] ->];
      [done | lia | intros _; lia | done | done | done |].
    cbn [bind]. eauto.
  - destruct (BSpline_point_total_real c t) as [p ->];
      [done | lia | done | done | by rewrite Hv |].
    cbn [bind]. eauto.
Qed.

End PointTotal.

(** C9 (counterexample).  [point(t)] above [max_t] can raise.  A [DBSpline]
    on three control points with order 2 and the non-decreasing knots
    0, 1, 2, 2, 2 (behind the placeholder) has [max_t = 2.0]; at
    [t = 1000000.0] the test [max_t - t < 5e-6] holds, [t] becomes [max_t],
    and the evaluation there divides by the zero width of the last span:
    [point(1000000.0)] raises [ZeroDivisionError]. *)
Lemma point_raises_above_max_t :
  let ks := [0; 0; 1; 2; 2; 2]%float in
  let cps := [mkVector 0 0 0; mkVector 1 1 0; mkVector 2 0 0]%float in
  exists c,
    BSpline_init DBSpline cps 2 (Some ks) = Ok c
    /\ non_decreasing ks = true
    /\ max_t c = Ok 2%float
    /\ fltb (fsub 2%float 1000000%float) snap_tol = true
    /\ point c 1000000%float = Raise ZeroDivisionError.
Proof.
  eexists. split; [vm_compute; reflexivity|].
  repeat split; vm_compute; reflexivity.
Qed.

(** C9 (amended).  (1) For a curve of any class, in any arithmetic, and any
    [t] with [max_t - t < 5e-6], so also any [t] above [max_t], [point(t)]
    is [point(max_t)], the value or the exception: no upper bound on [t] is
    tested.  (2) In exact arithmetic, for a curve of any of the six classes
    built with default knots on n >= k >= 2 control points (with one weight
    per point for the rational classes), [point(t)] returns at every [t],
    and equals [point(max_t)] whenever [max_t - t < 5e-6]. *)
Theorem point_snaps_to_max_t :
  (forall (F : Type) (A : Arith F) (c : @curve F) (t mt : F),
      max_t c = Ok mt ->
      fltb (fsub mt t) snap_tol = true ->
      snap mt t = mt /\ point c t = point c mt)
  /\ (forall (v : variant) (cps : list (@Vector R)) (ws : list R) (k : nat),
        2 <= k -> k <= length cps ->
        (rational v = true -> length ws = length cps) ->
        exists c mt,
          construct v cps ws k = Ok c
          /\ max_t c = Ok mt
          /\ forall t : R,
               (exists s, point c t = Ok s)
               /\ ((mt - t < 5 / 1000000)%R -> point c t = point c mt)).
Proof.
  split.
  - intros F A c t mt. apply snap_above_max_t.
  - intros v cps ws k Hk Hkn Hws.
    destruct (point_total_real v cps ws k Hk Hkn Hws) as (c & Hc & Htotal).
    destruct (construct_real v cps ws k) as (c' & Hc' & _ & _ & _ & Hl & _);
      [lia | done | done |].
    assert (c' = c) as -> by congruence.
    destruct (max_t_total c Hl) as [mt Hmt].
    exists c, mt. split; [exact Hc|]. split; [exact Hmt|].
    intros t. split; [apply Htotal|].
    intros Hlt. apply (snap_above_max_t c t mt Hmt).
    by apply Rltb_true.
Qed.

(** A parameter far above the domain of a quadratic open curve, in binary64
    and in exact arithmetic. *)
Lemma point_snaps_to_max_t_witness :
  (let c := mkCurve BSpline
              [null_vector; mkVector 0 0 0; mkVector 1 1 0; mkVector 2 0 0]%float
              3 3 6 [0; 0; 0; 0; 1; 1; 1]%float [] in
   point c 1000000%float = Ok (Position (2, 0, 0)%float))
  /\ (exists c mt,
        construct DBSpline [mkVector 0 0 0; mkVector 1 1 0; mkVector 2 0 0]%R []
                  3 = Ok c
        /\ max_t c = Ok mt
        /\ exists s, point c 1000000%R = Ok s).
Proof.
  destruct point_snaps_to_max_t as [Hsnap Htotal]. split.
  - intros c.
    destruct (Hsnap float float_arith c 1000000%float 1%float) as [_ Hp].
    + reflexivity.
    + vm_compute. reflexivity.
    + rewrite Hp. vm_compute. reflexivity.
  - destruct (Htotal DBSpline [mkVector 0 0 0; mkVector 1 1 0; mkVector 2 0 0]%R
                     [] 3) as (c & mt & Hc & Hmt & Ht).
    + lia.
    + simpl. lia.
    + discriminate.
    + exists c, mt. split; [exact Hc|]. split; [exact Hmt|].
      exact (proj1 (Ht 1000000%R)).
Defined.

(** * Further properties of the module *)

(** ** The shape of the knot vectors *)

Section KnotShapes.

Context {F : Type} `{Arith F}.

Lemma at_snoc_l (x : list F) (v : F) (i : nat) :
  i < length x -> at_ (x ++ [v]) i = at_ x i.
Proof. intros Hi. unfold at_. by rewrite app_nth1. Qed.

Lemma at_snoc_last (x : list F) (v : F) : at_ (x ++ [v]) (length x) = v.
Proof. unfold at_. rewrite app_nth2 by lia. by rewrite Nat.sub_diag. Qed.

Lemma unit_steps_next (n k a : nat) :
  1 <= a ->
  unit_steps (Nat.min a (n + 1) - k)
  = if (k <? a) && (a <? n + 2)
    then fadd (unit_steps (Nat.min (a - 1) (n + 1) - k)) f1
    else unit_steps (Nat.min (a - 1) (n + 1) - k).
Proof.
  intros Ha.
  destruct (Nat.ltb_spec k a) as [E1|E1];
    destruct (Nat.ltb_spec a (n + 2)) as [E2|E2]; cbn [andb].
  - replace (Nat.min a (n + 1) - k) with (S (Nat.min (a - 1) (n + 1) - k)) by lia.
    done.
  - f_equal. lia.
  - f_equal. lia.
  - f_equal. lia.
Qed.

Lemma open_uniform_loop_steps (n k m a : nat) (x : list F) :
  length x = a -> 1 <= a ->
  (forall i, i < a -> at_ x i = unit_steps (Nat.min i (n + 1) - k)) ->
  exists x',
    foldM (fun i x =>
             let* prev := py_get x (i - 1) in
             if (k <? i) && (i <? n + 2)
             then Ok (x ++ [fadd prev f1])
             else Ok (x ++ [prev]))
          (seq a m) x = Ok x'
    /\ length x' = a + m
    /\ forall i, i < a + m -> at_ x' i = unit_steps (Nat.min i (n + 1) - k).
Proof.
  revert a x. induction m as [|m IH]; intros a x Hlen Ha Hx; cbn [seq foldM].
  - exists x. split; [done|]. split; [lia|]. intros i Hi. apply Hx. lia.
  - rewrite py_get_at by lia. cbn [bind].
    pose proof (unit_steps_next n k a Ha) as Hnext.
    rewrite <- (Hx (a - 1)) in Hnext by lia.
    set (v := if (k <? a) && (a <? n + 2)
              then fadd (at_ x (a - 1)) f1 else at_ x (a - 1)).
    assert (v = unit_steps (Nat.min a (n + 1) - k)) as Hv.
    { subst v. rewrite Hnext. by destruct (_ && _). }
    destruct (IH (S a) (x ++ [v])) as (x' & Hx' & Hl' & Hat).
    { rewrite length_app. simpl. lia. }
    { lia. }
    { intros i Hi. destruct (decide (i = a)) as [->|Hne].
      - rewrite <- Hlen at 1. by rewrite at_snoc_last.
      - rewrite at_snoc_l by lia. apply Hx. lia. }
    exists x'. split; [|split; [lia|]].
    + rewrite <- Hx'. subst v. by destruct (_ && _).
    + intros i Hi. apply Hat. lia.
Qed.

End KnotShapes.

(** X1.  In any arithmetic, for order k >= 1, [knot_open_uniform(n, k)]
    returns n + k + 1 entries, and the entry of index i is 0.0 with 1.0 added
    [min(i, n+1) - k] times (no addition for i <= k; no further addition
    above index n + 1). *)
Theorem knot_open_uniform_unit_steps {F : Type} `{Arith F} (n k : nat) :
  1 <= k ->
  exists ks : list F,
    knot_open_uniform n k = Ok ks
    /\ length ks = n + k + 1
    /\ forall i, i <= n + k -> at_ ks i = unit_steps (Nat.min i (n + 1) - k).
Proof.
  intros Hk. unfold knot_open_uniform, range.
  destruct (open_uniform_loop_steps n k (n + k + 1 - 2) 2 [f0; f0])
    as (ks & Hks & Hl & Hat); [done | lia | |].
  { intros i Hi. destruct i as [|[|i]]; [| |lia].
    - done.
    - replace (Nat.min 1 (n + 1) - k) with 0 by lia. done. }
  exists ks. split; [done|]. split; [lia|]. intros i Hi. apply Hat. lia.
Qed.

(** The knots of seven control points and order 3 in binary64. *)
Lemma knot_open_uniform_unit_steps_witness :
  exists ks : list float,
    knot_open_uniform 7 3 = Ok ks
    /\ length ks = 11
    /\ at_ ks 3 = 0%float /\ at_ ks 6 = 3%float /\ at_ ks 10 = 5%float.
Proof.
  destruct (knot_open_uniform_unit_steps (F:=float) 7 3) as (ks & Hks & Hl & Hat).
  - lia.
  - exists ks. split; [exact Hks|]. split; [exact Hl|].
    rewrite !Hat by lia. repeat split; vm_compute; reflexivity.
Defined.

(** X2.  In exact arithmetic, for 1 <= k <= n, the open-uniform knots are
    non-decreasing, the k knots of index 1..k are 0, the knots step by
    exactly 1 from index k to index n + 1, and the k knots of index
    n+1..n+k all equal n + 1 - k: k equal knots at each end, and no more. *)
Theorem knot_open_uniform_shape (n k : nat) :
  1 <= k ->
  k <= n ->
  exists ks : list R,
    knot_open_uniform n k = Ok ks
    /\ sorted_knots ks (n + k)
    /\ (forall i, 1 <= i <= k -> at_ ks i = 0%R)
    /\ (forall i, k <= i <= n -> (at_ ks (i + 1) - at_ ks i = 1)%R)
    /\ (forall i, n + 1 <= i <= n + k -> at_ ks i = INR (n + 1 - k)).
Proof.
  intros Hk Hkn.
  destruct (knot_open_uniform_real n k Hk) as (ks & Hks & Hlen & Hat).
  exists ks. split; [exact Hks|]. split; [|split; [|split]].
  - intros i Hi1 Hi2. rewrite !Hat by lia. apply open_uniform_knot_mono.
  - intros i Hi. rewrite Hat by lia. apply open_uniform_knot_low. lia.
  - intros i Hi. rewrite !Hat by lia. unfold open_uniform_knot.
    replace (Nat.min (i + 1) (n + 1) - k) with (S (Nat.min i (n + 1) - k)) by lia.
    rewrite S_INR. lra.
  - intros i Hi. rewrite Hat by lia. unfold open_uniform_knot. f_equal. lia.
Qed.

(** Five control points, order 2. *)
Lemma knot_open_uniform_shape_witness :
  exists ks : list R,
    knot_open_uniform 5 2 = Ok ks
    /\ at_ ks 2 = 0%R /\ (at_ ks 4 - at_ ks 3 = 1)%R /\ at_ ks 7 = 4%R.
Proof.
  destruct (knot_open_uniform_shape 5 2) as (ks & Hks & _ & Hlow & Hstep & Hhigh).
  - lia.
  - lia.
  - exists ks. split; [exact Hks|]. split; [apply Hlow; lia|].
    split; [apply (Hstep 3); lia|].
    rewrite (Hhigh 7) by lia. simpl. lra.
Defined.

(** X3.  In exact arithmetic, [knot_uniform(n, k)] returns n + k + 1 entries
    (for n + k >= 1): the placeholder 0, and knots[i] = i - 1 for
    i = 1..n+k, so the knots step by exactly 1 and no span is empty. *)
Theorem knot_uniform_shape (n k : nat) :
  1 <= n + k ->
  exists ks : list R,
    knot_uniform n k = Ok ks
    /\ length ks = n + k + 1
    /\ at_ ks 0 = 0%R
    /\ (forall i, 1 <= i <= n + k -> at_ ks i = INR (i - 1))
    /\ (forall i, 1 <= i < n + k -> (at_ ks (i + 1) - at_ ks i = 1)%R).
Proof.
  intros Hn.
  destruct (knot_uniform_real n k) as (ks & Hks & Hlen & Hat).
  exists ks. split; [exact Hks|]. split; [lia|]. split; [|split].
  - rewrite Hat by lia. done.
  - intros i Hi. apply Hat. lia.
  - intros i Hi. rewrite !Hat by lia.
    replace (i + 1 - 1) with (S (i - 1)) by lia. rewrite S_INR. lra.
Qed.

(** Five control points, order 2. *)
Lemma knot_uniform_shape_witness :
  exists ks : list R,
    knot_uniform 5 2 = Ok ks /\ length ks = 8 /\ at_ ks 7 = 6%R.
Proof.
  destruct (knot_uniform_shape 5 2) as (ks & Hks & Hlen & _ & Hat & _).
  - lia.
  - exists ks. split; [exact Hks|]. split; [exact Hlen|].
    rewrite (Hat 7) by lia. simpl. lra.
Defined.

Section KnotClosedShape.

Context {F : Type} `{Arith F}.

Lemma knot_closed_step_value (sp : list F) (maxc : F) (m : Z) (i : nat)
    (x : list F) :
  feqb (of_Z m) f0 = false -> feqb maxc f0 = false -> i < length sp ->
  knot_closed_step sp maxc m i x = Ok (x ++ [closed_knot sp maxc m i]).
Proof.
  intros Hm Hmaxc Hi. unfold knot_closed_step, py_div, closed_knot.
  rewrite Hm. cbn [bind]. rewrite py_get_at by done. cbn [bind].
  by rewrite Hmaxc.
Qed.

Lemma knot_closed_loop (sp : list F) (maxc : F) (m : Z) (len a : nat)
    (x : list F) :
  feqb (of_Z m) f0 = false -> feqb maxc f0 = false -> a + len <= length sp ->
  foldM (knot_closed_step sp maxc m) (seq a len) x
  = Ok (x ++ map (closed_knot sp maxc m) (seq a len)).
Proof.
  intros Hm Hmaxc. revert a x. induction len as [|len IH]; intros a x Hlen.
  - cbn [seq foldM map]. by rewrite app_nil_r.
  - cbn [seq foldM map]. rewrite knot_closed_step_value by (done || lia).
    cbn [bind]. rewrite IH by lia. by rewrite <- app_assoc.
Qed.

Lemma at_repeat (v : F) (n i : nat) : i < n -> at_ (repeat v n) i = v.
Proof.
  unfold at_. revert i. induction n as [|n IH]; intros i Hi; [lia|].
  destruct i; simpl; [done|]. apply IH. lia.
Qed.

Lemma at_app_left (x y : list F) (i : nat) :
  i < length x -> at_ (x ++ y) i = at_ x i.
Proof. intros Hi. unfold at_. by rewrite app_nth1. Qed.

Lemma at_app_right (x y : list F) (i : nat) :
  length x <= i -> at_ (x ++ y) i = at_ y (i - length x).
Proof. intros Hi. unfold at_. by rewrite app_nth2. Qed.

Lemma at_map_seq (g : nat -> F) (a len i : nat) :
  i < len -> at_ (map g (seq a len)) i = g (a + i).
Proof.
  intros Hi. apply at_lookup. rewrite list_lookup_fmap, lookup_seq_lt by done.
  done.
Qed.

End KnotClosedShape.

(** X4.  For an order k >= 3 and a 1-based array of n >= k points,
    [knot_closed] divides by the path length [maxc]: it raises
    [ZeroDivisionError] when [maxc] is zero, and otherwise returns n + k + 1
    entries: k + 1 zeros, then one knot per iteration i = 1..n-k+1, then
    k - 1 times the int n - k + 2. *)
Theorem knot_closed_shape {F : Type} `{Arith F} (cps : list Vector) (n k : nat) :
  length cps = n + 1 ->
  3 <= k ->
  k <= n ->
  feqb (of_Z (Z.of_nat (n - k + 2))) f0 = false ->
  let maxc := py_sum (spacing_of cps) in
  let m := Z.of_nat (n - k + 2) in
  (feqb maxc f0 = true -> knot_closed cps k = Raise ZeroDivisionError)
  /\ (feqb maxc f0 = false ->
      exists x,
        knot_closed cps k = Ok x
        /\ length x = n + k + 1
        /\ (forall i, i <= k -> at_ x i = f0)
        /\ (forall i, 1 <= i <= n - k + 1 ->
              at_ x (k + i) = closed_knot (spacing_of cps) maxc m i)
        /\ (forall i, n + 2 <= i <= n + k -> at_ x i = of_Z m)).
Proof.
  intros Hlen Hk Hkn Hm maxc m.
  pose proof (length_spacing_of cps) as Hsp.
  rewrite knot_closed_unfold. cbv zeta.
  replace (Z.of_nat (length cps) - 1 - Z.of_nat k + 2)%Z with m
    by (subst m; lia).
  replace (Z.to_nat m) with (n - k + 2) by (subst m; lia).
  unfold range. fold maxc. split; intros Hmaxc.
  - replace (n - k + 2 - 1) with (S (n - k)) by lia. cbn [seq foldM].
    rewrite knot_closed_step_zero_path by (done || lia). done.
  - rewrite knot_closed_loop by (done || lia). cbn [bind].
    eexists. split; [reflexivity|].
    split; [|split; [|split]].
    + rewrite !length_app, !repeat_length, length_map, length_seq. lia.
    + intros i Hi. rewrite <- app_assoc.
      rewrite at_app_left by (rewrite repeat_length; lia).
      apply at_repeat. lia.
    + intros i Hi. rewrite <- app_assoc.
      rewrite at_app_right by (rewrite repeat_length; lia).
      rewrite repeat_length.
      rewrite at_app_left by (rewrite length_map, length_seq; lia).
      rewrite at_map_seq by lia. f_equal. lia.
    + intros i Hi.
      rewrite at_app_right
        by (rewrite length_app, repeat_length, length_map, length_seq; lia).
      apply at_repeat.
      rewrite length_app, repeat_length, length_map, length_seq. lia.
Qed.

(** Five points on a line with unequal spacing, order 3, in binary64. *)
Lemma knot_closed_shape_witness :
  exists x,
    knot_closed [null_vector; mkVector 0 0 0; mkVector 1 0 0; mkVector 3 0 0;
                 mkVector 4 0 0; mkVector 8 0 0]%float 3 = Ok x
    /\ length x = 9
    /\ at_ x 3 = 0%float
    /\ at_ x 8 = 4%float.
Proof.
  destruct (knot_closed_shape
              [null_vector; mkVector 0 0 0; mkVector 1 0 0; mkVector 3 0 0;
               mkVector 4 0 0; mkVector 8 0 0]%float 5 3) as [_ Hok].
  - reflexivity.
  - lia.
  - lia.
  - vm_compute. reflexivity.
  - destruct Hok as (x & Hx & Hlen & Hzero & _ & Hlast);
      [vm_compute; reflexivity|].
    exists x. split; [exact Hx|]. split; [exact Hlen|].
    split; [apply Hzero; lia|]. rewrite (Hlast 8) by lia.
    vm_compute. reflexivity.
Defined.

(** ** The values of the basis on non-decreasing knots *)

Section BasisValues.

Open Scope R_scope.

(** What the value form returns: the buffer of closed-form values, with
    [basis[n]] forced to 1 at the last knot. *)
Lemma BSpline_basis_real (c : curve) (t : R) :
  nplusc c = (_cp_count c + order c)%nat ->
  (1 <= order c)%nat ->
  (nplusc c + 1 <= length (knots c))%nat ->
  sorted_knots (knots c) (nplusc c) ->
  BSpline_basis c t
  = Ok (if Reqb t (at_ (knots c) (nplusc c))
        then <[_cp_count c := 1]> (stage (knots c) t (nplusc c) (order c))
        else stage (knots c) t (nplusc c) (order c)).
Proof.
  intros Hnpc Hk Hl Hs. unfold BSpline_basis.
  rewrite basis_recursion_total_real by done. cbn [bind].
  rewrite py_get_at by lia. cbn [bind].
  change (feqb t (at_ (knots c) (nplusc c)))
    with (Reqb t (at_ (knots c) (nplusc c))).
  destruct (Reqb _ _); [|done].
  by rewrite py_set_lt by (rewrite length_stage; lia).
Qed.

End BasisValues.

(** X5.  In exact arithmetic, on knots that are non-decreasing and cover the
    indices 0..n+k, [BSpline.basis] returns at every parameter, in or out
    of the domain of the curve: no guarded division has a zero denominator,
    and the n + k entries returned are never negative. *)
Theorem basis_returns_nonnegative (c : curve) (t : R) :
  well_formed c ->
  1 <= order c ->
  nplusc c + 1 <= length (knots c) ->
  sorted_knots (knots c) (nplusc c) ->
  exists nb,
    BSpline_basis c t = Ok nb
    /\ length nb = _cp_count c + order c
    /\ forall i, (0 <= at_ nb i)%R.
Proof.
  intros [Hnpc _] Hk Hl Hs.
  assert (forall i, (0 <= at_ (stage (knots c) t (nplusc c) (order c)) i)%R)
    as Hstage.
  { intros i. destruct (decide (1 <= i < nplusc c)) as [Hi|Hi].
    - rewrite at_stage by lia.
      apply (cox_nonneg (knots c) t (nplusc c)); [done | lia | lia].
    - unfold at_. destruct i as [|i]; [simpl; lra|].
      rewrite nth_overflow by (rewrite length_stage; lia). simpl. lra. }
  rewrite BSpline_basis_real by done.
  eexists. split; [reflexivity|]. split.
  - destruct (Reqb _ _); rewrite ?length_insert, length_stage; lia.
  - intros i. destruct (Reqb _ _); [|apply Hstage].
    destruct (decide (i = _cp_count c)) as [->|Hne].
    + rewrite at_insert_eq by (rewrite length_stage; lia). lra.
    + rewrite at_insert_ne by done. apply Hstage.
Qed.

(** A linear curve with a double interior knot, left of its domain. *)
Lemma basis_returns_nonnegative_witness :
  let c := mkCurve BSpline
             [null_vector; mkVector 0 0 0; mkVector 1 1 0; mkVector 2 0 0]%R
             3 2 5 [0; 0; 1; 1; 2; 2]%R [] in
  exists nb, BSpline_basis c (-1)%R = Ok nb /\ length nb = 5.
Proof.
  intros c.
  destruct (basis_returns_nonnegative c (-1)%R) as (nb & Hb & Hlen & _).
  - split; reflexivity.
  - simpl. lia.
  - simpl. lia.
  - intros i Hi1 Hi2.
    destruct i as [|[|[|[|[|i]]]]]; simpl in Hi2; try lia; cbn; lra.
  - exists nb. split; [exact Hb | exact Hlen].
Defined.

(** X6.  In exact arithmetic, on non-decreasing knots, the basis has local
    support: an entry [basis[i]], i = 1..n, of the vector returned at [t] is
    non-zero only for [knots[i] <= t <= knots[i+k]]. *)
Theorem basis_local_support (c : curve) (t : R) :
  well_formed c ->
  1 <= order c ->
  nplusc c + 1 <= length (knots c) ->
  sorted_knots (knots c) (nplusc c) ->
  exists nb,
    BSpline_basis c t = Ok nb
    /\ forall i, 1 <= i <= _cp_count c -> at_ nb i <> 0%R ->
         (at_ (knots c) i <= t <= at_ (knots c) (i + order c))%R.
Proof.
  intros [Hnpc _] Hk Hl Hs.
  assert (forall i, 1 <= i <= _cp_count c ->
            at_ (stage (knots c) t (nplusc c) (order c)) i <> 0%R ->
            (at_ (knots c) i <= t <= at_ (knots c) (i + order c))%R) as Hstage.
  { intros i Hi Hv. rewrite at_stage in Hv by lia.
    replace (Nat.min (order c) (nplusc c - i) - 1) with (order c - 1) in Hv by lia.
    destruct (cox_support (knots c) t (nplusc c) Hs (order c - 1) i)
      as [Hlo Hhi]; [lia | lia | done |].
    replace (i + (order c - 1) + 1) with (i + order c) in Hhi by lia. lra. }
  rewrite BSpline_basis_real by done.
  eexists. split; [reflexivity|].
  intros i Hi Hv. destruct (Reqb _ _) eqn:Heq; [|by apply Hstage].
  apply Reqb_true in Heq.
  destruct (decide (i = _cp_count c)) as [->|Hne].
  - rewrite Heq, Hnpc. split; [|lra].
    apply (sorted_knots_le _ (nplusc c)); [done | lia | lia | lia].
  - rewrite at_insert_ne in Hv by done. by apply Hstage.
Qed.

(** A quadratic open curve on four points at [t = 1/2]: the last control
    point has no influence there. *)
Lemma basis_local_support_witness :
  let c := mkCurve BSpline
             [null_vector; mkVector 0 0 0; mkVector 1 1 0; mkVector 2 0 0;
              mkVector 3 1 0]%R
             4 3 7 [0; 0; 0; 0; 1; 2; 2; 2]%R [] in
  exists nb, BSpline_basis c (1 / 2)%R = Ok nb /\ at_ nb 4 = 0%R.
Proof.
  intros c.
  destruct (basis_local_support c (1 / 2)%R) as (nb & Hb & Hsupp).
  - split; reflexivity.
  - simpl. lia.
  - simpl. lia.
  - intros i Hi1 Hi2.
    destruct i as [|[|[|[|[|[|[|i]]]]]]]; simpl in Hi2; try lia; cbn; lra.
  - exists nb. split; [exact Hb|].
    destruct (Req_dec_T (at_ nb 4) 0) as [Hz|Hnz]; [exact Hz|].
    exfalso. destruct (Hsupp 4) as [Hlo _]; [simpl; lia | exact Hnz |].
    cbn in Hlo. lra.
Defined.

(** ** The derivative form against the value form *)

(** X8.  In exact arithmetic, on non-decreasing knots covering the indices
    0..n+k, [dbasis] returns at every parameter at which the entry
    [create_nbasis2] forces to 1 stands for a non-empty span (so at every
    parameter other than the knot it tests): it returns n + k values and
    n + k + 1 first and second derivatives. *)
Theorem dbasis_returns (c : curve) (t : R) :
  well_formed c ->
  1 <= order c ->
  (periodic (cls c) = true -> 2 <= order c) ->
  nplusc c + 1 <= length (knots c) ->
  sorted_knots (knots c) (nplusc c) ->
  forced_span_nonempty c t ->
  exists nb d1 d2,
    dbasis c t = Ok (nb, d1, d2)
    /\ length nb = _cp_count c + order c
    /\ length d1 = _cp_count c + order c + 1
    /\ length d2 = _cp_count c + order c + 1.
Proof.
  intros [Hnpc _] Hk Hk2 Hl Hs Hforced.
  destruct (dbasis_total_real c t Hnpc Hk Hk2 Hl Hs Hforced)
    as ([[nb d1] d2] & Hd & Hlens).
  exists nb, d1, d2. split; [exact Hd|].
  unfold lengths3 in Hlens. simpl in Hlens. inversion Hlens. lia.
Qed.

(** The knots 0, 1, 2, 2, 2 with order 2, away from the last knot. *)
Lemma dbasis_returns_witness :
  let c := mkCurve DBSpline
             [null_vector; mkVector 0 0 0; mkVector 1 1 0; mkVector 2 0 0]%R
             3 2 5 [0; 0; 1; 2; 2; 2]%R [] in
  exists nb d1 d2, dbasis c 1%R = Ok (nb, d1, d2) /\ length d1 = 6.
Proof.
  intros c.
  destruct (dbasis_returns c 1%R) as (nb & d1 & d2 & Hd & _ & Hl1 & _).
  - split; reflexivity.
  - simpl. lia.
  - discriminate.
  - simpl. lia.
  - intros i Hi1 Hi2.
    destruct i as [|[|[|[|[|i]]]]]; simpl in Hi2; try lia; cbn; lra.
  - intros Heq. cbn in Heq. lra.
  - exists nb, d1, d2. split; [exact Hd | exact Hl1].
Defined.

Section DerivativeAgainstValue.

Context {F : Type} `{Arith F}.

Lemma foldM_project {S S' A} (proj : S -> S') (f : A -> S -> result S)
    (g : A -> S' -> result S') (l : list A) :
  (forall a s s', f a s = Ok s' -> g a (proj s) = Ok (proj s')) ->
  forall s s', foldM f l s = Ok s' -> foldM g l (proj s) = Ok (proj s').
Proof.
  intros Hfg. induction l as [|a l IH]; intros s s' Hf; simpl in *.
  - by inversion Hf.
  - apply bind_Ok in Hf as (s1 & Hs1 & Hf).
    rewrite (Hfg a s s1 Hs1). simpl. by apply IH.
Qed.

(** The values an iteration of [dbasis] writes to [nbasis] are those of the
    iteration of [basis]. *)
Lemma dbasis_step_basis (ks : list F) (t : F) (k i : nat)
    (st st' : list F * list F * list F) :
  dbasis_step ks t k i st = Ok st' -> basis_step ks t k i st.1.1 = Ok st'.1.1.
Proof.
  destruct st as [[nb d1] d2]. unfold dbasis_step, basis_step. simpl.
  intros Hs.
  apply bind_Ok in Hs as (bi & -> & Hs). cbn [bind].
  apply bind_Ok in Hs as (b1 & -> & Hs). cbn [bind].
  apply bind_Ok in Hs as (bi1 & -> & Hs). cbn [bind].
  apply bind_Ok in Hs as (b2 & -> & Hs). cbn [bind].
  do 12 (apply bind_Ok in Hs as (? & _ & Hs)).
  apply bind_Ok in Hs as (nb' & -> & Hs).
  apply bind_Ok in Hs as (d1' & _ & Hs).
  apply bind_Ok in Hs as (d2' & _ & Hs).
  by inversion Hs.
Qed.

Lemma dbasis_level_basis (ks : list F) (t : F) (npc k : nat)
    (st st' : list F * list F * list F) :
  dbasis_level ks t npc k st = Ok st' ->
  basis_level ks t npc k st.1.1 = Ok st'.1.1.
Proof.
  unfold dbasis_level, basis_level.
  apply (foldM_project (fun s : list F * list F * list F => s.1.1)).
  intros a s s1. apply dbasis_step_basis.
Qed.

(** What [daxis_value] accumulates for the position is the sum
    [axis_value] makes, when the int 0 the sum starts from is the float
    0.0 the accumulator starts from. *)
Lemma daxis_fold_position (nb d1 d2 : list F) (cps : list Vector) (axis : nat)
    (l : list nat) :
  forall (acc r : F * F * F),
    foldM (fun i acc =>
             let '(p, d1', d2') := acc in
             let* v := py_get cps i in
             let* control_point := axis_get axis v in
             let* b := py_get nb i in
             let* b1 := py_get d1 i in
             let* b2 := py_get d2 i in
             Ok (fadd p (fmul b control_point),
                 fadd d1' (fmul b1 control_point),
                 fadd d2' (fmul b2 control_point)))
          l acc = Ok r ->
    exists terms,
      mapM (fun i => let* b := py_get nb i in
                     let* p := py_get cps i in
                     let* x := axis_get axis p in
                     Ok (fmul b x)) l = Ok terms
      /\ r.1.1 = fold_left fadd terms acc.1.1.
Proof.
  induction l as [|i l IH]; intros [[p q1] q2] r Hf; cbn [foldM mapM] in *.
  - inversion Hf; subst. exists []. done.
  - apply bind_Ok in Hf as ([[p' q1'] q2'] & Hstep & Hf).
    apply bind_Ok in Hstep as (v & Hv & Hstep).
    apply bind_Ok in Hstep as (x & Hx & Hstep).
    apply bind_Ok in Hstep as (b & Hb & Hstep).
    apply bind_Ok in Hstep as (b1 & _ & Hstep).
    apply bind_Ok in Hstep as (b2 & _ & Hstep).
    inversion Hstep; subst.
    rewrite Hb. cbn [bind]. rewrite Hv. cbn [bind]. rewrite Hx. cbn [bind].
    destruct (IH _ _ Hf) as (terms & -> & Hr). cbn [bind].
    exists (fmul b x :: terms). done.
Qed.

Lemma daxis_value_position (bs : list F * list F * list F)
    (cps : list Vector) (n axis : nat) (r : F * F * F) :
  of_Z 0 = f0 ->
  daxis_value bs cps n axis = Ok r ->
  axis_value bs.1.1 cps (n + 1) axis = Ok r.1.1.
Proof.
  intros H0. destruct bs as [[nb d1] d2]. unfold daxis_value, axis_value.
  intros Hf. apply daxis_fold_position in Hf as (terms & Hterms & Hr).
  cbn [fst]. rewrite Hterms. cbn [bind]. unfold py_sum. by rewrite H0, Hr.
Qed.

End DerivativeAgainstValue.

(** X9.  In any arithmetic, when [dbasis] returns at a parameter that is not
    the knot [create_nbasis2] tests, its [nbasis] is the buffer the recursion
    of [BSpline.basis] computes; for the open classes it is what
    [BSpline.basis] returns. *)
Theorem dbasis_values_are_basis {F : Type} `{Arith F} (c : curve) (t : F)
    (nb d1 d2 : list F) :
  dbasis c t = Ok (nb, d1, d2) ->
  feqb t (at_ (knots c) (fixup_index c)) = false ->
  basis_recursion c t = Ok nb
  /\ (periodic (cls c) = false -> BSpline_basis c t = Ok nb).
Proof.
  intros Hd Hne. unfold dbasis in Hd.
  apply bind_Ok in Hd as (nb0 & Hnb0 & Hd).
  assert (create_nbasis c t = Ok nb0
          /\ py_get (knots c) (fixup_index c)
             = Ok (at_ (knots c) (fixup_index c))) as [Hc Hkn].
  { unfold create_nbasis2, fixup_index in *.
    destruct (periodic (cls c));
      apply bind_Ok in Hnb0 as (nb1 & Hnb1 & Hnb0);
      apply bind_Ok in Hnb0 as (kn & Hkn & Hnb0);
      pose proof (proj1 (py_get_Ok _ _ _) Hkn) as Hlook;
      rewrite (at_lookup _ _ _ Hlook) in Hne; rewrite Hne in Hnb0;
      inversion Hnb0; subst; rewrite (at_lookup _ _ _ Hlook); done. }
  assert (basis_recursion c t = Ok nb) as Hr.
  { unfold basis_recursion. rewrite Hc. cbn [bind].
    apply (foldM_project (fun s : list F * list F * list F => s.1.1)
             (dbasis_level (knots c) t (nplusc c))
             (basis_level (knots c) t (nplusc c)) _
             (fun a s s1 => dbasis_level_basis (knots c) t (nplusc c) a s s1)
             _ _ Hd). }
  split; [exact Hr|].
  intros Hp. unfold BSpline_basis. rewrite Hr. cbn [bind].
  unfold fixup_index in Hkn, Hne. rewrite Hp in Hkn, Hne.
  rewrite Hkn. cbn [bind]. by rewrite Hne.
Qed.

(** A quadratic open curve on three points at [t = 0.5], in binary64. *)
Lemma dbasis_values_are_basis_witness :
  let c := mkCurve DBSpline
             [null_vector; mkVector 0 0 0; mkVector 1 1 0; mkVector 2 0 0]%float
             3 3 6 [0; 0; 0; 0; 1; 1; 1]%float [] in
  BSpline_basis c 0.5%float = Ok [0; 0.25; 0.5; 0.25; 0; 0]%float.
Proof.
  intros c.
  destruct (dbasis_values_are_basis c 0.5%float
              [0; 0.25; 0.5; 0.25; 0; 0]%float
              [0; -1; 0; 1; 0; 0; 0]%float
              [0; 2; -4; 2; 0; 0; 0]%float) as [_ Hb].
  - vm_compute. reflexivity.
  - vm_compute. reflexivity.
  - apply Hb. reflexivity.
Defined.

(** X10.  In any arithmetic whose int 0 converts to the float 0.0: when
    [point(t)] of a derivative class returns, and the snapped parameter is
    not the knot [create_nbasis2] tests and (for the periodic class) not the
    last knot either, the position it returns is the point [point(t)] of the
    plain class returns on the same attributes. *)
Theorem derivative_position_is_point {F : Type} `{Arith F} (c : curve) (t mt : F)
    (p d1 d2 : F * F * F) :
  of_Z 0 = f0 ->
  derivative (cls c) = true ->
  max_t c = Ok mt ->
  feqb (snap mt t) (at_ (knots c) (fixup_index c)) = false ->
  feqb (snap mt t) (at_ (knots c) (nplusc c)) = false ->
  nplusc c < length (knots c) ->
  point c t = Ok (WithDerivatives p d1 d2) ->
  point (as_class (plain_class (cls c)) c) t = Ok (Position p).
Proof.
  intros H0 Hder Hmt Hne Hne' Hl Hp.
  unfold point in Hp. rewrite Hder in Hp.
  apply bind_Ok in Hp as ([[p' d1'] d2'] & Hdp & Hp). inversion Hp; subst.
  unfold DBSpline_point in Hdp. rewrite Hmt in Hdp. cbn [bind] in Hdp.
  apply bind_Ok in Hdp as ([[nb e1] e2] & Hd & Hdp).
  apply bind_Ok in Hdp as ([[px d1x] d2x] & Hx & Hdp).
  apply bind_Ok in Hdp as ([[py d1y] d2y] & Hy & Hdp).
  apply bind_Ok in Hdp as ([[pz d1z] d2z] & Hz & Hdp).
  inversion Hdp; subst.
  destruct (dbasis_values_are_basis c (snap mt t) nb e1 e2 Hd Hne) as [Hr _].
  apply (daxis_value_position _ _ _ _ _ H0) in Hx, Hy, Hz. simpl in Hx, Hy, Hz.
  set (c0 := as_class (plain_class (cls c)) c).
  assert (derivative (cls c0) = false /\ rational (cls c0) = false
          /\ periodic (cls c0) = periodic (cls c)) as (Hder0 & Hrat0 & Hper0).
  { subst c0. simpl. destruct (cls c); try discriminate; done. }
  assert (max_t c0 = Ok mt) as Hmt0.
  { unfold max_t in *. rewrite Hper0. exact Hmt. }
  assert (basis c0 (snap mt t) = Ok nb) as Hb0.
  { unfold basis. rewrite Hrat0. unfold BSpline_basis.
    change (basis_recursion c0 (snap mt t)) with (basis_recursion c (snap mt t)).
    rewrite Hr. cbn [bind]. subst c0. simpl.
    rewrite py_get_at by done. cbn [bind]. by rewrite Hne'. }
  unfold point. rewrite Hder0. unfold BSpline_point.
  rewrite Hmt0. cbn [bind]. rewrite Hb0. cbn [bind].
  subst c0. simpl. rewrite Hx. cbn [bind]. rewrite Hy. cbn [bind].
  rewrite Hz. done.
Qed.

(** A quadratic open curve on three points at [t = 0.5], in binary64. *)
Lemma derivative_position_is_point_witness :
  let c := mkCurve DBSpline
             [null_vector; mkVector 0 0 0; mkVector 1 1 0; mkVector 2 0 0]%float
             3 3 6 [0; 0; 0; 0; 1; 1; 1]%float [] in
  point (as_class BSpline c) 0.5%float = Ok (Position (1, 0.5, 0)%float).
Proof.
  intros c.
  apply (derivative_position_is_point c 0.5%float 1%float (1, 0.5, 0)%float
           (2, 0, 0)%float (0, -4, 0)%float).
  - reflexivity.
  - reflexivity.
  - reflexivity.
  - vm_compute. reflexivity.
  - vm_compute. reflexivity.
  - simpl. lia.
  - vm_compute. reflexivity.
Defined.

(** ** Sampling a curve *)

Section SamplingControl.

Context {F : Type} `{Arith F}.

Lemma approximate_Ok (c : curve) (segments : nat) (step : F) (l : list sample) :
  _step_size c segments = Ok step ->
  approximate c segments = Ok l ->
  length l = segments + 1
  /\ forall i, i <= segments ->
       exists s, l !! i = Some s /\ point c (sample_parameter c step i) = Ok s.
Proof.
  intros Hstep Hl. unfold approximate in Hl. rewrite Hstep in Hl. cbn [bind] in Hl.
  split.
  - apply mapM_Ok_length in Hl. rewrite length_range in Hl. lia.
  - intros i Hi.
    apply (mapM_Ok_lookup _ _ _ i i Hl).
    unfold range. rewrite lookup_seq_lt by lia. done.
Qed.

End SamplingControl.

(** X13.  In any arithmetic in which the converted int 0 is zero: consuming
    [approximate(0)] raises [ZeroDivisionError] in [_step_size], before any
    point is computed, for every class (for the open classes provided
    [max_t] can be read, that is, the knot array reaches index [nplusc]). *)
Theorem approximate_zero_segments {F : Type} `{Arith F} (c : @curve F) :
  feqb (of_Z 0) f0 = true ->
  (periodic (cls c) = false -> nplusc c < length (knots c)) ->
  approximate c 0 = Raise ZeroDivisionError.
Proof.
  intros Hzero Hlen. unfold approximate, _step_size, py_div.
  destruct (periodic (cls c)) eqn:Hp.
  - change (Z.of_nat 0) with 0%Z. by rewrite Hzero.
  - unfold max_t. rewrite Hp. rewrite py_get_at by auto.
    cbn [bind]. change (Z.of_nat 0) with 0%Z. by rewrite Hzero.
Qed.

(** An open quadratic curve in binary64. *)
Lemma approximate_zero_segments_witness :
  approximate (mkCurve BSpline
                 [null_vector; mkVector 0 0 0; mkVector 1 1 0; mkVector 2 0 0]%float
                 3 3 6 [0; 0; 0; 0; 1; 1; 1]%float []) 0
  = Raise ZeroDivisionError.
Proof.
  apply (approximate_zero_segments (F:=float)).
  - vm_compute. reflexivity.
  - intros _. simpl. lia.
Defined.

Lemma mapM_returns {A B} (f : A -> result B) (l : list A) :
  (forall a, a ∈ l -> exists b, f a = Ok b) -> exists bs, mapM f l = Ok bs.
Proof.
  induction l as [|a l IH]; intros Hf; simpl; [eauto|].
  destruct (Hf a) as [b ->]; [apply list_elem_of_here|]. cbn [bind].
  destruct IH as [bs ->].
  { intros a' Ha'. apply Hf. by apply list_elem_of_further. }
  cbn [bind]. eauto.
Qed.

Section SamplingValues.

Open Scope R_scope.

Lemma step_size_real (c : curve) (segments : nat) :
  (1 <= segments)%nat ->
  (nplusc c + 1 <= length (knots c))%nat ->
  exists mt,
    max_t c = Ok mt
    /\ _step_size c segments
       = Ok ((if periodic (cls c)
              then IZR (Z.of_nat (_cp_count c) - Z.of_nat (order c) + 1)
              else mt) / INR segments).
Proof.
  intros Hseg Hl. destruct (max_t_total c Hl) as [mt Hmt].
  exists mt. split; [done|]. unfold _step_size, py_div. rewrite Hmt.
  assert (IZR (Z.of_nat segments) <> 0) as Hnz by (apply not_0_IZR; lia).
  rewrite INR_IZR_INZ.
  destruct (periodic (cls c)); cbn [bind];
    change (feqb (of_Z (Z.of_nat segments)) f0)
      with (Reqb (IZR (Z.of_nat segments)) 0);
    rewrite (proj2 (Reqb_false _ _) Hnz); done.
Qed.

(** The two ends of an open curve on its default knots. *)
Lemma open_curve_ends (cps : list Vector) (k : nat) :
  (2 <= k)%nat -> (k <= length cps)%nat ->
  exists c,
    BSpline_init BSpline cps k None = Ok c
    /\ cls c = BSpline
    /\ (nplusc c + 1 <= length (knots c))%nat
    /\ max_t c = Ok (INR (length cps - k + 1))
    /\ point c 0 = Ok (Position (coordinates (nth 0 cps null_vector)))
    /\ point c (INR (length cps - k + 1))
       = Ok (Position (coordinates (nth (length cps - 1) cps null_vector)))
    /\ forall t, exists s, point c t = Ok s.
Proof.
  intros Hk Hkn. set (n := length cps) in *.
  destruct (knot_open_uniform_real n k) as (ks & Hks & Hlen & Hat); [lia|].
  set (c := mkCurve BSpline (one_based_array null_vector cps) n k (n + k) ks []).
  assert (BSpline_init BSpline cps k None = Ok c) as Hc.
  { unfold BSpline_init, _knots. cbn [periodic]. fold n. by rewrite Hks. }
  assert (sorted_knots ks (n + k)) as Hs.
  { intros i Hi1 Hi2. rewrite !Hat by lia. apply open_uniform_knot_mono. }
  assert (at_ ks (n + k) = INR (n - k + 1)) as Hmt.
  { rewrite Hat by lia. unfold open_uniform_knot. f_equal. lia. }
  assert (1 <= INR (n - k + 1)) as Hmt1.
  { change 1 with (INR 1). apply le_INR. lia. }
  assert (max_t c = Ok (INR (n - k + 1))) as Hmax.
  { unfold max_t. simpl. rewrite py_get_at by (simpl; lia). by rewrite Hmt. }
  exists c. split; [exact Hc|]. split; [done|].
  split; [simpl; lia|]. split; [exact Hmax|].
  split; [|split].
  - assert (snap (INR (n - k + 1)) 0 = 0) as Hsnap.
    { unfold snap. cbn. rewrite (proj2 (Rltb_false _ _)); [done|]. lra. }
    assert (basis c 0 = Ok (stage ks 0 (n + k) k)) as Hb.
    { unfold basis. simpl.
      apply (BSpline_basis_interior c 0); simpl; [done | lia | lia | done |].
      rewrite Hat by lia.
      assert (1 <= open_uniform_knot n k (n + 1))
        by (apply open_uniform_knot_high; lia).
      lra. }
    unfold point. simpl.
    rewrite (BSpline_point_sum c 0 _ (stage ks 0 (n + k) k) Hmax);
      [| by rewrite Hsnap | rewrite length_stage; simpl; lia | simpl; lia].
    simpl.
    rewrite !(weighted_point_sum_indicator _ _ _ n 1);
      [done | lia | | lia | | lia |];
      intros i Hi; rewrite at_stage by lia;
      replace (Nat.min k (n + k - i) - 1)%nat with (k - 1)%nat by lia;
      rewrite (cox_at_start ks n k) by (done || lia);
      replace (k - (k - 1))%nat with 1%nat by lia; done.
  - assert (snap (INR (n - k + 1)) (INR (n - k + 1)) = INR (n - k + 1)) as Hsnap.
    { unfold snap. by destruct (fltb _ _). }
    destruct (BSpline_basis_right_end c) as (nb & Hb & Hnb);
      [simpl; lia .. | done |].
    simpl in Hb, Hnb. rewrite Hmt in Hb.
    pose proof (BSpline_basis_length c _ nb Hb) as Hlnb. simpl in Hlnb.
    unfold point. simpl.
    rewrite (BSpline_point_sum c _ _ nb Hmax);
      [| by rewrite Hsnap | simpl; lia | simpl; lia].
    simpl.
    rewrite !(weighted_point_sum_indicator _ _ _ n n) by (lia || exact Hnb).
    replace (n - 1)%nat with (Nat.pred n) by lia.
    destruct n as [|n']; [lia|]. done.
  - intros t. unfold point. simpl.
    destruct (BSpline_point_total_real c t) as [p ->];
      [ split; simpl; [done | fold n; lia]
      | simpl; lia | simpl; lia | done | done |].
    cbn [bind]. eauto.
Qed.

End SamplingValues.

(** X14.  In exact arithmetic, for a curve of any of the six classes built
    with default knots on n >= k >= 2 control points (one weight per point
    for the rational classes) and any [segments >= 1]: consuming
    [approximate(segments)] raises nothing and yields [segments + 1] samples,
    the i-th being [point] at [i * step] (open classes) or at
    [k - 1 + i * step] (periodic classes), with [step] the result of
    [_step_size(segments)]. *)
Theorem approximate_returns (v : variant) (cps : list (@Vector R)) (ws : list R)
    (k segments : nat) :
  2 <= k -> k <= length cps ->
  (rational v = true -> length ws = length cps) ->
  1 <= segments ->
  exists c step l,
    construct v cps ws k = Ok c
    /\ _step_size c segments = Ok step
    /\ approximate c segments = Ok l
    /\ length l = segments + 1
    /\ forall i, i <= segments ->
         exists s, l !! i = Some s /\ point c (sample_parameter c step i) = Ok s.
Proof.
  intros Hk Hkn Hws Hseg.
  destruct (point_total_real v cps ws k Hk Hkn Hws) as (c & Hc & Htotal).
  destruct (construct_real v cps ws k) as (c' & Hc' & _ & _ & _ & Hl & _);
    [lia | done | done |].
  assert (c' = c) as -> by congruence.
  destruct (step_size_real c segments Hseg Hl) as (mt & _ & Hstep).
  destruct (mapM_returns
              (fun point_index =>
                 point c (sample_parameter c
                   ((if periodic (cls c)
                     then IZR (Z.of_nat (_cp_count c) - Z.of_nat (order c) + 1)
                     else mt) / INR segments)%R point_index))
              (range 0 (segments + 1))) as [l Hl'].
  { intros i _. apply Htotal. }
  assert (approximate c segments = Ok l) as Happ.
  { unfold approximate. rewrite Hstep. exact Hl'. }
  exists c. eexists. exists l. split; [exact Hc|]. split; [exact Hstep|].
  split; [exact Happ|]. exact (approximate_Ok c segments _ l Hstep Happ).
Qed.

(** A periodic quadratic curve on three points, two segments. *)
Lemma approximate_returns_witness :
  exists c step l,
    construct BSplineU [mkVector 0 0 0; mkVector 1 1 0; mkVector 2 0 0]%R [] 3
      = Ok c
    /\ _step_size c 2 = Ok step
    /\ approximate c 2 = Ok l
    /\ length l = 3.
Proof.
  destruct (approximate_returns BSplineU
              [mkVector 0 0 0; mkVector 1 1 0; mkVector 2 0 0]%R [] 3 2)
    as (c & step & l & Hc & Hstep & Hl & Hlen & _).
  - lia.
  - simpl. lia.
  - discriminate.
  - lia.
  - exists c, step, l. done.
Defined.

(** X15.  In exact arithmetic, for an open curve ([BSpline], default knots)
    on n >= k >= 2 control points and any [segments >= 1]:
    [approximate(segments)] yields [segments + 1] points, the first being the
    first control point and the last being the last control point. *)
Theorem approximate_open_endpoints (cps : list (@Vector R)) (k segments : nat) :
  2 <= k -> k <= length cps -> 1 <= segments ->
  exists c l,
    BSpline_init BSpline cps k None = Ok c
    /\ approximate c segments = Ok l
    /\ length l = segments + 1
    /\ l !! 0 = Some (Position (coordinates (nth 0 cps null_vector)))
    /\ l !! segments
       = Some (Position (coordinates (nth (length cps - 1) cps null_vector))).
Proof.
  intros Hk Hkn Hseg.
  destruct (open_curve_ends cps k Hk Hkn)
    as (c & Hc & Hcls & Hl & Hmax & Hstart & Hend & Htotal).
  destruct (step_size_real c segments Hseg Hl) as (mt & Hmt & Hstep).
  rewrite Hcls in Hstep. cbn [periodic] in Hstep.
  assert (mt = INR (length cps - k + 1)) as -> by congruence.
  set (step := (INR (length cps - k + 1) / INR segments)%R) in *.
  destruct (mapM_returns
              (fun point_index => point c (sample_parameter c step point_index))
              (range 0 (segments + 1))) as [l Hl'].
  { intros i _. apply Htotal. }
  assert (approximate c segments = Ok l) as Happ.
  { unfold approximate. rewrite Hstep. exact Hl'. }
  destruct (approximate_Ok c segments step l Hstep Happ) as [Hlen Hsamples].
  assert (INR segments <> 0%R) as Hnz by (apply not_0_INR; lia).
  exists c, l. split; [exact Hc|]. split; [exact Happ|]. split; [exact Hlen|].
  split.
  - destruct (Hsamples 0) as (s & -> & Hs); [lia|]. f_equal.
    unfold sample_parameter in Hs. rewrite Hcls in Hs. cbn in Hs.
    rewrite Rmult_0_l in Hs. congruence.
  - destruct (Hsamples segments) as (s & -> & Hs); [lia|]. f_equal.
    unfold sample_parameter in Hs. rewrite Hcls in Hs. cbn in Hs.
    rewrite <- INR_IZR_INZ in Hs.
    replace (INR segments * step)%R with (INR (length cps - k + 1)) in Hs
      by (unfold step; field; done).
    congruence.
Qed.

(** A quadratic open curve on three points, four segments. *)
Lemma approximate_open_endpoints_witness :
  exists c l,
    BSpline_init BSpline [mkVector 0 0 0; mkVector 1 1 0; mkVector 2 0 0]%R 3 None
      = Ok c
    /\ approximate c 4 = Ok l
    /\ l !! 0 = Some (Position (0, 0, 0)%R)
    /\ l !! 4 = Some (Position (2, 0, 0)%R).
Proof.
  destruct (approximate_open_endpoints
              [mkVector 0 0 0; mkVector 1 1 0; mkVector 2 0 0]%R 3 4)
    as (c & l & Hc & Hl & _ & H0 & H4).
  - lia.
  - simpl. lia.
  - lia.
  - exists c, l. done.
Defined.

(** ** Building a curve *)

(** X16.  In any arithmetic, a curve that a constructor of any of the six
    classes returns gives back its input: [control_points] is the list
    passed in, [count] its length, the order is the one passed in, and the
    private array has one more entry than there are control points, with
    [nplusc = count + order]. *)
Theorem construct_round_trip {F : Type} `{Arith F} (v : variant)
    (cps : list (@Vector F)) (ws : list F) (k : nat) (c : @curve F) :
  construct v cps ws k = Ok c ->
  control_points c = cps
  /\ count c = length cps
  /\ order c = k
  /\ cls c = v
  /\ well_formed c.
Proof.
  assert (forall v' knots c', BSpline_init v' cps k knots = Ok c' ->
            _control_points c' = null_vector :: cps
            /\ _cp_count c' = length cps /\ order c' = k /\ cls c' = v'
            /\ nplusc c' = length cps + k) as Hinit.
  { intros v' knots c' Hc'. unfold BSpline_init in Hc'.
    apply bind_Ok in Hc' as (ks & _ & Hc'). injection Hc' as <-. done. }
  assert (forall c' ws', (exists v' knots, BSpline_init v' cps k knots = Ok c'
                                     /\ v' = v) ->
            let c'' := set_weights c' ws' in
            control_points c'' = cps /\ count c'' = length cps /\ order c'' = k
            /\ cls c'' = v /\ well_formed c'') as Hset.
  { intros c' ws' (v' & knots & Hc' & <-).
    destruct (Hinit _ _ _ Hc') as (Hcps & Hn & Hk & Hv & Hnpc).
    unfold control_points, count, well_formed. simpl.
    rewrite Hcps, Hn, Hk, Hnpc. simpl. repeat split; (done || lia). }
  intros Hc. unfold construct in Hc.
  destruct v;
    try (destruct (Hinit _ _ _ Hc) as (Hcps & Hn & Hk & Hv & Hnpc);
         unfold control_points, count, well_formed;
         rewrite Hcps, Hn, Hk, Hnpc; simpl; repeat split; (done || lia)).
  - unfold RBSpline_init in Hc.
    destruct (negb (length cps =? length ws)); [discriminate|].
    apply bind_Ok in Hc as (c' & Hc' & Hc). injection Hc as <-.
    apply Hset. eauto.
  - unfold RBSplineU_init in Hc.
    apply bind_Ok in Hc as (c' & Hc' & Hc). injection Hc as <-.
    apply Hset. eauto.
Qed.

(** A rational periodic curve in binary64. *)
Lemma construct_round_trip_witness :
  let c := mkCurve RBSplineU
             [null_vector; mkVector 0 0 0; mkVector 1 1 0; mkVector 2 0 0]%float
             3 2 5 [0; 0; 1; 2; 3; 4]%float [0; 1; 2; 1]%float in
  control_points c = [mkVector 0 0 0; mkVector 1 1 0; mkVector 2 0 0]%float
  /\ count c = 3.
Proof.
  intros c.
  destruct (construct_round_trip RBSplineU
              [mkVector 0 0 0; mkVector 1 1 0; mkVector 2 0 0]%float
              [1; 2; 1]%float 2 c) as (Hc & Hn & _).
  - vm_compute. reflexivity.
  - split; [exact Hc | exact Hn].
Defined.

(** ** Text without formatting codes *)

Lemma elem_of_remove_char (old c : ascii) (t : list ascii) :
  c ∈ remove_char old t <-> c ∈ t /\ c <> old.
Proof.
  unfold remove_char.
  rewrite !list_elem_of_In, List.filter_In, negb_true_iff, Ascii.eqb_neq. done.
Qed.


Lemma remove_char_length (old : ascii) (t : list ascii) :
  length (remove_char old t) <= length t.
Proof.
  induction t as [|c t IH]; [done|]. unfold remove_char in *. simpl.
  destruct (negb _); simpl; lia.
Qed.

Lemma elem_of_safe_text (c : ascii) (t : list ascii) :
  c ∈ safe_text t <-> c ∈ t /\ c <> LF /\ c <> CR.
Proof. unfold safe_text. rewrite !elem_of_remove_char. tauto. Qed.

Lemma safe_text_app (a b : list ascii) :
  safe_text (a ++ b) = safe_text a ++ safe_text b.
Proof. unfold safe_text, remove_char. by rewrite !List.filter_app. Qed.

Lemma safe_text_cons_kept (c : ascii) (t : list ascii) :
  c <> LF -> c <> CR -> safe_text (c :: t) = c :: safe_text t.
Proof.
  intros H1 H2. unfold safe_text, remove_char. simpl.
  rewrite (proj2 (Ascii.eqb_neq c LF)) by done. simpl.
  by rewrite (proj2 (Ascii.eqb_neq c CR)) by done.
Qed.


Lemma safe_text_length (t : list ascii) : length (safe_text t) <= length t.
Proof.
  unfold safe_text.
  pose proof (remove_char_length CR (remove_char LF t)).
  pose proof (remove_char_length LF t). lia.
Qed.

Section TextFacts.

Variable enc : ascii -> option (list ascii).

(** The equations of the loop. *)

Lemma loop_other (c : ascii) (rest : list ascii) (chars : list (list ascii)) :
  c <> percent -> plain_text_loop enc (c :: rest) chars = plain_text_loop enc rest (chars ++ [[c]]).
Proof. intros Hc. simpl. by rewrite (proj2 (Ascii.eqb_neq _ _) Hc). Qed.

Lemma loop_single (rest : list ascii) (chars : list (list ascii)) :
  head rest <> Some percent ->
  plain_text_loop enc (percent :: rest) chars = plain_text_loop enc rest (chars ++ [[percent]]).
Proof.
  intros Hd. destruct rest as [|d r]; [done|].
  assert (d <> percent) as Hne by (intros ->; by apply Hd).
  change (plain_text_loop enc (percent :: d :: r) chars)
    with (if Ascii.eqb d percent
          then match r with
               | special_char :: rest'' =>
                   plain_text_loop enc rest'' (chars ++ [default [] (enc special_char)])
               | [] => chars
               end
          else plain_text_loop enc (d :: r) (chars ++ [[percent]])).
  by rewrite (proj2 (Ascii.eqb_neq _ _) Hne).
Qed.

Lemma loop_code (special_char : ascii) (rest : list ascii)
    (chars : list (list ascii)) :
  plain_text_loop enc (percent :: percent :: special_char :: rest) chars
  = plain_text_loop enc rest (chars ++ [default [] (enc special_char)]).
Proof. reflexivity. Qed.

Lemma loop_dangling (chars : list (list ascii)) :
  plain_text_loop enc [percent; percent] chars = chars.
Proof. reflexivity. Qed.

(** Induction along the way the loop consumes its input. *)
Lemma loop_induction (Q : list ascii -> Prop) :
  Q [] ->
  (forall c rest, c <> percent -> Q rest -> Q (c :: rest)) ->
  (forall rest, head rest <> Some percent -> Q rest -> Q (percent :: rest)) ->
  Q [percent; percent] ->
  (forall special_char rest,
     Q rest -> Q (percent :: percent :: special_char :: rest)) ->
  forall x, Q x.
Proof.
  intros Hnil Hother Hsingle Hdangling Hcode x.
  assert (forall n x, length x <= n -> Q x) as Hall; [|by apply (Hall (length x))].
  clear x. induction n as [|n IH]; intros x Hx.
  { destruct x; [done | simpl in Hx; lia]. }
  destruct x as [|c rest]; [done|]. simpl in Hx.
  destruct (ascii_dec c percent) as [->|Hc].
  2:{ apply Hother; [done|]. apply IH. lia. }
  destruct rest as [|d r].
  { apply Hsingle; [done | done]. }
  destruct (ascii_dec d percent) as [->|Hd].
  2:{ apply Hsingle; [simpl; congruence|]. apply IH. simpl in *. lia. }
  destruct r as [|e r]; [done|].
  apply Hcode. apply IH. simpl in *. lia.
Qed.

Lemma loop_acc (x : list ascii) :
  forall chars, plain_text_loop enc x chars = chars ++ plain_text_loop enc x [].
Proof.
  induction x as [| c rest Hc IH | rest Hd IH | | e rest IH] using loop_induction;
    intros chars.
  - simpl. by rewrite app_nil_r.
  - rewrite !loop_other by done. rewrite (IH (chars ++ _)), (IH ([] ++ _)).
    by rewrite <- app_assoc.
  - rewrite !loop_single by done. rewrite (IH (chars ++ _)), (IH ([] ++ _)).
    by rewrite <- app_assoc.
  - rewrite !loop_dangling. by rewrite app_nil_r.
  - rewrite !loop_code. rewrite (IH (chars ++ _)), (IH ([] ++ _)).
    by rewrite <- app_assoc.
Qed.

Lemma loop_plain_prefix (a x : list ascii) :
  percent ∉ a ->
  concat (plain_text_loop enc (a ++ x) []) = a ++ concat (plain_text_loop enc x []).
Proof.
  induction a as [|c a IH]; intros Ha; [done|].
  apply not_elem_of_cons in Ha as [Hc Ha].
  simpl app. rewrite loop_other by done. rewrite loop_acc, concat_app.
  rewrite IH by done. done.
Qed.

Lemma plain_text_safe (t : list ascii) :
  plain_text enc t = concat (plain_text_loop enc (safe_text t) []).
Proof. reflexivity. Qed.

End TextFacts.


(** X18.  Whatever the table of formatting codes: a text that starts with a
    stretch without ['%'] keeps that stretch, less its line breaks, and the
    rest is decoded as if it stood alone.  So a text without any ['%'] is
    returned as [safe_text] returns it. *)
Theorem plain_text_plain_prefix (enc : ascii -> option (list ascii))
    (a b : list ascii) :
  percent ∉ a ->
  plain_text enc (a ++ b) = safe_text a ++ plain_text enc b
  /\ (b = [] -> plain_text enc a = safe_text a).
Proof.
  intros Ha.
  assert (plain_text enc (a ++ b) = safe_text a ++ plain_text enc b) as Hgen.
  { rewrite !plain_text_safe, safe_text_app. apply loop_plain_prefix.
    rewrite elem_of_safe_text. tauto. }
  split; [exact Hgen|]. intros ->.
  rewrite app_nil_r in Hgen. rewrite Hgen. apply app_nil_r.
Qed.

(** Bytes "a", line feed, "b", then the code [%%d]. *)
Lemma plain_text_plain_prefix_witness :
  let enc := fun c : ascii =>
               if Ascii.eqb c "d" then Some ["176"%char] else None in
  plain_text enc (["a"; "010"; "b"] ++ ["%"; "%"; "d"])%char
  = (safe_text ["a"; "010"; "b"] ++ plain_text enc ["%"; "%"; "d"])%char.
Proof.
  intros enc.
  apply (plain_text_plain_prefix enc ["a"; "010"; "b"]%char ["%"; "%"; "d"]%char).
  intros Hin. repeat (apply elem_of_cons in Hin as [Hin|Hin]; [discriminate|]).
  by apply elem_of_nil in Hin.
Defined.

(** X19.  A formatting code [%%x], with [x] neither line feed nor carriage
    return, is replaced by the table's entry for [x], or dropped when the
    table has none, and decoding goes on after it. *)
Theorem plain_text_code (enc : ascii -> option (list ascii))
    (special_char : ascii) (rest : list ascii) :
  special_char <> LF -> special_char <> CR ->
  plain_text enc (percent :: percent :: special_char :: rest)
  = default [] (enc special_char) ++ plain_text enc rest.
Proof.
  intros H1 H2. rewrite !plain_text_safe.
  rewrite !(safe_text_cons_kept percent) by discriminate.
  rewrite safe_text_cons_kept by done.
  rewrite loop_code, loop_acc, concat_app. simpl. by rewrite app_nil_r.
Qed.

(** The code [%%d] and an unknown code [%%q]. *)
Lemma plain_text_code_witness :
  let enc := fun c : ascii =>
               if Ascii.eqb c "d" then Some ["176"%char] else None in
  plain_text enc ["%"; "%"; "d"; "C"]%char = ["176"; "C"]%char
  /\ plain_text enc ["%"; "%"; "q"; "C"]%char = ["C"]%char.
Proof.
  intros enc. split.
  - apply (plain_text_code enc "d"%char ["C"%char]); discriminate.
  - apply (plain_text_code enc "q"%char ["C"%char]); discriminate.
Defined.

(** X20.  A ['%'] that is not followed by another ['%'], once the line
    breaks are gone, is kept as it is; this includes a ['%'] at the end. *)
Theorem plain_text_single_percent (enc : ascii -> option (list ascii))
    (rest : list ascii) :
  head (safe_text rest) <> Some percent ->
  plain_text enc (percent :: rest) = percent :: plain_text enc rest.
Proof.
  intros Hd. rewrite !plain_text_safe.
  rewrite (safe_text_cons_kept percent) by discriminate.
  rewrite loop_single by done. rewrite loop_acc, concat_app. done.
Qed.

(** "%" before "5", and "%" before a line feed that ends the text. *)
Lemma plain_text_single_percent_witness :
  plain_text (fun _ => None) ["%"; "5"]%char = ["%"; "5"]%char
  /\ plain_text (fun _ => None) ["%"; "010"]%char = ["%"]%char.
Proof.
  split.
  - apply (plain_text_single_percent (fun _ => None) ["5"%char]). discriminate.
  - apply (plain_text_single_percent (fun _ => None) ["010"%char]). discriminate.
Defined.

(** X21.  A [%%] with nothing but line breaks after it is dropped, and so is
    a line break between [%%] and the character after it: the code is read
    across it. *)
Theorem plain_text_dangling_code (enc : ascii -> option (list ascii))
    (breaks rest : list ascii) :
  safe_text breaks = [] ->
  plain_text enc (percent :: percent :: breaks) = []
  /\ plain_text enc (percent :: percent :: breaks ++ rest)
     = plain_text enc (percent :: percent :: rest).
Proof.
  intros Hb. rewrite !plain_text_safe.
  rewrite !(safe_text_cons_kept percent) by discriminate.
  rewrite safe_text_app, Hb. done.
Qed.

(** [%%], line feed, [d]. *)
Lemma plain_text_dangling_code_witness :
  let enc := fun c : ascii =>
               if Ascii.eqb c "d" then Some ["176"%char] else None in
  plain_text enc ["%"; "%"; "010"]%char = []
  /\ plain_text enc (["%"; "%"] ++ ["010"] ++ ["d"])%char
     = plain_text enc ["%"; "%"; "d"]%char.
Proof.
  intros enc.
  apply (plain_text_dangling_code enc ["010"%char] ["d"%char]). reflexivity.
Defined.


Section TextBounds.

Variable enc : ascii -> option (list ascii).

Lemma loop_pieces (P : list ascii -> Prop) (x : list ascii) :
  (forall c, c ∈ x -> P [c]) ->
  (forall c, P (default [] (enc c))) ->
  forall chars, Forall P chars -> Forall P (plain_text_loop enc x chars).
Proof.
  intros Hx Henc. revert Hx.
  induction x as [| c rest Hc IH | rest Hd IH | | e rest IH] using loop_induction;
    intros Hx chars Hchars.
  - done.
  - rewrite loop_other by done. apply IH.
    + intros c' Hc'. apply Hx. by apply list_elem_of_further.
    + apply Forall_app. split; [done|].
      apply Forall_singleton, Hx, list_elem_of_here.
  - rewrite loop_single by done. apply IH.
    + intros c' Hc'. apply Hx. by apply list_elem_of_further.
    + apply Forall_app. split; [done|].
      apply Forall_singleton, Hx, list_elem_of_here.
  - by rewrite loop_dangling.
  - rewrite loop_code. apply IH.
    + intros c' Hc'. apply Hx. by do 3 apply list_elem_of_further.
    + apply Forall_app. split; [done|]. apply Forall_singleton, Henc.
Qed.

Lemma loop_length (x : list ascii) :
  (forall c, length (default [] (enc c)) <= 3) ->
  forall chars,
    length (concat (plain_text_loop enc x chars))
    <= length (concat chars) + length x.
Proof.
  intros Henc.
  induction x as [| c rest Hc IH | rest Hd IH | | e rest IH] using loop_induction;
    intros chars.
  - simpl. lia.
  - rewrite loop_other by done. etransitivity; [apply IH|].
    rewrite concat_app, length_app. simpl. lia.
  - rewrite loop_single by done. etransitivity; [apply IH|].
    rewrite concat_app, length_app. simpl. lia.
  - rewrite loop_dangling. lia.
  - rewrite loop_code. etransitivity; [apply IH|].
    rewrite concat_app, length_app. simpl. rewrite app_nil_r.
    pose proof (Henc e). lia.
Qed.

End TextBounds.

(** X22.  If no entry of the table of formatting codes holds a line feed or
    a carriage return, [plain_text] never returns one. *)
Theorem plain_text_no_line_breaks (enc : ascii -> option (list ascii))
    (text : list ascii) :
  (forall c v, enc c = Some v -> (LF ∉ v) /\ (CR ∉ v)) ->
  (LF ∉ plain_text enc text) /\ (CR ∉ plain_text enc text).
Proof.
  intros Henc.
  assert (Forall (fun piece => (LF ∉ piece) /\ (CR ∉ piece))
                 (plain_text_loop enc (safe_text text) [])) as Hpieces.
  { apply loop_pieces; [| |done].
    - intros c Hc. apply elem_of_safe_text in Hc as (_ & H1 & H2).
      split; intros Hin; apply list_elem_of_singleton in Hin; congruence.
    - intros c. destruct (enc c) as [v|] eqn:Hv; simpl; [by eapply Henc|].
      split; apply not_elem_of_nil. }
  rewrite plain_text_safe.
  rewrite Forall_forall in Hpieces.
  split; intros Hin; apply list_elem_of_In, in_concat in Hin as (piece & Hpiece & Hin);
    apply list_elem_of_In in Hpiece, Hin; apply Hpieces in Hpiece; tauto.
Qed.

(** A table with one code. *)
Lemma plain_text_no_line_breaks_witness :
  let enc := fun c : ascii =>
               if Ascii.eqb c "d" then Some ["176"%char] else None in
  (LF ∉ plain_text enc ["a"; "010"; "%"; "%"; "d"]%char)
  /\ (CR ∉ plain_text enc ["a"; "010"; "%"; "%"; "d"]%char).
Proof.
  intros enc. apply (plain_text_no_line_breaks enc).
  intros c v. unfold enc. destruct (Ascii.eqb c "d"); [|discriminate].
  intros [= <-]. split; intros Hin; apply list_elem_of_singleton in Hin;
    discriminate.
Defined.

(** X23.  If every entry of the table of formatting codes has at most three
    characters, the length of a code, [plain_text] never returns more
    characters than the text has. *)
Theorem plain_text_length (enc : ascii -> option (list ascii))
    (text : list ascii) :
  (forall c v, enc c = Some v -> length v <= 3) ->
  length (plain_text enc text) <= length text.
Proof.
  intros Henc. rewrite plain_text_safe.
  etransitivity; [apply loop_length|].
  - intros c. destruct (enc c) as [v|] eqn:Hv; simpl; [by eapply Henc | lia].
  - simpl. apply safe_text_length.
Qed.

(** A table with one code. *)
Lemma plain_text_length_witness :
  let enc := fun c : ascii =>
               if Ascii.eqb c "d" then Some ["176"%char] else None in
  length (plain_text enc ["9"; "0"; "%"; "%"; "d"]%char) <= 5.
Proof.
  intros enc. apply (plain_text_length enc ["9"; "0"; "%"; "%"; "d"]%char).
  intros c v. unfold enc. destruct (Ascii.eqb c "d"); [|discriminate].
  intros [= <-]. simpl. lia.
Defined.

(** ** Drawing a path as line segments *)

Section DrawPath.

Context {V : Type}.

Lemma draw_segments_acc (prev : V) (vertices : list V) :
  forall calls,
    draw_segments prev vertices calls = calls ++ draw_segments prev vertices [].
Proof.
  revert prev. induction vertices as [|v vs IH]; intros prev calls; simpl.
  - by rewrite app_nil_r.
  - rewrite (IH v (calls ++ _)), (IH v [_]). by rewrite <- app_assoc.
Qed.

Lemma draw_segments_cons (prev v : V) (vs : list V) :
  draw_segments prev (v :: vs) [] = (prev, v) :: draw_segments v vs [].
Proof. simpl. by rewrite draw_segments_acc. Qed.

Lemma draw_segments_lookup (vs : list V) :
  forall (prev : V) (i : nat) (a b : V),
    (prev :: vs) !! i = Some a -> vs !! i = Some b ->
    draw_segments prev vs [] !! i = Some (a, b).
Proof.
  induction vs as [|v vs IH]; intros prev i a b Ha Hb; [done|].
  rewrite draw_segments_cons. destruct i as [|i]; simpl in *.
  - congruence.
  - by apply IH.
Qed.

Lemma draw_segments_length (vs : list V) :
  forall prev : V, length (draw_segments prev vs []) = length vs.
Proof.
  induction vs as [|v vs IH]; intros prev; [done|].
  rewrite draw_segments_cons. simpl. by rewrite IH.
Qed.

End DrawPath.

(** X24.  For a path that is not empty and whose approximation yields the
    vertices v0, ..., vm, the fall-back [draw_path] calls [draw_line]
    exactly m times, the i-th call drawing from v(i) to v(i+1): a polyline
    in which every segment starts where the one before ended.  (With a
    single vertex nothing is drawn.) *)
Theorem draw_path_polyline {V : Type} (path_len : nat) (v0 : V) (vs : list V) :
  path_len <> 0 ->
  exists calls,
    draw_path path_len (v0 :: vs) = Lines calls
    /\ length calls = length vs
    /\ (forall i a b, (v0 :: vs) !! i = Some a -> vs !! i = Some b ->
          calls !! i = Some (a, b))
    /\ (forall i s e s' e', calls !! i = Some (s, e) ->
          calls !! (i + 1) = Some (s', e') -> s' = e).
Proof.
  intros Hlen. exists (draw_segments v0 vs []).
  assert (forall i a b, (v0 :: vs) !! i = Some a -> vs !! i = Some b ->
            draw_segments v0 vs [] !! i = Some (a, b)) as Hcalls
    by (intros; by apply draw_segments_lookup).
  split; [|split; [|split]].
  - unfold draw_path. by rewrite (proj2 (Nat.eqb_neq _ _) Hlen).
  - apply draw_segments_length.
  - exact Hcalls.
  - intros i s e s' e' H1 H2.
    assert (i + 1 < length vs) as Hi.
    { rewrite <- (draw_segments_length vs v0). by eapply lookup_lt_Some. }
    destruct (lookup_lt_is_Some_2 vs i) as [b Hb]; [lia|].
    destruct (lookup_lt_is_Some_2 vs (i + 1)) as [b' Hb']; [lia|].
    destruct (lookup_lt_is_Some_2 (v0 :: vs) i) as [a Ha]; [simpl; lia|].
    rewrite (Hcalls i a b Ha Hb) in H1.
    rewrite (Hcalls (i + 1) b b') in H2; [congruence | | done].
    replace (i + 1) with (S i) by lia. done.
Qed.

(** Three vertices, two segments. *)
Lemma draw_path_polyline_witness :
  exists calls,
    draw_path 2 [1; 2; 3] = Lines calls /\ length calls = 2.
Proof.
  destruct (draw_path_polyline 2 1 [2; 3]) as (calls & Hc & Hl & _).
  - lia.
  - exists calls. split; [exact Hc | exact Hl].
Defined.
